(** * InsightCast worker: chunking, intent detection and hybrid re-ranking

    A shallow embedding of the search core of [worker.ts]
    ([chunkTextWithWindow], [detectQuestionIntent],
    [calculateHeuristicBoost], [semanticSearch]) together with the
    properties its specification states about it.  A second part embeds
    the rest of the worker ([transcribeAudio], [loadModels],
    [clearDatabase], [self.onmessage]) and the score map of the transcript
    view, with further properties of the code.

    Conventions of the embedding:
    - a JavaScript string is a [string] of 8-bit code units (the Latin-1
      range of UTF-16 code units);
    - the scores of the search are binary64 numbers: module [Binary64]
      follows [calculateHeuristicBoost] and [semanticSearch] with the
      additions, subtractions, multiplications, divisions and comparisons
      of IEEE 754 double precision, on the primitive floating-point numbers
      of the kernel.  What is stated about the values of the scores, about
      the hit that stands for a segment and about the order of the results
      is stated on this module;
    - elsewhere a finite JavaScript number is an exact rational [Q], without
      rounding, overflow or sign of zero: the times of a segment, which are
      only copied, the lengths and ratios of the chunker, the progress of a
      transcription, and a reading of the scoring in exact arithmetic, on
      which the properties that do not depend on rounding are stated (the
      messages a request is answered with, the segments of the results and
      their number).  The values a division can produce out of finite
      operands ([NaN], [Infinity], [-Infinity]) are modelled, see
      [JS.number];
    - the embedding model and the Orama index engine are collaborators of
      the worker: they are functions the worker state carries, which either
      answer or throw. *)

From Stdlib Require Import ZArith QArith Qminmax List String Ascii Bool Arith.
From Stdlib Require Import Lia Lqa Permutation Sorted.
From Stdlib Require Import Floats.
From Equations Require Import Equations.
From Equations.Prop Require Import Logic.
From Stdlib Require Import Decimal DecimalString DecimalNat.
Import ListNotations.

Set Implicit Arguments.

(** ** JavaScript numbers *)

Module JS.

Inductive number : Type :=
| Fin (q : Q)
| PosInf
| NegInf
| NaN.

(** [a / b] on finite operands. *)
Definition div (a b : Q) : number :=
  if Qeq_bool b 0 then
    if Qeq_bool a 0 then NaN
    else if Qle_bool 0 a then PosInf else NegInf
  else Fin (a / b).

(** [Math.min(x, y)] and [Math.max(x, y)]: [NaN] is absorbing. *)
Definition min (x y : number) : number :=
  match x, y with
  | NaN, _ | _, NaN => NaN
  | NegInf, _ | _, NegInf => NegInf
  | PosInf, z | z, PosInf => z
  | Fin a, Fin b => Fin (Qmin a b)
  end.

Definition max (x y : number) : number :=
  match x, y with
  | NaN, _ | _, NaN => NaN
  | PosInf, _ | _, PosInf => PosInf
  | NegInf, z | z, NegInf => z
  | Fin a, Fin b => Fin (Qmax a b)
  end.

(** [x <= y], [x < y] and [x === y]: false as soon as one side is [NaN]. *)
Definition le (x y : number) : Prop :=
  match x, y with
  | NaN, _ | _, NaN => False
  | NegInf, _ | _, PosInf => True
  | Fin a, Fin b => a <= b
  | _, _ => False
  end.

Definition lt (x y : number) : Prop :=
  match x, y with
  | NaN, _ | _, NaN => False
  | NegInf, NegInf | PosInf, PosInf => False
  | NegInf, _ | _, PosInf => True
  | Fin a, Fin b => a < b
  | _, _ => False
  end.

Definition eq (x y : number) : Prop :=
  match x, y with
  | Fin a, Fin b => a == b
  | PosInf, PosInf | NegInf, NegInf => True
  | _, _ => False
  end.

End JS.

(** ** JavaScript strings *)

Module Str.

Open Scope string_scope.

Definition code (c : ascii) : nat := nat_of_ascii c.

Definition inRange (lo hi : nat) (c : ascii) : bool :=
  (lo <=? code c)%nat && (code c <=? hi)%nat.

(** White space and line terminators stripped by [String.prototype.trim]
    (those below U+0100: TAB, LF, VT, FF, CR, SP, NBSP). *)
Definition isWhiteSpace (c : ascii) : bool :=
  inRange 9 13 c || (code c =? 32)%nat || (code c =? 160)%nat.

Fixpoint trimStart (s : string) : string :=
  match s with
  | String c s' => if isWhiteSpace c then trimStart s' else s
  | EmptyString => EmptyString
  end.

Fixpoint trimEnd (s : string) : string :=
  match s with
  | String c s' =>
      match trimEnd s' with
      | EmptyString => if isWhiteSpace c then EmptyString else String c EmptyString
      | t => String c t
      end
  | EmptyString => EmptyString
  end.

Definition trim (s : string) : string := trimEnd (trimStart s).

(** [toLowerCase] on the Latin-1 range: A-Z, and the accented capitals
    U+00C0-U+00DE but the multiplication sign U+00D7. *)
Definition lowerChar (c : ascii) : ascii :=
  if inRange 65 90 c || (inRange 192 222 c && negb (code c =? 215)%nat)
  then ascii_of_nat (code c + 32) else c.

Fixpoint toLowerCase (s : string) : string :=
  match s with
  | String c s' => String (lowerChar c) (toLowerCase s')
  | EmptyString => EmptyString
  end.

(** [text.indexOf(s)]: offset of the first occurrence, [-1] when absent. *)
Definition indexOf (text s : string) : Z :=
  match index 0 s text with
  | Some n => Z.of_nat n
  | None => (-1)%Z
  end.

(** [text.includes(s)]. *)
Definition includes (text s : string) : bool :=
  match index 0 s text with
  | Some _ => true
  | None => false
  end.

(** [parts.join(sep)]. *)
Definition join (sep : string) (parts : list string) : string :=
  concat sep parts.

(** [xs.slice(i, j)] for array indices [0 <= i <= j]. *)
Definition slice {A : Type} (xs : list A) (i j : nat) : list A :=
  firstn (j - i) (skipn i xs).

End Str.

(** ** Regular expressions

    The fragment of ECMAScript regular expressions the worker uses, with
    the backtracking semantics of the language: alternatives are tried left
    to right, quantifiers are greedy and give characters back when the rest
    of the pattern fails. *)

Module RegExp.

Open Scope string_scope.

Inductive pattern : Type :=
| Class (p : ascii -> bool)       (* [...] or [^...] *)
| ClassPlus (p : ascii -> bool)   (* [...]+ *)
| ClassOpt (p : ascii -> bool)    (* [...]? *)
| Word (w : string)               (* literal characters *)
| WordBoundary                    (* \b *)
| EndOfInput                      (* $ without the m flag *)
| Seq (r1 r2 : pattern)
| Alt (r1 r2 : pattern).

(** A position in the input: the character before it and what follows. *)
Definition cont : Type := option ascii -> string -> option (option ascii * string).

Definition upperChar (c : ascii) : ascii :=
  if Str.inRange 97 122 c then ascii_of_nat (Str.code c - 32) else c.

(** Character comparison; under the [i] flag both sides are canonicalized,
    and a character above U+007F is never identified with an ASCII one. *)
Definition sameChar (ignoreCase : bool) (a c : ascii) : bool :=
  if ignoreCase then Ascii.eqb (upperChar a) (upperChar c) else Ascii.eqb a c.

Definition isWordChar (c : ascii) : bool :=
  Str.inRange 48 57 c || Str.inRange 65 90 c || Str.inRange 97 122 c
  || (Str.code c =? 95)%nat.

Definition isWordCharOpt (c : option ascii) : bool :=
  match c with Some a => isWordChar a | None => false end.

Definition next (s : string) : option ascii :=
  match s with String c _ => Some c | EmptyString => None end.

Definition atWordBoundary (prev : option ascii) (s : string) : bool :=
  xorb (isWordCharOpt prev) (isWordCharOpt (next s)).

Definition orElse {A : Type} (x y : option A) : option A :=
  match x with Some _ => x | None => y end.

Definition oneOf (p : ascii -> bool) (s : string) (k : cont)
  : option (option ascii * string) :=
  match s with
  | String c s' => if p c then k (Some c) s' else None
  | EmptyString => None
  end.

Fixpoint plusClass (p : ascii -> bool) (s : string) (k : cont)
  : option (option ascii * string) :=
  match s with
  | String c s' =>
      if p c then orElse (plusClass p s' k) (k (Some c) s') else None
  | EmptyString => None
  end.

Fixpoint literal (ignoreCase : bool) (w : string) (prev : option ascii)
  (s : string) (k : cont) : option (option ascii * string) :=
  match w with
  | EmptyString => k prev s
  | String a w' =>
      match s with
      | String c s' =>
          if sameChar ignoreCase a c then literal ignoreCase w' (Some c) s' k
          else None
      | EmptyString => None
      end
  end.

Fixpoint run (ignoreCase : bool) (r : pattern) (prev : option ascii)
  (s : string) (k : cont) : option (option ascii * string) :=
  match r with
  | Class p => oneOf p s k
  | ClassPlus p => plusClass p s k
  | ClassOpt p => orElse (oneOf p s k) (k prev s)
  | Word w => literal ignoreCase w prev s k
  | WordBoundary => if atWordBoundary prev s then k prev s else None
  | EndOfInput => match s with EmptyString => k prev s | _ => None end
  | Seq r1 r2 =>
      run ignoreCase r1 prev s (fun prev' s' => run ignoreCase r2 prev' s' k)
  | Alt r1 r2 =>
      orElse (run ignoreCase r1 prev s k) (run ignoreCase r2 prev s k)
  end.

(** A match that starts exactly at the current position; the result is the
    position right after the match. *)
Definition matchHere (ignoreCase : bool) (r : pattern) (prev : option ascii)
  (s : string) : option (option ascii * string) :=
  run ignoreCase r prev s (fun prev' s' => Some (prev', s')).

(** [r.test(s)] for a pattern without the [g] flag: the first position, from
    left to right, at which the pattern matches. *)
Fixpoint searchFrom (ignoreCase : bool) (r : pattern) (prev : option ascii)
  (s : string) : bool :=
  match matchHere ignoreCase r prev s with
  | Some _ => true
  | None =>
      match s with
      | String c s' => searchFrom ignoreCase r (Some c) s'
      | EmptyString => false
      end
  end.

Definition test (ignoreCase : bool) (r : pattern) (s : string) : bool :=
  searchFrom ignoreCase r None s.

(** All the matches of a pattern with the [g] flag, left to right; after an
    empty match the search resumes one character further. *)
Equations? matchAllFrom (ignoreCase : bool) (r : pattern)
  (prev : option ascii) (s : string) : list string
  by wf (String.length s) Nat.lt :=
  matchAllFrom ignoreCase r prev s with inspect (matchHere ignoreCase r prev s) => {
    | exist _ (Some (prev', rest)) _
        with inspect (String.length rest <? String.length s)%nat => {
        | exist _ true _ =>
            substring 0 (String.length s - String.length rest) s
              :: matchAllFrom ignoreCase r prev' rest
        | exist _ false _ with s => {
            | EmptyString => [EmptyString]
            | String c s' => EmptyString :: matchAllFrom ignoreCase r (Some c) s' } }
    | exist _ None _ with s => {
        | EmptyString => []
        | String c s' => matchAllFrom ignoreCase r (Some c) s' } }.
Proof.
  all: try (apply Nat.ltb_lt; assumption); simpl; lia.
Qed.

(** [s.match(r)] for a pattern with the [g] flag: [null] without a match. *)
Definition matchAll (ignoreCase : bool) (r : pattern) (s : string)
  : option (list string) :=
  match matchAllFrom ignoreCase r None s with
  | [] => None
  | ms => Some ms
  end.

End RegExp.

(** ** The worker ([worker.ts]) *)

Open Scope string_scope.

Definition EMBEDDING_DIM : nat := 384.
Definition WINDOW_SIZE : nat := 3.
Definition STRIDE : nat := 1.

(** [\b(w|w1|...)\b] *)
Fixpoint anyOf (w : string) (ws : list string) : RegExp.pattern :=
  match ws with
  | [] => RegExp.Word w
  | w' :: ws' => RegExp.Alt (RegExp.Word w) (anyOf w' ws')
  end.

Definition wholeWords (w : string) (ws : list string) : RegExp.pattern :=
  RegExp.Seq RegExp.WordBoundary (RegExp.Seq (anyOf w ws) RegExp.WordBoundary).

(** The entries of [QUESTION_PATTERNS], in the order of the object literal;
    every pattern carries the [i] flag. *)
Definition QUESTION_PATTERNS : list (string * RegExp.pattern) :=
  [ ("definition",
      wholeWords "what is" ["what are"; "define"; "meaning of"; "definition"]);
    ("origin",
      wholeWords "where does"
        ["where do"; "origin"; "source"; "come from"; "comes from"]);
    ("howTo",
      wholeWords "how can"
        ["how do"; "how to"; "ways to"; "improve"; "develop"; "better"]);
    ("example",
      wholeWords "example"
        ["examples"; "instance"; "such as"; "like what"; "give me";
         "show me"; "real life"]);
    ("author",
      wholeWords "who"
        ["author"; "person"; "says"; "believes"; "believed"; "troward"]) ].

Definition ANSWER_INDICATORS : list (string * list string) :=
  [ ("definition", ["is"; "means"; "refers to"; "defined as"; "is like"]);
    ("origin", ["comes from"; "source"; "part of"; "connected to"]);
    ("howTo", ["by"; "through"; "learn to"; "practice"; "listening"; "trust"]);
    ("example", ["for example"; "such as"; "like when"; "imagine"; "think of"]);
    ("author", ["says"; "believes"; "believed"; "according to"]) ].

(** *** Chunker *)

Module Chunk.
Record t : Type := make {
  text : string;
  startRatio : JS.number;
  endRatio : JS.number
}.
End Chunk.

Definition isSentenceEnd (c : ascii) : bool :=
  (c =? ".")%char || (c =? "!")%char || (c =? "?")%char.

(** A double quote (U+0022) or an apostrophe (U+0027). *)
Definition isQuote (c : ascii) : bool :=
  (Str.code c =? 34)%nat || (Str.code c =? 39)%nat.

(** The pattern [[^.!?]+[.!?]+[q]?|[^.!?]+$] with the [g] flag, where [q]
    stands for the class of the two quote characters. *)
Definition sentenceRegex : RegExp.pattern :=
  RegExp.Alt
    (RegExp.Seq (RegExp.ClassPlus (fun c => negb (isSentenceEnd c)))
       (RegExp.Seq (RegExp.ClassPlus isSentenceEnd) (RegExp.ClassOpt isQuote)))
    (RegExp.Seq (RegExp.ClassPlus (fun c => negb (isSentenceEnd c)))
       RegExp.EndOfInput).

(** [text.match(sentenceRegex)?.map(s => s.trim()).filter(s => s.length > 0)
    || [[text]]]: an array, even an empty one, is truthy, so that the
    fallback is taken only when [match] answers [null]. *)
Definition sentencesOf (text : string) : list string :=
  match RegExp.matchAll false sentenceRegex text with
  | Some ms => filter (fun s => 0 <? String.length s)%nat (map Str.trim ms)
  | None => [text]
  end.

(** The windows of the [for] loop, from index [i] on. *)
Equations? windowsFrom (sentences : list string) (i : nat)
  : list (list string) by wf (List.length sentences - i)%nat Nat.lt :=
  windowsFrom sentences i with inspect (i <? List.length sentences)%nat => {
    | exist _ false _ => []
    | exist _ true _ =>
        let windowSentences := Str.slice sentences i (i + WINDOW_SIZE) in
        if (List.length windowSentences =? 0)%nat then []
        else
          windowSentences ::
            (if (List.length sentences <=? i + WINDOW_SIZE)%nat then []
             else windowsFrom sentences (i + STRIDE)) }.
Proof.
  apply Nat.ltb_lt in e. unfold STRIDE. lia.
Qed.

(** The chunk pushed for one window. *)
Definition chunkOf (text : string) (windowSentences : list string) : Chunk.t :=
  let chunkText := Str.join " " windowSentences in
  let chunkStartChar := Str.indexOf text (hd "" windowSentences) in
  let chunkEndChar := (chunkStartChar + Z.of_nat (String.length chunkText))%Z in
  let len := inject_Z (Z.of_nat (String.length text)) in
  {| Chunk.text := chunkText;
     Chunk.startRatio := JS.max (JS.Fin 0) (JS.div (inject_Z chunkStartChar) len);
     Chunk.endRatio := JS.min (JS.Fin 1) (JS.div (inject_Z chunkEndChar) len) |}.

Definition chunkTextWithWindow (text : string) : list Chunk.t :=
  map (chunkOf text) (windowsFrom (sentencesOf text) 0).

(** *** Intent detection and heuristic boost *)

Definition detectQuestionIntent (query : string) : list string :=
  let intents :=
    fold_left
      (fun intents entry =>
         if RegExp.test true (snd entry) query
         then (intents ++ [fst entry])%list else intents)
      QUESTION_PATTERNS [] in
  match intents with
  | [] => ["general"]
  | _ => intents
  end.

Fixpoint lookup {A : Type} (key : string) (table : list (string * A)) : option A :=
  match table with
  | [] => None
  | (k, v) :: table' => if String.eqb k key then Some v else lookup key table'
  end.

(** [ANSWER_INDICATORS[intent] || []], for an intent that is a label of
    the classifier. *)
Definition indicatorsOf (intent : string) : list string :=
  match lookup intent ANSWER_INDICATORS with
  | Some indicators => indicators
  | None => []
  end.

Definition calculateHeuristicBoost (text : string) (intents : list string) : Q :=
  let lowerText := Str.toLowerCase text in
  let boost :=
    fold_left
      (fun boost intent =>
         fold_left
           (fun boost indicator =>
              if Str.includes lowerText indicator then boost + (1 # 10) else boost)
           (indicatorsOf intent) boost)
      intents 0 in
  Qmin boost (3 # 10).

(** *** Search *)

(** A document of the index, as [transcribeAudio] inserts it. *)
Module Doc.
Record t : Type := make {
  id : string;
  segmentId : string;
  text : string;
  fullSegmentText : string;
  start : Q;
  end_ : Q;
  embedding : list Q
}.
End Doc.

(** A hit of the index engine: a finite score and the document. *)
Module Hit.
Record t : Type := make {
  score : Q;
  document : Doc.t
}.
End Hit.

Module Segment.
Record t : Type := make {
  id : string;
  text : string;
  start : Q;
  end_ : Q
}.
End Segment.

(** A search result; [N] is the type of its score: [Q] while the results
    are ranked, [JS.number] once the scores went through the division. *)
Module Result.
Record t (N : Type) : Type := make {
  segment : Segment.t;
  score : N
}.
End Result.

Module Query.
Record t : Type := make {
  mode : string;
  term : string;
  vectorValue : list Q;
  vectorProperty : string;
  properties : list string;
  limit : Z;
  similarity : Q
}.
End Query.

Inductive WorkerOutputMessage : Type :=
| SearchResults (results : list (Result.t JS.number)) (query : string)
| Error (message : string) (operation : string).

(** What the worker does that its environment observes. *)
Inductive Event : Type :=
| Embed (text : string)
| Search (params : Query.t)
| PostMessage (message : WorkerOutputMessage).

(** A call either returns or throws; a thrown [Error] carries a message. *)
Inductive outcome (A : Type) : Type :=
| Returns (a : A)
| Throws (message : option string).
Arguments Throws {A} message.

(** Computations of the worker: the events so far and the outcome. *)
Definition Worker (A : Type) : Type := (list Event * outcome A)%type.

Definition ret {A : Type} (a : A) : Worker A := ([], Returns a).

Definition throw {A : Type} (message : string) : Worker A :=
  ([], Throws (Some message)).

Definition bind {A B : Type} (m : Worker A) (f : A -> Worker B) : Worker B :=
  match m with
  | (events, Returns a) => let (events', b) := f a in ((events ++ events')%list, b)
  | (events, Throws e) => (events, Throws e)
  end.

Definition emit (e : Event) : Worker unit := ([e], Returns tt).

Definition call {A : Type} (e : Event) (answer : outcome A) : Worker A :=
  ([e], answer).

(** [try { body } catch (error) { handler(error) }]; the events of the
    whole statement. *)
Definition tryCatch (body : Worker unit) (handler : option string -> Worker unit)
  : list Event :=
  match body with
  | (events, Returns _) => events
  | (events, Throws e) => (events ++ fst (handler e))%list
  end.

Notation "x <- m ;; f" := (bind m (fun x => f))
  (at level 61, m at next level, right associativity).
Notation "m ;;; f" := (bind m (fun _ => f))
  (at level 61, right associativity).

(** [Map<string, V>]: the entries in insertion order. *)
Module StringMap.
Section Ops.
Context {V : Type}.

Definition t : Type := list (string * V).

Definition get (key : string) (m : t) : option V := lookup key m.

Fixpoint set (key : string) (value : V) (m : t) : t :=
  match m with
  | [] => [(key, value)]
  | (k, v) :: m' =>
      if String.eqb k key then (key, value) :: m'
      else (k, v) :: set key value m'
  end.

Definition values (m : t) : list V := map snd m.
End Ops.
Arguments t : clear implicits.
End StringMap.

Definition Qltb (a b : Q) : bool := negb (Qle_bool b a).

(** The [segment] of the entry made for a document: the id of the parent
    segment, its full text and its time range. *)
Definition segmentOf (doc : Doc.t) : Segment.t :=
  {| Segment.id := Doc.segmentId doc;
     Segment.text := Doc.fullSegmentText doc;
     Segment.start := Doc.start doc;
     Segment.end_ := Doc.end_ doc |}.

(** The entry [{ segment: {...}, score: finalScore }]. *)
Definition resultOf (doc : Doc.t) (finalScore : Q) : Result.t Q :=
  {| Result.segment := segmentOf doc; Result.score := finalScore |}.

(** [hit.score + heuristicBoost], read in exact arithmetic; the sum of
    binary64 is [Binary64.finalScoreOf]. *)
Definition finalScoreOf (intents : list string) (hit : Hit.t) : Q :=
  Hit.score hit + calculateHeuristicBoost (Doc.text (Hit.document hit)) intents.

(** The body of the loop over the hits. *)
Definition rerankStep (intents : list string)
  (scoredResults : StringMap.t (Result.t Q)) (hit : Hit.t)
  : StringMap.t (Result.t Q) :=
  let doc := Hit.document hit in
  let finalScore := finalScoreOf intents hit in
  match StringMap.get (Doc.segmentId doc) scoredResults with
  | Some existing =>
      if Qltb (Result.score existing) finalScore
      then StringMap.set (Doc.segmentId doc) (resultOf doc finalScore) scoredResults
      else scoredResults
  | None => StringMap.set (Doc.segmentId doc) (resultOf doc finalScore) scoredResults
  end.

(** [results.sort((a, b) => b.score - a.score)]: a stable sort, by
    decreasing score. *)
Fixpoint insertByScore (r : Result.t Q) (sorted : list (Result.t Q))
  : list (Result.t Q) :=
  match sorted with
  | [] => [r]
  | r' :: rest =>
      if Qltb (Result.score r) (Result.score r')
      then r' :: insertByScore r rest
      else r :: sorted
  end.

Definition sortByScore (results : list (Result.t Q)) : list (Result.t Q) :=
  fold_right insertByScore [] results.

(** [results.slice(0, limit)] for an integer [limit]; a negative one counts
    from the end. *)
Definition sliceTo {A : Type} (limit : Z) (xs : list A) : list A :=
  let len := Z.of_nat (List.length xs) in
  let final := if (limit <? 0)%Z then Z.max (len + limit) 0 else Z.min limit len in
  firstn (Z.to_nat final) xs.

(** The results before the normalization of their scores. *)
Definition rankedResults (intents : list string) (hits : list Hit.t) (limit : Z)
  : list (Result.t Q) :=
  let scoredResults := fold_left (rerankStep intents) hits [] in
  sliceTo limit (sortByScore (StringMap.values scoredResults)).

(** [Math.min(r.score / (maxScore * 1.1), 0.99)], read in exact arithmetic;
    the quotient of binary64 is [Binary64.normalizeScore]. *)
Definition normalizeScore (maxScore : Q) (r : Result.t Q) : Result.t JS.number :=
  {| Result.segment := Result.segment r;
     Result.score :=
       JS.min (JS.div (Result.score r) (maxScore * (11 # 10))) (JS.Fin (99 # 100)) |}.

Definition normalizeScores (results : list (Result.t Q))
  : list (Result.t JS.number) :=
  match results with
  | [] => []
  | r0 :: _ => map (normalizeScore (Result.score r0)) results
  end.

Section Worker.

(** The index handle and the [search] function of the index engine. *)
Variable Orama : Type.
Variable search : Orama -> Query.t -> outcome (list Hit.t).

(** The module state [embedderPipeline] and [oramaDb]; [None] is [null]. *)
Record State : Type := {
  embedderPipeline : option (string -> outcome (list Q));
  oramaDb : option Orama
}.

Definition hybridQuery (query : string) (queryVector : list Q) : Query.t :=
  {| Query.mode := "hybrid";
     Query.term := query;
     Query.vectorValue := queryVector;
     Query.vectorProperty := "embedding";
     Query.properties := ["text"];
     Query.limit := 20;
     Query.similarity := 4 # 10 |}.

Definition errorMessage (e : option string) (fallback : string) : string :=
  match e with Some message => message | None => fallback end.

Definition semanticSearch (st : State) (query : string) (limit : Z)
  : list Event :=
  tryCatch
    (match embedderPipeline st, oramaDb st with
     | Some embedder, Some db =>
         let intents := detectQuestionIntent query in
         queryVector <- call (Embed query) (embedder query) ;;
         let params := hybridQuery query queryVector in
         hits <- call (Search params) (search db params) ;;
         let results := rankedResults intents hits limit in
         emit (PostMessage (SearchResults (normalizeScores results) query))
     | _, _ => throw "Models not ready"
     end)
    (fun error =>
       emit (PostMessage (Error (errorMessage error "Search failed") "search"))).

(** The [search] case of [self.onmessage]: [message.limit ?? 10]. *)
Definition onSearchMessage (st : State) (query : string) (limit : option Z)
  : list Event :=
  semanticSearch st query (match limit with Some l => l | None => 10%Z end).

End Worker.

(** ** Vocabulary of the properties *)

(** The labels whose pattern matches the query, in the order of the table. *)
Definition matchingIntents (query : string) : list string :=
  map fst (filter (fun entry => RegExp.test true (snd entry) query) QUESTION_PATTERNS).

Definition intentMatches (label query : string) : Prop :=
  exists pattern,
    In (label, pattern) QUESTION_PATTERNS /\ RegExp.test true pattern query = true.

Definition isIntentLabel (intent : string) : Prop :=
  In intent (map fst QUESTION_PATTERNS) \/ intent = "general".

(** How many indicator phrases of the intents occur in the lowercased text. *)
Definition indicatorsPresent (text : string) (intents : list string) : nat :=
  List.length
    (filter (Str.includes (Str.toLowerCase text)) (flat_map indicatorsOf intents)).

Definition countQ (n : nat) : Q := inject_Z (Z.of_nat n).

Definition textLength (text : string) : Q :=
  inject_Z (Z.of_nat (String.length text)).

Definition hitSegmentId (hit : Hit.t) : string := Doc.segmentId (Hit.document hit).

(** [hit] is a best passage of its segment among [hits]. *)
Definition bestOfSegment (intents : list string) (hits : list Hit.t) (hit : Hit.t)
  : Prop :=
  In hit hits /\
  forall hit', In hit' hits -> hitSegmentId hit' = hitSegmentId hit ->
               finalScoreOf intents hit' <= finalScoreOf intents hit.

(** The entry the map holds for a segment is made of a best passage of
    that segment among the hits seen so far. *)
Definition entryOf (intents : list string) (hits : list Hit.t)
  (k : string) (r : Result.t Q) : Prop :=
  exists hit,
    bestOfSegment intents hits hit /\
    k = hitSegmentId hit /\
    r = resultOf (Hit.document hit) (finalScoreOf intents hit).

Record scored (intents : list string) (seen : list Hit.t)
  (m : StringMap.t (Result.t Q)) : Prop := {
  scored_keys : NoDup (map fst m);
  scored_entries : forall k r, In (k, r) m -> entryOf intents seen k r;
  scored_seen : forall hit, In hit seen -> In (hitSegmentId hit) (map fst m)
}.

Definition byDecreasingScore (a b : Result.t Q) : Prop :=
  Result.score b <= Result.score a.

Definition segmentIdOf {N : Type} (r : Result.t N) : string :=
  Segment.id (Result.segment r).

(** Sample data: two chunks of one segment and two chunks of another. *)
Module Sample.

Definition chunk (id segmentId text : string) : Doc.t :=
  {| Doc.id := id; Doc.segmentId := segmentId; Doc.text := text;
     Doc.fullSegmentText := "full text of " ++ segmentId;
     Doc.start := 0; Doc.end_ := 5; Doc.embedding := [] |}.

Definition hits : list Hit.t :=
  [ {| Hit.score := 1 # 2; Hit.document := chunk "s1_1" "s1" "nothing here" |};
    {| Hit.score := 3 # 10; Hit.document := chunk "s2_0" "s2" "zzz" |};
    {| Hit.score := 2 # 5;
       Hit.document := chunk "s1_0" "s1" "you learn to trust it by practice" |};
    {| Hit.score := 1 # 10; Hit.document := chunk "s2_1" "s2" "zzz" |} ].

(** A hit of score zero. *)
Definition zeroHit : Hit.t :=
  {| Hit.score := 0; Hit.document := chunk "s2_0" "s2" "zzz" |}.

(** A worker whose models are loaded, over an index that is its own list of
    hits: the engine answers any query with it. *)
Definition engine (db : list Hit.t) (_ : Query.t) : outcome (list Hit.t) :=
  Returns db.

Definition ready (db : list Hit.t) : State (list Hit.t) :=
  {| embedderPipeline := Some (fun _ => Returns [1]); oramaDb := Some db |}.

End Sample.

(** ** Transcription and indexing ([transcribeAudio]) *)

(** What the speech recognition pipeline answers: one result or an array
    of results, each with or without an array of timestamped chunks. *)
Module Asr.
Record chunk : Type := makeChunk {
  timestamp : Q * Q;
  text : option string
}.
Record result : Type := makeResult {
  chunks : option (list chunk)
}.
Inductive output : Type :=
| One (r : result)
| Many (rs : list result).
End Asr.

(** The messages of the worker: those of the search, and the others. *)
Inductive OutputMessage : Type :=
| ProgressMessage (stage : string) (progress : Q) (message : string)
| ReadyMessage (device : string) (asr embedder : string)
| TranscriptionResultMessage (segments : list Segment.t) (duration : Q)
| ClearedMessage
| SearchMessage (m : WorkerOutputMessage).

(** The calls of the worker to its collaborators, and its messages. *)
Inductive Effect : Type :=
| RequestAdapter
| LoadPipeline (task model device dtype : string)
| RunAsr (audioSamples : list Q)
| RunEmbedder (text : string)
| InsertMultiple (documents : list Doc.t)
| RunSearch (params : Query.t)
| CreateDb
| Post (message : OutputMessage).

Definition effectOf (e : Event) : Effect :=
  match e with
  | Embed text => RunEmbedder text
  | Search params => RunSearch params
  | PostMessage m => Post (SearchMessage m)
  end.

(** Computations that leave a trace of effects. *)
Module Tr.

Definition t (A : Type) : Type := (list Effect * outcome A)%type.

Definition ret {A : Type} (a : A) : t A := ([], Returns a).

Definition throw {A : Type} (message : string) : t A :=
  ([], Throws (Some message)).

Definition bind {A B : Type} (m : t A) (f : A -> t B) : t B :=
  match m with
  | (effects, Returns a) => let (effects', b) := f a in ((effects ++ effects')%list, b)
  | (effects, Throws e) => (effects, Throws e)
  end.

Definition emit (e : Effect) : t unit := ([e], Returns tt).

Definition call {A : Type} (e : Effect) (answer : outcome A) : t A := ([e], answer).

Definition tryCatch (body : t unit) (handler : option string -> t unit)
  : list Effect :=
  match body with
  | (effects, Returns _) => effects
  | (effects, Throws e) => (effects ++ fst (handler e))%list
  end.

End Tr.

(** [String(n)] for an array index. *)
Definition natToString (n : nat) : string :=
  NilEmpty.string_of_uint (Nat.to_uint n).

(** The document pushed for chunk [j] of a segment. *)
Definition documentOf (segment : Segment.t) (j : nat) (chunk : Chunk.t)
  (embedding : list Q) : Doc.t :=
  {| Doc.id := Segment.id segment ++ "_" ++ natToString j;
     Doc.segmentId := Segment.id segment;
     Doc.text := Chunk.text chunk;
     Doc.fullSegmentText := Segment.text segment;
     Doc.start := Segment.start segment;
     Doc.end_ := Segment.end_ segment;
     Doc.embedding := embedding |}.

(** The progress of the embedding stage after segment [i] of [total]. *)
Definition embeddingProgress (i total : nat) : OutputMessage :=
  ProgressMessage "embedding"
    (60 + (inject_Z (Z.of_nat i) / inject_Z (Z.of_nat total)) * 30)
    ("Embedding " ++ natToString i ++ "/" ++ natToString total).

Section Indexing.

Variable Orama : Type.

(** [generateId()], a fresh identifier at each call: [generateId k] is the
    answer to call number [k]. *)
Variable generateId : nat -> string.

(** [insertMultiple] of the index engine. *)
Variable insertMultiple : Orama -> list Doc.t -> outcome unit.

(** The module state: [asrPipeline] beside the state of the search. *)
Record Models : Type := {
  asrPipeline : option (list Q -> outcome Asr.output);
  searchState : State Orama
}.

(** The body of the loop over the chunks of a result: a segment is pushed
    for a chunk whose trimmed text is not empty. *)
Definition pushSegment (segments : list Segment.t) (chunk : Asr.chunk)
  : list Segment.t :=
  let text := match Asr.text chunk with Some t => Str.trim t | None => "" end in
  if String.eqb text "" then segments
  else
    (segments ++
     [ {| Segment.id := generateId (List.length segments);
          Segment.text := text;
          Segment.start := fst (Asr.timestamp chunk);
          Segment.end_ := snd (Asr.timestamp chunk) |} ])%list.

Definition collectSegments (transcriptionResult : Asr.output) : list Segment.t :=
  let results :=
    match transcriptionResult with
    | Asr.Many rs => rs
    | Asr.One r => [r]
    end in
  fold_left
    (fun segments result =>
       match Asr.chunks result with
       | Some chunks => fold_left pushSegment chunks segments
       | None => segments
       end)
    results [].

(** The loop over the chunks of a segment, from chunk [j] on. *)
Fixpoint embedChunks (embedder : string -> outcome (list Q))
  (segment : Segment.t) (j : nat) (chunks : list Chunk.t)
  (documentsToIndex : list Doc.t) : Tr.t (list Doc.t) :=
  match chunks with
  | [] => Tr.ret documentsToIndex
  | chunk :: rest =>
      Tr.bind (Tr.call (RunEmbedder (Chunk.text chunk)) (embedder (Chunk.text chunk)))
        (fun embedding =>
           if (List.length embedding =? EMBEDDING_DIM)%nat
           then embedChunks embedder segment (S j) rest
                  (documentsToIndex ++ [documentOf segment j chunk embedding])%list
           else embedChunks embedder segment (S j) rest documentsToIndex)
  end.

(** The loop over the segments, from segment [i] on. *)
Fixpoint indexSegments (embedder : string -> outcome (list Q)) (total i : nat)
  (segments : list Segment.t) (documentsToIndex : list Doc.t)
  : Tr.t (list Doc.t) :=
  match segments with
  | [] => Tr.ret documentsToIndex
  | segment :: rest =>
      Tr.bind
        (embedChunks embedder segment 0
           (chunkTextWithWindow (Segment.text segment)) documentsToIndex)
        (fun documents =>
           Tr.bind
             (if (i mod 5 =? 0)%nat
              then Tr.emit (Post (embeddingProgress i total))
              else Tr.ret tt)
             (fun _ => indexSegments embedder total (S i) rest documents))
  end.

Definition transcribeAudio (m : Models) (audioSamples : list Q) (duration : Q)
  : list Effect :=
  Tr.tryCatch
    (match asrPipeline m, embedderPipeline (searchState m), oramaDb (searchState m) with
     | Some asr, Some embedder, Some db =>
         Tr.bind (Tr.call (RunAsr audioSamples) (asr audioSamples))
           (fun transcriptionResult =>
              let segments := collectSegments transcriptionResult in
              Tr.bind
                (indexSegments embedder (List.length segments) 0 segments [])
                (fun documentsToIndex =>
                   Tr.bind
                     (Tr.call (InsertMultiple documentsToIndex)
                        (insertMultiple db documentsToIndex))
                     (fun _ =>
                        Tr.emit
                          (Post (TranscriptionResultMessage segments duration)))))
     | _, _, _ => Tr.throw "Models not loaded"
     end)
    (fun error =>
       Tr.emit
         (Post (SearchMessage
                  (Error (errorMessage error "Transcription failed") "transcribe")))).

End Indexing.

(** *** Vocabulary of the indexing properties *)

(** The chunks of a text with their indices, from index [j] on. *)
Definition indexed {A : Type} (j : nat) (xs : list A) : list (nat * A) :=
  combine (seq j (List.length xs)) xs.

(** The document a chunk gives rise to, if any: none when the embedding
    has not the dimension of the index. *)
Definition documentsOfChunk (embedder : string -> outcome (list Q))
  (segment : Segment.t) (jc : nat * Chunk.t) : list Doc.t :=
  match embedder (Chunk.text (snd jc)) with
  | Returns embedding =>
      if (List.length embedding =? EMBEDDING_DIM)%nat
      then [documentOf segment (fst jc) (snd jc) embedding]
      else []
  | Throws _ => []
  end.

Definition documentsOfSegment (embedder : string -> outcome (list Q))
  (segment : Segment.t) : list Doc.t :=
  flat_map (documentsOfChunk embedder segment)
    (indexed 0 (chunkTextWithWindow (Segment.text segment))).

(** The effects of the loop over the segments: calls of the embedder and
    progress messages of the embedding stage. *)
Definition isIndexingEffect (e : Effect) : Prop :=
  match e with
  | RunEmbedder _ => True
  | Post (ProgressMessage stage progress _) =>
      stage = "embedding" /\ 60 <= progress < 90
  | _ => False
  end.

Definition transcribeError (e : option string) : Effect :=
  Post (SearchMessage (Error (errorMessage e "Transcription failed") "transcribe")).

(** The five ways a transcription request goes. *)
Inductive transcription (Orama : Type) (generateId : nat -> string)
  (insertMultiple : Orama -> list Doc.t -> outcome unit)
  (m : Models Orama) (audioSamples : list Q) (duration : Q)
  : list Effect -> Prop :=
| ModelsNotLoaded :
    asrPipeline m = None \/ embedderPipeline (searchState m) = None
    \/ oramaDb (searchState m) = None ->
    transcription generateId insertMultiple m audioSamples duration
      [transcribeError (Some "Models not loaded")]
| AsrFailed asr embedder db e :
    asrPipeline m = Some asr ->
    embedderPipeline (searchState m) = Some embedder ->
    oramaDb (searchState m) = Some db ->
    asr audioSamples = Throws e ->
    transcription generateId insertMultiple m audioSamples duration
      [RunAsr audioSamples; transcribeError e]
| EmbedderFailed asr embedder db out effects e segment chunk :
    asrPipeline m = Some asr ->
    embedderPipeline (searchState m) = Some embedder ->
    oramaDb (searchState m) = Some db ->
    asr audioSamples = Returns out ->
    Forall isIndexingEffect effects ->
    In segment (collectSegments generateId out) ->
    In chunk (chunkTextWithWindow (Segment.text segment)) ->
    embedder (Chunk.text chunk) = Throws e ->
    transcription generateId insertMultiple m audioSamples duration
      (RunAsr audioSamples :: effects ++ [transcribeError e])
| Inserted asr embedder db out effects documents last :
    asrPipeline m = Some asr ->
    embedderPipeline (searchState m) = Some embedder ->
    oramaDb (searchState m) = Some db ->
    asr audioSamples = Returns out ->
    Forall isIndexingEffect effects ->
    (forall segment chunk,
        In segment (collectSegments generateId out) ->
        In chunk (chunkTextWithWindow (Segment.text segment)) ->
        exists v, embedder (Chunk.text chunk) = Returns v) ->
    documents
    = flat_map (documentsOfSegment embedder) (collectSegments generateId out) ->
    match insertMultiple db documents with
    | Returns _ =>
        last = Post (TranscriptionResultMessage (collectSegments generateId out) duration)
    | Throws e => last = transcribeError e
    end ->
    transcription generateId insertMultiple m audioSamples duration
      (RunAsr audioSamples :: effects ++ [InsertMultiple documents; last]).

(** All the characters of a string satisfy [p]. *)
Fixpoint allChars (p : ascii -> bool) (s : string) : bool :=
  match s with
  | EmptyString => true
  | String c s' => p c && allChars p s'
  end.

Definition isDigit (c : ascii) : bool := Str.inRange 48 57 c.

(** The chunks of the results of the speech recognition, in order. *)
Definition asrChunks (transcriptionResult : Asr.output) : list Asr.chunk :=
  flat_map
    (fun result =>
       match Asr.chunks result with Some chunks => chunks | None => [] end)
    (match transcriptionResult with Asr.Many rs => rs | Asr.One r => [r] end).

(** Sample data of a transcription: three chunks with text, one of white
    space, one without text; the embedder answers a vector of the wrong
    dimension for the last sentence. *)
Module SampleAudio.

Definition generateId (k : nat) : string := "seg_" ++ natToString k.

Definition asr (_ : list Q) : outcome Asr.output :=
  Returns
    (Asr.Many
       [ Asr.makeResult
           (Some [ Asr.makeChunk (0, 5)
                     (Some " Hello there. How are you? Fine. Ok then. ");
                   Asr.makeChunk (5, 6) (Some "  ");
                   Asr.makeChunk (6, 7) None;
                   Asr.makeChunk (7, 9) (Some "Bye.") ]);
         Asr.makeResult None ]).

Definition embedder (text : string) : outcome (list Q) :=
  if String.eqb text "Bye." then Returns [1] else Returns (repeat 0 384).

Definition failingEmbedder (text : string) : outcome (list Q) :=
  if String.eqb text "Bye." then Throws (Some "out of memory")
  else Returns (repeat 0 384).

Definition insertMultiple (_ : unit) (_ : list Doc.t) : outcome unit := Returns tt.

Definition models (embedder : string -> outcome (list Q)) : Models unit :=
  {| asrPipeline := Some asr;
     searchState := {| embedderPipeline := Some embedder; oramaDb := Some tt |} |}.

Definition segments : list Segment.t :=
  [ {| Segment.id := "seg_0";
       Segment.text := "Hello there. How are you? Fine. Ok then.";
       Segment.start := 0; Segment.end_ := 5 |};
    {| Segment.id := "seg_1"; Segment.text := "Bye.";
       Segment.start := 7; Segment.end_ := 9 |} ].

Definition documents : list Doc.t :=
  flat_map (documentsOfSegment embedder) segments.

End SampleAudio.

(** The characters of a string that satisfy [p], in order. *)
Fixpoint keepChars (p : ascii -> bool) (s : string) : string :=
  match s with
  | EmptyString => EmptyString
  | String c s' => if p c then String c (keepChars p s') else keepChars p s'
  end.

(** A character that is neither sentence punctuation nor white space. *)
Definition isContent (c : ascii) : bool :=
  negb (isSentenceEnd c) && negb (Str.isWhiteSpace c).

(** The continuation [k] answers [res] at a position of [s]. *)
Definition reaches (k : RegExp.cont) (s : string)
  (res : option ascii * string) : Prop :=
  exists pre prev' s', s = pre ++ s' /\ k prev' s' = Some res.

(** *** Vocabulary of the case-insensitivity of the classifier *)

Fixpoint mapChars (f : ascii -> ascii) (s : string) : string :=
  match s with
  | EmptyString => EmptyString
  | String c s' => String (f c) (mapChars f s')
  end.

(** The string with its ASCII letters in upper case. *)
Definition asciiUpper (s : string) : string := mapChars RegExp.upperChar s.

(** Patterns made of literal words, word boundaries, sequences and
    alternatives, as those of [QUESTION_PATTERNS]. *)
Inductive wordPattern : RegExp.pattern -> Prop :=
| WordIsWord w : wordPattern (RegExp.Word w)
| BoundaryIsWord : wordPattern RegExp.WordBoundary
| SeqIsWord r1 r2 : wordPattern r1 -> wordPattern r2 -> wordPattern (RegExp.Seq r1 r2)
| AltIsWord r1 r2 : wordPattern r1 -> wordPattern r2 -> wordPattern (RegExp.Alt r1 r2).

Definition isSome {A : Type} (o : option A) : bool :=
  match o with Some _ => true | None => false end.

(** ** The score map of the transcript view ([TranscriptView.tsx]) *)

(** [searchResultMap]: the score of each result under the id of its
    segment. *)
Definition searchResultMap (searchResults : list (Result.t JS.number))
  : StringMap.t JS.number :=
  fold_left
    (fun map result =>
       StringMap.set (Segment.id (Result.segment result)) (Result.score result) map)
    searchResults [].

(** Two continuations that succeed at the same positions, one on a string
    and the other on its upper-case version. *)
Definition sameSuccess (k k' : RegExp.cont) : Prop :=
  forall prev s,
    isSome (k' (option_map RegExp.upperChar prev) (asciiUpper s)) = isSome (k prev s).

(** ** The worker as a whole ([loadModels], [clearDatabase], [onmessage]) *)

Definition ASR_MODEL : string := "onnx-community/whisper-base".
Definition EMBEDDER_MODEL : string := "Xenova/all-MiniLM-L6-v2".

(** What the model loader reports to its [progress_callback]. *)
Module ProgressInfo.
Record t : Type := make {
  status : string;
  progress : option Q;
  file : option string
}.
End ProgressInfo.

(** [file ?? 'model'] *)
Definition orModel (file : option string) : string :=
  match file with Some f => f | None => "model" end.

(** The callback [createProgressCallback(stage)] at one report of the
    loader. *)
Definition createProgressCallback (stage : string) (progress : ProgressInfo.t)
  : list Effect :=
  match String.eqb (ProgressInfo.status progress) "progress",
        ProgressInfo.progress progress with
  | true, Some p =>
      [Post (ProgressMessage stage p
               ("Downloading " ++ orModel (ProgressInfo.file progress) ++ "..."))]
  | _, _ =>
      if String.eqb (ProgressInfo.status progress) "done"
      then [Post (ProgressMessage stage 100 "Model loaded successfully")]
      else if String.eqb (ProgressInfo.status progress) "initiate"
      then [Post (ProgressMessage stage 0
                    ("Initializing " ++ orModel (ProgressInfo.file progress) ++ "..."))]
      else []
  end.

(** [checkWebGPUSupport]: [gpu] is [navigator.gpu] when the browser has it,
    as the answer of its [requestAdapter]. *)
Definition checkWebGPUSupport (gpu : option (outcome (option unit)))
  : list Effect * bool :=
  match gpu with
  | None => ([], false)
  | Some answer =>
      ([RequestAdapter],
       match answer with
       | Returns (Some _) => true
       | Returns None => false
       | Throws _ => false
       end)
  end.

(** The collaborators of the worker as a request finds them. The loaders
    answer with the reports they made to the progress callback and with
    the pipeline, or fail. *)
Module Env.
Record t (Orama : Type) : Type := make {
  gpu : option (outcome (option unit));
  pipelineAsr :
    string -> string -> list ProgressInfo.t * outcome (list Q -> outcome Asr.output);
  pipelineEmbedder :
    string -> string -> list ProgressInfo.t * outcome (string -> outcome (list Q));
  create : outcome Orama;
  generateId : nat -> string;
  insertMultiple : Orama -> list Doc.t -> outcome unit;
  search : Orama -> Query.t -> outcome (list Hit.t)
}.
End Env.

(** The messages sent to the worker. *)
Inductive WorkerInputMessage : Type :=
| LoadInput
| TranscribeInput (audioSamples : list Q) (duration : Q)
| SearchInput (query : string) (limit : option Z)
| ClearInput.

Section Machine.

Variable Orama : Type.

(** The variables of the module. *)
Record WorkerState : Type := {
  currentDevice : string;
  models : Models Orama
}.

Definition setDevice (device : string) (st : WorkerState) : WorkerState :=
  {| currentDevice := device; models := models st |}.

Definition setAsr (asr : list Q -> outcome Asr.output) (st : WorkerState)
  : WorkerState :=
  {| currentDevice := currentDevice st;
     models := {| asrPipeline := Some asr; searchState := searchState (models st) |} |}.

Definition setEmbedder (embedder : string -> outcome (list Q)) (st : WorkerState)
  : WorkerState :=
  {| currentDevice := currentDevice st;
     models :=
       {| asrPipeline := asrPipeline (models st);
          searchState :=
            {| embedderPipeline := Some embedder;
               oramaDb := oramaDb (searchState (models st)) |} |} |}.

Definition setDb (db : Orama) (st : WorkerState) : WorkerState :=
  {| currentDevice := currentDevice st;
     models :=
       {| asrPipeline := asrPipeline (models st);
          searchState :=
            {| embedderPipeline := embedderPipeline (searchState (models st));
               oramaDb := Some db |} |} |}.

Definition loadError (e : option string) : Effect :=
  Post (SearchMessage (Error (errorMessage e "Unknown error") "load")).

(** [loadModels]: the effects and the state it leaves. *)
Definition loadModels (env : Env.t Orama) (st : WorkerState)
  : list Effect * WorkerState :=
  let (probe, hasWebGPU) := checkWebGPUSupport (Env.gpu env) in
  let embedderDevice := if hasWebGPU then "webgpu" else "wasm" in
  let st0 := setDevice embedderDevice st in
  let (asrReports, asrAnswer) := Env.pipelineAsr env "wasm" "q8" in
  let loadingAsr :=
    (probe
     ++ [ Post (ProgressMessage "loading-asr" 5 "Loading Whisper ASR (CPU)...");
          LoadPipeline "automatic-speech-recognition" ASR_MODEL "wasm" "q8" ]
     ++ flat_map (createProgressCallback "loading-asr") asrReports)%list in
  match asrAnswer with
  | Throws e => ((loadingAsr ++ [loadError e])%list, st0)
  | Returns asr =>
      let st1 := setAsr asr st0 in
      let dtype := if String.eqb embedderDevice "webgpu" then "fp16" else "q8" in
      let (embedderReports, embedderAnswer) :=
        Env.pipelineEmbedder env embedderDevice dtype in
      let loadingEmbedder :=
        (loadingAsr
         ++ [ Post (ProgressMessage "loading-embedder" 0
                      ("Loading Embedder (" ++ asciiUpper embedderDevice ++ ")..."));
              LoadPipeline "feature-extraction" EMBEDDER_MODEL embedderDevice dtype ]
         ++ flat_map (createProgressCallback "loading-embedder") embedderReports)%list in
      match embedderAnswer with
      | Throws e => ((loadingEmbedder ++ [loadError e])%list, st1)
      | Returns embedder =>
          let st2 := setEmbedder embedder st1 in
          match Env.create env with
          | Throws e => ((loadingEmbedder ++ [CreateDb; loadError e])%list, st2)
          | Returns db =>
              ((loadingEmbedder
                ++ [ CreateDb;
                     Post (ReadyMessage (currentDevice st2) ASR_MODEL EMBEDDER_MODEL) ])%list,
               setDb db st2)
          end
      end
  end.

(** [clearDatabase]: nothing catches a failure of [create]. *)
Definition clearDatabase (env : Env.t Orama) (st : WorkerState)
  : Tr.t WorkerState :=
  Tr.bind (Tr.call CreateDb (Env.create env))
    (fun db =>
       Tr.bind (Tr.emit (Post ClearedMessage)) (fun _ => Tr.ret (setDb db st))).

(** [self.onmessage] *)
Definition onmessage (env : Env.t Orama) (st : WorkerState)
  (message : WorkerInputMessage) : Tr.t WorkerState :=
  match message with
  | LoadInput => let (effects, st') := loadModels env st in (effects, Returns st')
  | TranscribeInput audioSamples duration =>
      (transcribeAudio (Env.generateId env) (Env.insertMultiple env) (models st)
         audioSamples duration,
       Returns st)
  | SearchInput query limit =>
      (map effectOf
         (onSearchMessage (Env.search env) (searchState (models st)) query limit),
       Returns st)
  | ClearInput => clearDatabase env st
  end.

(** The state after a request: that before it when the handler failed. *)
Definition stateAfter (st : WorkerState) (r : Tr.t WorkerState) : WorkerState :=
  match snd r with Returns st' => st' | Throws _ => st end.

(** Requests handled one after the other, each with the collaborators as
    it finds them. *)
Fixpoint handleAll (requests : list (Env.t Orama * WorkerInputMessage))
  (st : WorkerState) : list Effect * WorkerState :=
  match requests with
  | [] => ([], st)
  | (env, message) :: rest =>
      let r := onmessage env st message in
      let (effects, st') := handleAll rest (stateAfter st r) in
      ((fst r ++ effects)%list, st')
  end.

(** The three models of the worker are there. *)
Definition isLoaded (st : WorkerState) : Prop :=
  isSome (asrPipeline (models st)) = true /\
  isSome (embedderPipeline (searchState (models st))) = true /\
  isSome (oramaDb (searchState (models st))) = true.

End Machine.

(** The messages that end a request. *)
Definition isAnswer (message : OutputMessage) : bool :=
  match message with
  | ProgressMessage _ _ _ => false
  | _ => true
  end.

(** The answer [message] is one of those of the request [request]. *)
Definition answers (request : WorkerInputMessage) (message : OutputMessage) : Prop :=
  match request, message with
  | LoadInput, ReadyMessage _ asr embedder =>
      asr = ASR_MODEL /\ embedder = EMBEDDER_MODEL
  | LoadInput, SearchMessage (Error _ operation) => operation = "load"
  | TranscribeInput _ duration, TranscriptionResultMessage _ duration' =>
      duration' = duration
  | TranscribeInput _ _, SearchMessage (Error _ operation) => operation = "transcribe"
  | SearchInput query _, SearchMessage (SearchResults _ query') => query' = query
  | SearchInput _ _, SearchMessage (Error _ operation) => operation = "search"
  | ClearInput, ClearedMessage => True
  | _, _ => False
  end.

(** The effects of a load before its last message. *)
Definition isLoadingEffect (e : Effect) : Prop :=
  match e with
  | RequestAdapter | LoadPipeline _ _ _ _ | CreateDb => True
  | Post (ProgressMessage stage _ _) =>
      stage = "loading-asr" \/ stage = "loading-embedder"
  | _ => False
  end.

(** The device and the precision of the embedder, with or without an
    adapter of the graphics processor. *)
Definition embedderTarget (hasWebGPU : bool) : string * string :=
  if hasWebGPU then ("webgpu", "fp16") else ("wasm", "q8").

(** More of the sample transcription: its trace, its last segment, and an
    index engine that answers every query with the inserted documents. *)
Module SampleIndex.

Definition trace : list Effect :=
  transcribeAudio SampleAudio.generateId SampleAudio.insertMultiple
    (SampleAudio.models SampleAudio.embedder) [] 9.

Definition failingTrace : list Effect :=
  transcribeAudio SampleAudio.generateId SampleAudio.insertMultiple
    (SampleAudio.models SampleAudio.failingEmbedder) [] 9.

Definition bye : Segment.t :=
  {| Segment.id := "seg_1"; Segment.text := "Bye.";
     Segment.start := 7; Segment.end_ := 9 |}.

(** What the sample speech recognizer answers. *)
Definition output : Asr.output :=
  match SampleAudio.asr [] with
  | Returns out => out
  | Throws _ => Asr.Many []
  end.

(** The only chunk of the last segment. *)
Definition byeChunk : Chunk.t :=
  nth 0 (chunkTextWithWindow "Bye.") (Chunk.make "none" JS.NaN JS.NaN).

(** The document of the second window of the first segment. *)
Definition second : Doc.t :=
  nth 1 SampleAudio.documents (Sample.chunk "none" "none" "none").

Definition hits : list Hit.t :=
  map (fun d => {| Hit.score := 1 # 2; Hit.document := d |}) SampleAudio.documents.

Definition engine (_ : unit) (_ : Query.t) : outcome (list Hit.t) := Returns hits.

End SampleIndex.

(** Sample collaborators of the worker: loaders that report their progress
    and answer the sample pipelines, with or without a graphics adapter
    and an index that can be created. *)
Module SampleWorker.

Definition reports : list ProgressInfo.t :=
  [ ProgressInfo.make "initiate" None (Some "model.onnx");
    ProgressInfo.make "download" None (Some "model.onnx");
    ProgressInfo.make "progress" (Some 50) (Some "model.onnx");
    ProgressInfo.make "progress" None None;
    ProgressInfo.make "done" None (Some "model.onnx") ].

Definition env (gpu : option (outcome (option unit))) (create : outcome unit)
  : Env.t unit :=
  {| Env.gpu := gpu;
     Env.pipelineAsr := fun _ _ => (reports, Returns SampleAudio.asr);
     Env.pipelineEmbedder := fun _ _ => (reports, Returns SampleAudio.embedder);
     Env.create := create;
     Env.generateId := SampleAudio.generateId;
     Env.insertMultiple := SampleAudio.insertMultiple;
     Env.search := SampleIndex.engine |}.

Definition withGpu : Env.t unit := env (Some (Returns (Some tt))) (Returns tt).

Definition withoutIndex : Env.t unit := env None (Throws (Some "quota exceeded")).

Definition initial : WorkerState unit :=
  {| currentDevice := "wasm";
     models :=
       {| asrPipeline := None;
          searchState := {| embedderPipeline := None; oramaDb := None |} |} |}.

Definition loaded : WorkerState unit := snd (loadModels withGpu initial).

Definition requests : list (Env.t unit * WorkerInputMessage) :=
  [ (withoutIndex, ClearInput);
    (withoutIndex, LoadInput);
    (withGpu, TranscribeInput [] 9);
    (withGpu, SearchInput "how are you" None) ].

End SampleWorker.

(** ** The scoring of the search in binary64

    The scores of the hits, the boost and the normalized scores are
    JavaScript numbers, that is binary64 floating-point numbers, and the
    search adds, subtracts, multiplies, divides and compares them as such.
    The definitions of this module follow [calculateHeuristicBoost] and
    [semanticSearch] with the arithmetic and the comparisons of binary64,
    on the primitive floating-point numbers of the kernel.  The times of a
    segment are only copied, and stay as above. *)

Set Warnings "-inexact-float".

Module Binary64.

(** [Math.min(x, y)]: [NaN] when an argument is; the negative zero is
    below the positive one. *)
Definition min (x y : float) : float :=
  if is_nan x || is_nan y then nan
  else if (x <? y)%float then x
  else if (y <? x)%float then y
  else if get_sign x then x else y.

(** A hit of the index engine. *)
Module Hit.
Record t : Type := make {
  score : float;
  document : Doc.t
}.
End Hit.

Definition calculateHeuristicBoost (text : string) (intents : list string) : float :=
  let lowerText := Str.toLowerCase text in
  let boost :=
    fold_left
      (fun boost intent =>
         fold_left
           (fun boost indicator =>
              if Str.includes lowerText indicator then (boost + 0.1)%float else boost)
           (indicatorsOf intent) boost)
      intents 0%float in
  min boost 0.3%float.

(** The entry [{ segment: {...}, score: finalScore }]. *)
Definition resultOf (doc : Doc.t) (finalScore : float) : Result.t float :=
  {| Result.segment := segmentOf doc; Result.score := finalScore |}.

(** [hit.score + heuristicBoost] *)
Definition finalScoreOf (intents : list string) (hit : Hit.t) : float :=
  (Hit.score hit
   + calculateHeuristicBoost (Doc.text (Hit.document hit)) intents)%float.

(** The body of the loop over the hits:
    [!existing || finalScore > existing.score]. *)
Definition rerankStep (intents : list string)
  (scoredResults : StringMap.t (Result.t float)) (hit : Hit.t)
  : StringMap.t (Result.t float) :=
  let doc := Hit.document hit in
  let finalScore := finalScoreOf intents hit in
  match StringMap.get (Doc.segmentId doc) scoredResults with
  | Some existing =>
      if (Result.score existing <? finalScore)%float
      then StringMap.set (Doc.segmentId doc) (resultOf doc finalScore) scoredResults
      else scoredResults
  | None => StringMap.set (Doc.segmentId doc) (resultOf doc finalScore) scoredResults
  end.

(** The comparison function [(a, b) => b.score - a.score]. *)
Definition compareFn (a b : Result.t float) : float :=
  (Result.score b - Result.score a)%float.

(** [results.sort(compareFn)]: a stable sort, which puts [b] before [a]
    when [compareFn a b] is positive.  When the scores are numbers that the
    subtraction orders consistently this is the order of every stable sort;
    otherwise (a score that is [NaN], two equal infinities) the language
    leaves the order to the implementation, and the order below is one of
    the permutations it may give. *)
Fixpoint insertByScore (r : Result.t float) (sorted : list (Result.t float))
  : list (Result.t float) :=
  match sorted with
  | [] => [r]
  | r' :: rest =>
      if (0 <? compareFn r r')%float
      then r' :: insertByScore r rest
      else r :: sorted
  end.

Definition sortByScore (results : list (Result.t float)) : list (Result.t float) :=
  fold_right insertByScore [] results.

(** The results before the normalization of their scores. *)
Definition rankedResults (intents : list string) (hits : list Hit.t) (limit : Z)
  : list (Result.t float) :=
  let scoredResults := fold_left (rerankStep intents) hits [] in
  sliceTo limit (sortByScore (StringMap.values scoredResults)).

(** [Math.min(r.score / (maxScore * 1.1), 0.99)] *)
Definition normalizeScore (maxScore : float) (r : Result.t float) : Result.t float :=
  {| Result.segment := Result.segment r;
     Result.score := min (Result.score r / (maxScore * 1.1))%float 0.99%float |}.

Definition normalizeScores (results : list (Result.t float))
  : list (Result.t float) :=
  match results with
  | [] => []
  | r0 :: _ => map (normalizeScore (Result.score r0)) results
  end.

(** The messages of the search, and what its environment observes. *)
Inductive Message : Type :=
| SearchResults (results : list (Result.t float)) (query : string)
| Error (message : string) (operation : string).

Inductive Event : Type :=
| Embed (text : string)
| Search (params : Query.t)
| PostMessage (m : Message).

Section Worker.

Variable Orama : Type.
Variable search : Orama -> Query.t -> outcome (list Hit.t).

Definition searchError (e : option string) : Event :=
  PostMessage (Error (errorMessage e "Search failed") "search").

Definition semanticSearch (st : State Orama) (query : string) (limit : Z)
  : list Event :=
  match embedderPipeline st, oramaDb st with
  | Some embedder, Some db =>
      let intents := detectQuestionIntent query in
      match embedder query with
      | Returns queryVector =>
          let params := hybridQuery query queryVector in
          match search db params with
          | Returns hits =>
              let results := rankedResults intents hits limit in
              [ Embed query; Search params;
                PostMessage (SearchResults (normalizeScores results) query) ]
          | Throws e => [Embed query; Search params; searchError e]
          end
      | Throws e => [Embed query; searchError e]
      end
  | _, _ => [searchError (Some "Models not ready")]
  end.

(** The [search] case of [self.onmessage]: [message.limit ?? 10]. *)
Definition onSearchMessage (st : State Orama) (query : string) (limit : option Z)
  : list Event :=
  semanticSearch st query (match limit with Some l => l | None => 10%Z end).

End Worker.

(** *** Vocabulary of the properties *)

Definition hitSegmentId (hit : Hit.t) : string := Doc.segmentId (Hit.document hit).

(** No hit of the segment of [hit] among [hits] has a final score above
    that of [hit]. *)
Definition bestOfSegment (intents : list string) (hits : list Hit.t) (hit : Hit.t)
  : Prop :=
  In hit hits /\
  forall hit', In hit' hits -> hitSegmentId hit' = hitSegmentId hit ->
               (finalScoreOf intents hit <? finalScoreOf intents hit')%float = false.

Definition entryOf (intents : list string) (hits : list Hit.t)
  (k : string) (r : Result.t float) : Prop :=
  exists hit,
    bestOfSegment intents hits hit /\
    k = hitSegmentId hit /\
    r = resultOf (Hit.document hit) (finalScoreOf intents hit).

(** The order of the ranking: the second result does not score above the
    first. *)
Definition notBelow (a b : Result.t float) : Prop :=
  (Result.score a <? Result.score b)%float = false.

Record scored (intents : list string) (seen : list Hit.t)
  (m : StringMap.t (Result.t float)) : Prop := {
  scored_keys : NoDup (map fst m);
  scored_entries : forall k r, In (k, r) m -> entryOf intents seen k r;
  scored_seen : forall hit, In hit seen -> In (hitSegmentId hit) (map fst m)
}.

End Binary64.

(** Sample data of a search in binary64: two passages of one segment and
    two of another, as [transcribeAudio] would insert them. *)
Module Sample64.

Definition passage (id segmentId text fullSegmentText : string) (start end_ : Q)
  : Doc.t :=
  {| Doc.id := id; Doc.segmentId := segmentId; Doc.text := text;
     Doc.fullSegmentText := fullSegmentText;
     Doc.start := start; Doc.end_ := end_; Doc.embedding := [] |}.

Definition intuition : string :=
  "Intuition needs no proof. Nothing here. You learn to trust it by practice.".

Definition weather : string := "It rained. It rained again.".

Definition hits : list Binary64.Hit.t :=
  [ Binary64.Hit.make 0.5 (passage "s1_0" "s1" "Intuition needs no proof. Nothing here."
                             intuition 0 (15 # 2));
    Binary64.Hit.make 0.3 (passage "s2_0" "s2" "It rained." weather (15 # 2) 12);
    Binary64.Hit.make 0.4 (passage "s1_1" "s1" "You learn to trust it by practice."
                             intuition 0 (15 # 2));
    Binary64.Hit.make 0.1 (passage "s2_1" "s2" "It rained again." weather (15 # 2) 12) ].

(** One hit, of a given score. *)
Definition single (score : float) : list Binary64.Hit.t :=
  [ Binary64.Hit.make score (passage "s2_0" "s2" "It rained." weather (15 # 2) 12) ].

(** An index that is its own list of hits: the engine answers any query
    with it. *)
Definition engine (db : list Binary64.Hit.t) (_ : Query.t)
  : outcome (list Binary64.Hit.t) :=
  Returns db.

Definition ready (db : list Binary64.Hit.t) : State (list Binary64.Hit.t) :=
  {| embedderPipeline := Some (fun _ => Returns [1]); oramaDb := Some db |}.

End Sample64.

(** The least exponent of binary64, and the numbers that are neither
    [NaN] nor infinite, in the representation of the specification. *)
Definition emin64 : Z := (-1074)%Z.

Definition SFfinite (x : spec_float) : bool :=
  match x with
  | S754_zero _ | S754_finite _ _ _ => true
  | _ => false
  end.

(** * Properties *)

(** ** Intent detection *)

Lemma collect_matching (query : string) (table : list (string * RegExp.pattern))
  (acc : list string) :
  fold_left
    (fun intents entry =>
       if RegExp.test true (snd entry) query
       then (intents ++ [fst entry])%list else intents)
    table acc
  = (acc ++ map fst (filter (fun entry => RegExp.test true (snd entry) query) table))%list.
Proof.
  revert acc. induction table as [|entry table IH]; intros acc; simpl.
  - now rewrite app_nil_r.
  - rewrite IH. destruct (RegExp.test true (snd entry) query); simpl.
    + now rewrite <- app_assoc.
    + reflexivity.
Qed.

Lemma detectQuestionIntent_unfold (query : string) :
  detectQuestionIntent query =
  match matchingIntents query with
  | [] => ["general"]
  | intents => intents
  end.
Proof.
  unfold detectQuestionIntent, matchingIntents.
  rewrite collect_matching. cbn [app].
  destruct (map fst _); reflexivity.
Qed.

Lemma matchingIntents_spec (label query : string) :
  In label (matchingIntents query) <-> intentMatches label query.
Proof.
  unfold matchingIntents, intentMatches. rewrite in_map_iff. split.
  - intros [[l pattern] [Hl Hin]]. simpl in Hl. subst l.
    apply filter_In in Hin. now exists pattern.
  - intros [pattern [Hin Htest]]. exists (label, pattern). split; [reflexivity|].
    apply filter_In. now split.
Qed.

Lemma general_is_no_label (pattern : RegExp.pattern) :
  ~ In ("general", pattern) QUESTION_PATTERNS.
Proof.
  intros H. apply (in_map fst) in H. simpl in H.
  repeat (destruct H as [H|H]; [discriminate H|]). exact H.
Qed.

Lemma matchingIntents_NoDup (query : string) : NoDup (matchingIntents query).
Proof.
  unfold matchingIntents, QUESTION_PATTERNS. cbn [filter snd].
  repeat match goal with
         | |- context [RegExp.test true ?r query] =>
             destruct (RegExp.test true r query)
         end;
    cbn [map fst];
    repeat (constructor; [cbn [In]; intuition discriminate|]); constructor.
Qed.

(** C8: the intent classifier returns exactly the labels of the table
    whose case-insensitive pattern matches the query, each once, and the
    single label [general] when no pattern matches; its result is never
    empty. *)
Theorem detectQuestionIntent_exact (query : string) :
  detectQuestionIntent query <> [] /\
  NoDup (detectQuestionIntent query) /\
  (forall label,
      In label (detectQuestionIntent query) <->
      intentMatches label query \/
      (label = "general" /\ forall l, ~ intentMatches l query)) /\
  (forall label,
      intentMatches label query ->
      In label ["definition"; "origin"; "howTo"; "example"; "author"]).
Proof.
  rewrite detectQuestionIntent_unfold.
  pose proof (matchingIntents_NoDup query) as Hnd.
  pose proof (fun label => matchingIntents_spec label query) as Hspec.
  destruct (matchingIntents query) as [|l0 ls] eqn:E.
  - split; [discriminate|]. split.
    { constructor; [intros []|constructor]. }
    split.
    + intros label. split.
      * intros [<-|[]]. right. split; [reflexivity|].
        intros l Hl. apply Hspec in Hl. exact Hl.
      * intros [Hm|[-> _]]; [|now left].
        apply Hspec in Hm. destruct Hm.
    + intros label Hm. apply Hspec in Hm. destruct Hm.
  - split; [discriminate|]. split; [exact Hnd|]. split.
    + intros label. rewrite Hspec. split; [now left|].
      intros [Hm|[_ Hno]]; [exact Hm|].
      exfalso. apply (Hno l0). apply Hspec. now left.
    + intros label [pattern [Hin _]].
      apply (in_map fst) in Hin. exact Hin.
Qed.

Example detect_howTo :
  detectQuestionIntent "How can I improve my intuition?" = ["howTo"].
Proof. reflexivity. Qed.

Example detect_example :
  detectQuestionIntent "Give me a real life example of intuition" = ["example"].
Proof. reflexivity. Qed.

Example detect_several :
  detectQuestionIntent "Where does the author say intuition comes from?"
  = ["origin"; "author"].
Proof. reflexivity. Qed.

Example author_needs_whole_word :
  detectQuestionIntent "To whom does it belong" = ["general"].
Proof. reflexivity. Qed.

Example detect_general :
  detectQuestionIntent "Does intuition require proof?" = ["general"].
Proof. reflexivity. Qed.

(** ** Heuristic boost *)

Lemma countQ_S (n : nat) : countQ (S n) == countQ n + 1.
Proof.
  unfold countQ. rewrite Nat2Z.inj_succ. unfold Z.succ.
  now rewrite inject_Z_plus.
Qed.

Lemma countQ_add (n m : nat) : countQ (n + m) == countQ n + countQ m.
Proof.
  unfold countQ. now rewrite Nat2Z.inj_add, inject_Z_plus.
Qed.

Lemma countQ_nonneg (n : nat) : 0 <= countQ n.
Proof.
  unfold countQ. change 0 with (inject_Z 0). rewrite <- Zle_Qle. lia.
Qed.

Lemma boost_of_indicators (lowerText : string) (indicators : list string) (boost : Q) :
  fold_left
    (fun boost indicator =>
       if Str.includes lowerText indicator then boost + (1 # 10) else boost)
    indicators boost
  == boost
     + countQ (List.length (filter (Str.includes lowerText) indicators)) * (1 # 10).
Proof.
  revert boost. induction indicators as [|indicator indicators IH]; intros boost.
  - simpl. unfold countQ. simpl. ring.
  - cbn [fold_left filter]. rewrite IH.
    destruct (Str.includes lowerText indicator).
    + cbn [List.length]. rewrite countQ_S. ring.
    + reflexivity.
Qed.

Lemma boost_of_intents (lowerText : string) (intents : list string) (boost : Q) :
  fold_left
    (fun boost intent =>
       fold_left
         (fun boost indicator =>
            if Str.includes lowerText indicator then boost + (1 # 10) else boost)
         (indicatorsOf intent) boost)
    intents boost
  == boost
     + countQ (List.length
                 (filter (Str.includes lowerText) (flat_map indicatorsOf intents)))
       * (1 # 10).
Proof.
  revert boost. induction intents as [|intent intents IH]; intros boost.
  - simpl. unfold countQ. simpl. ring.
  - cbn [fold_left flat_map]. rewrite IH, boost_of_indicators.
    rewrite filter_app, length_app, countQ_add. ring.
Qed.

Lemma calculateHeuristicBoost_count (text : string) (intents : list string) :
  calculateHeuristicBoost text intents
  == Qmin (countQ (indicatorsPresent text intents) * (1 # 10)) (3 # 10).
Proof.
  unfold calculateHeuristicBoost, indicatorsPresent.
  rewrite boost_of_intents. apply Q.min_compat; [ring|reflexivity].
Qed.

Lemma calculateHeuristicBoost_range (text : string) (intents : list string) :
  0 <= calculateHeuristicBoost text intents <= 3 # 10.
Proof.
  rewrite calculateHeuristicBoost_count. split.
  - apply Q.min_glb; [|discriminate].
    pose proof (countQ_nonneg (indicatorsPresent text intents)). nra.
  - apply Q.le_min_r.
Qed.

Lemma detectQuestionIntent_labels (query : string) :
  Forall isIntentLabel (detectQuestionIntent query).
Proof.
  rewrite detectQuestionIntent_unfold.
  destruct (matchingIntents query) as [|l0 ls] eqn:E.
  - constructor; [now right|constructor].
  - rewrite <- E. apply Forall_forall. intros label Hin.
    apply matchingIntents_spec in Hin. destruct Hin as [pattern [Hin _]].
    left. apply (in_map fst) in Hin. exact Hin.
Qed.

(** C7: for every passage text and every list of intent labels, such as
    the classifier detects, the heuristic boost is one tenth per indicator
    phrase of these intents present in the lowercased text, capped at
    three tenths; it lies in the closed interval from 0 to 0.3. *)
Theorem heuristic_boost_capped (text : string) (intents : list string) :
  Forall isIntentLabel intents ->
  0 <= calculateHeuristicBoost text intents <= 3 # 10 /\
  calculateHeuristicBoost text intents
  == Qmin (countQ (indicatorsPresent text intents) * (1 # 10)) (3 # 10).
Proof.
  intros _. split.
  - apply calculateHeuristicBoost_range.
  - apply calculateHeuristicBoost_count.
Qed.

Lemma heuristic_boost_capped_witness :
  let text := "You get better at using intuition by listening to it. Learn to TRUST it" in
  let intents := detectQuestionIntent "How can I improve my intuition?" in
  Forall isIntentLabel intents /\
  indicatorsPresent text intents = 4%nat /\
  calculateHeuristicBoost text intents == 3 # 10.
Proof.
  intros text intents.
  assert (Hl : Forall isIntentLabel intents).
  { change intents with ["howTo"]. constructor; [|constructor].
    left. cbn. tauto. }
  split; [exact Hl|]. split; [reflexivity|].
  destruct (heuristic_boost_capped text Hl) as [_ H].
  rewrite H. reflexivity.
Defined.

Example boost_one_phrase :
  calculateHeuristicBoost "It comes from calm" ["origin"] == 1 # 10.
Proof. reflexivity. Qed.

Example boost_general :
  calculateHeuristicBoost "by practice you learn to trust" ["general"] == 0.
Proof. reflexivity. Qed.

(** ** Chunker *)

Example sentences_of_a_passage :
  sentencesOf "It's not guessing! Is it knowing? You just know...  and then"
  = ["It's not guessing!"; "Is it knowing?"; "You just know..."; "and then"].
Proof. reflexivity. Qed.

Example sentences_of_punctuation : sentencesOf "?!" = ["?!"].
Proof. reflexivity. Qed.

Example sentences_of_white_space : sentencesOf "   " = [].
Proof. reflexivity. Qed.

Lemma windowsFrom_eq (sentences : list string) (i : nat) :
  windowsFrom sentences i =
  if (i <? List.length sentences)%nat then
    let windowSentences := Str.slice sentences i (i + WINDOW_SIZE) in
    if (List.length windowSentences =? 0)%nat then []
    else
      windowSentences ::
        (if (List.length sentences <=? i + WINDOW_SIZE)%nat then []
         else windowsFrom sentences (i + STRIDE))
  else [].
Proof.
  rewrite windowsFrom_equation_1.
  destruct (inspect (i <? List.length sentences)%nat) as [[] e];
    simp windowsFrom; rewrite e; reflexivity.
Qed.

Lemma slice_window {A : Type} (xs : list A) (i : nat) :
  Str.slice xs i (i + WINDOW_SIZE) = firstn WINDOW_SIZE (skipn i xs).
Proof.
  unfold Str.slice. now rewrite Nat.add_comm, Nat.add_sub.
Qed.

Lemma in_firstn {A : Type} (n : nat) (xs : list A) (x : A) :
  In x (firstn n xs) -> In x xs.
Proof.
  intros H. rewrite <- (firstn_skipn n xs). apply in_or_app. now left.
Qed.

Lemma in_skipn {A : Type} (n : nat) (xs : list A) (x : A) :
  In x (skipn n xs) -> In x xs.
Proof.
  intros H. rewrite <- (firstn_skipn n xs). apply in_or_app. now right.
Qed.

Lemma in_slice {A : Type} (xs : list A) (i j : nat) (x : A) :
  In x (Str.slice xs i j) -> In x xs.
Proof.
  unfold Str.slice. intros H. eapply in_skipn, in_firstn, H.
Qed.

(** Every window holds at least one sentence, and only sentences. *)
Lemma windowsFrom_windows (sentences : list string) (i : nat) (w : list string) :
  In w (windowsFrom sentences i) ->
  w <> [] /\ forall s, In s w -> In s sentences.
Proof.
  remember (List.length sentences - i)%nat as n eqn:En.
  revert i En. induction n as [n IH] using lt_wf_ind. intros i En.
  rewrite windowsFrom_eq.
  destruct (i <? List.length sentences)%nat eqn:Hi; [|intros []].
  apply Nat.ltb_lt in Hi. cbv zeta.
  destruct (List.length (Str.slice sentences i (i + WINDOW_SIZE)) =? 0)%nat eqn:Hw;
    [intros []|].
  apply Nat.eqb_neq in Hw.
  intros [<-|Hin].
  - split.
    + intros E. rewrite E in Hw. now apply Hw.
    + intros s. apply in_slice.
  - destruct (List.length sentences <=? i + WINDOW_SIZE)%nat; [destruct Hin|].
    apply (IH (List.length sentences - (i + STRIDE))%nat) with (i := (i + STRIDE)%nat);
      [unfold STRIDE; lia|reflexivity|exact Hin].
Qed.

(** Every sentence from index [i] on lies in a window of the loop started
    at [i]. *)
Lemma windowsFrom_cover (sentences : list string) (i j : nat) (s : string) :
  (i <= j)%nat -> nth_error sentences j = Some s ->
  exists w, In w (windowsFrom sentences i) /\ In s w.
Proof.
  remember (List.length sentences - i)%nat as n eqn:En.
  revert i En. induction n as [n IH] using lt_wf_ind. intros i En Hij Hj.
  assert (Hlen : (j < List.length sentences)%nat).
  { apply nth_error_Some. rewrite Hj. discriminate. }
  rewrite windowsFrom_eq.
  destruct (i <? List.length sentences)%nat eqn:Hi;
    [|apply Nat.ltb_ge in Hi; lia].
  cbv zeta. rewrite slice_window.
  assert (Hfirst : forall k, (i <= k < i + WINDOW_SIZE)%nat ->
            nth_error sentences k = Some s ->
            In s (firstn WINDOW_SIZE (skipn i sentences))).
  { intros k Hk Hnth. apply nth_error_In with (n := (k - i)%nat).
    rewrite nth_error_firstn.
    destruct (k - i <? WINDOW_SIZE)%nat eqn:Hlt;
      [|apply Nat.ltb_ge in Hlt; lia].
    rewrite nth_error_skipn. replace (i + (k - i))%nat with k by lia. exact Hnth. }
  destruct (List.length (firstn WINDOW_SIZE (skipn i sentences)) =? 0)%nat eqn:Hw.
  { apply Nat.eqb_eq in Hw. rewrite length_firstn, length_skipn in Hw.
    unfold WINDOW_SIZE in Hw. apply Nat.ltb_lt in Hi. lia. }
  destruct (List.length sentences <=? i + WINDOW_SIZE)%nat eqn:Hend.
  - apply Nat.leb_le in Hend.
    eexists. split; [left; reflexivity|]. apply (Hfirst j); [lia|exact Hj].
  - apply Nat.leb_gt in Hend.
    destruct (Nat.eq_dec i j) as [->|Hne].
    + eexists. split; [left; reflexivity|].
      apply (Hfirst j); [unfold WINDOW_SIZE; lia|exact Hj].
    + destruct (IH (List.length sentences - (i + STRIDE))%nat) with (i := (i + STRIDE)%nat)
        as [w [Hin Hs]]; [unfold STRIDE; lia|reflexivity|unfold STRIDE; lia|exact Hj|].
      exists w. split; [right; exact Hin|exact Hs].
Qed.

(** With fewer sentences than a window holds, but at least one, the loop
    runs once and its window holds them all. *)
Lemma windowsFrom_short (sentences : list string) :
  (0 < List.length sentences < WINDOW_SIZE)%nat ->
  windowsFrom sentences 0 = [sentences].
Proof.
  intros [Hpos Hlt]. rewrite windowsFrom_eq, slice_window.
  destruct (0 <? List.length sentences)%nat eqn:H0;
    [|apply Nat.ltb_ge in H0; lia].
  cbv zeta. cbn [skipn]. rewrite firstn_all2 by lia.
  destruct (List.length sentences =? 0)%nat eqn:Hz;
    [apply Nat.eqb_eq in Hz; lia|].
  destruct (List.length sentences <=? 0 + WINDOW_SIZE)%nat eqn:Hend;
    [reflexivity|apply Nat.leb_gt in Hend; lia].
Qed.

Lemma windowsFrom_none (i : nat) : windowsFrom [] i = [].
Proof. rewrite windowsFrom_eq. reflexivity. Qed.

Lemma string_length_append (a b : string) :
  String.length (a ++ b) = (String.length a + String.length b)%nat.
Proof.
  induction a as [|c a IH]; simpl; [reflexivity|now rewrite IH].
Qed.

Lemma prefix_append (a b : string) : prefix a (a ++ b) = true.
Proof.
  induction a as [|c a IH]; simpl.
  - now destruct b.
  - destruct (ascii_dec c c) as [_|Hne]; [exact IH|now elim Hne].
Qed.

Lemma index_bound (n m : nat) (s t : string) :
  index n s t = Some m -> (m <= String.length t)%nat.
Proof.
  revert n m. induction t as [|c t IH]; intros n m.
  - simpl. destruct n; [|discriminate]. destruct s; [|discriminate].
    intros H. inversion H. lia.
  - cbn [index String.length]. destruct n.
    + destruct (prefix s (String c t)).
      * intros H. inversion H. lia.
      * destruct (index 0 s t) as [k|] eqn:E; [|discriminate].
        intros H. inversion H. apply IH in E. lia.
    + destruct (index n s t) as [k|] eqn:E; [|discriminate].
      intros H. inversion H. apply IH in E. lia.
Qed.

Lemma indexOf_bounds (text s : string) :
  (-1 <= Str.indexOf text s <= Z.of_nat (String.length text))%Z.
Proof.
  unfold Str.indexOf. destruct (index 0 s text) as [m|] eqn:E.
  - apply index_bound in E. lia.
  - lia.
Qed.

Lemma indexOf_prefix (a b : string) :
  a ++ b <> "" -> Str.indexOf (a ++ b) a = 0%Z.
Proof.
  unfold Str.indexOf. intros Hne.
  destruct (a ++ b) as [|c t] eqn:E; [now elim Hne|].
  cbn [index]. rewrite <- E, prefix_append. reflexivity.
Qed.

Lemma join_length_hd (sep : string) (w : list string) :
  (String.length (hd "" w) <= String.length (Str.join sep w))%nat.
Proof.
  unfold Str.join. destruct w as [|x [|y w]]; simpl; try lia.
  rewrite string_length_append. lia.
Qed.

Lemma join_prefix_hd (sep : string) (w : list string) :
  exists rest, Str.join sep w = hd "" w ++ rest.
Proof.
  unfold Str.join. destruct w as [|x [|y w]].
  - now exists "".
  - exists "". simpl. induction x as [|c x IH]; simpl; [reflexivity|now rewrite <- IH].
  - eexists. reflexivity.
Qed.

Lemma textLength_pos (text : string) : text <> "" -> 0 < textLength text.
Proof.
  intros Hne. unfold textLength. change 0 with (inject_Z 0).
  rewrite <- Zlt_Qlt. destruct text; [now elim Hne|simpl; lia].
Qed.

Lemma div_finite (a b : Q) : 0 < b -> JS.div a b = JS.Fin (a / b).
Proof.
  intros Hb. unfold JS.div. destruct (Qeq_bool b 0) eqn:E; [|reflexivity].
  apply Qeq_bool_eq in E. rewrite E in Hb. now apply Qlt_irrefl in Hb.
Qed.

Lemma Qdiv_le_compat (a b c : Q) : 0 < c -> a <= b -> a / c <= b / c.
Proof.
  intros Hc Hab. unfold Qdiv. apply Qmult_le_compat_r; [exact Hab|].
  apply Qinv_le_0_compat. now apply Qlt_le_weak.
Qed.

(** The ratios of the chunk of a window that starts with a non-empty
    sentence, in a non-empty text. *)
Lemma chunkOf_ratios (text : string) (w : list string) :
  text <> "" -> hd "" w <> "" ->
  let c := chunkOf text w in
  JS.le (JS.Fin 0) (Chunk.startRatio c) /\
  JS.le (Chunk.startRatio c) (Chunk.endRatio c) /\
  JS.le (Chunk.endRatio c) (JS.Fin 1).
Proof.
  intros Htext Hhd. unfold chunkOf. cbv zeta. cbn [Chunk.startRatio Chunk.endRatio].
  fold (textLength text).
  pose proof (textLength_pos Htext) as Hlen.
  rewrite !div_finite by exact Hlen. cbn [JS.max JS.min JS.le].
  pose proof (indexOf_bounds text (hd "" w)) as [Hlo Hhi].
  pose proof (join_length_hd " " w) as Hjoin.
  assert (Hw : (1 <= String.length (hd "" w))%nat).
  { destruct (hd "" w); [now elim Hhd|simpl; lia]. }
  set (off := Str.indexOf text (hd "" w)) in *.
  set (clen := Z.of_nat (String.length (Str.join " " w))) in *.
  assert (Hoff : inject_Z off / textLength text <= 1).
  { apply Qle_shift_div_r; [exact Hlen|]. rewrite Qmult_1_l.
    unfold textLength. rewrite <- Zle_Qle. exact Hhi. }
  assert (Hend : 0 <= inject_Z (off + clen) / textLength text).
  { apply Qle_shift_div_l; [exact Hlen|]. rewrite Qmult_0_l.
    change 0 with (inject_Z 0). rewrite <- Zle_Qle. lia. }
  assert (Hmono : inject_Z off / textLength text
                  <= inject_Z (off + clen) / textLength text).
  { apply Qdiv_le_compat; [exact Hlen|]. rewrite <- Zle_Qle. lia. }
  split; [apply Q.le_max_l|]. split; [|apply Q.le_min_l].
  apply Q.min_glb; apply Q.max_lub; try assumption. discriminate.
Qed.

Lemma sentencesOf_nonempty (text : string) :
  text <> "" -> Forall (fun s => s <> "") (sentencesOf text).
Proof.
  intros Htext. unfold sentencesOf.
  destruct (RegExp.matchAll false sentenceRegex text) as [ms|].
  - apply Forall_forall. intros s Hin. apply filter_In in Hin.
    destruct Hin as [_ Hlen]. intros ->. discriminate Hlen.
  - constructor; [exact Htext|constructor].
Qed.

(** For a non-empty text: the windows cover the sentences, none is empty,
    and the ratios of every chunk are ordered within the unit interval. *)
Lemma chunkTextWithWindow_sound (text : string) :
  text <> "" ->
  let windows := windowsFrom (sentencesOf text) 0 in
  (forall s, In s (sentencesOf text) -> exists w, In w windows /\ In s w) /\
  (forall w, In w windows -> w <> []) /\
  (forall c, In c (chunkTextWithWindow text) ->
     JS.le (JS.Fin 0) (Chunk.startRatio c) /\
     JS.le (Chunk.startRatio c) (Chunk.endRatio c) /\
     JS.le (Chunk.endRatio c) (JS.Fin 1)).
Proof.
  intros Htext windows. split; [|split].
  - intros s Hin. apply In_nth_error in Hin. destruct Hin as [j Hj].
    apply (windowsFrom_cover (sentencesOf text) (i := 0) (j := j)); [lia|exact Hj].
  - intros w Hin. now apply windowsFrom_windows in Hin.
  - intros c Hin. unfold chunkTextWithWindow in Hin. apply in_map_iff in Hin.
    destruct Hin as [w [<- Hw]]. apply windowsFrom_windows in Hw.
    destruct Hw as [Hne Hsub]. apply chunkOf_ratios; [exact Htext|].
    destruct w as [|s w]; [now elim Hne|]. simpl.
    pose proof (sentencesOf_nonempty Htext) as Hall.
    rewrite Forall_forall in Hall. apply Hall, Hsub. now left.
Qed.


(** C5, as stated, fails on the function: the chunk the chunker returns
    for the empty text has ratios that are not numbers, and these are not
    ordered: [startRatio <= endRatio] fails for it, while its window, of the
    one empty sentence, is not empty and covers that sentence. *)
Theorem chunkTextWithWindow_empty_text_ratios :
  windowsFrom (sentencesOf "") 0 = [[""]] /\
  exists c,
    In c (chunkTextWithWindow "") /\
    ~ JS.le (Chunk.startRatio c) (Chunk.endRatio c).
Proof.
  split; [reflexivity|].
  eexists. split; [left; reflexivity|]. simpl. intros [].
Qed.

(** C4, as stated, fails: a non-empty text of one sentence that starts with
    sentence punctuation gives one chunk that does not start at ratio 0, a
    text whose two sentences are two spaces apart gives one chunk that ends
    before ratio 1, and a text of white space gives no chunk. *)
Lemma short_text_ratios_counterexample :
  let claim (text : string) :=
    exists c,
      chunkTextWithWindow text = [c] /\
      JS.eq (Chunk.startRatio c) (JS.Fin 0) /\
      JS.eq (Chunk.endRatio c) (JS.Fin 1) in
  ("...and then" <> "" /\
   (List.length (sentencesOf "...and then") < WINDOW_SIZE)%nat /\
   ~ claim "...and then") /\
  ("Hello.  World" <> "" /\
   (List.length (sentencesOf "Hello.  World") < WINDOW_SIZE)%nat /\
   ~ claim "Hello.  World") /\
  ("   " <> "" /\
   (List.length (sentencesOf "   ") < WINDOW_SIZE)%nat /\
   ~ claim "   ").
Proof.
  intros claim. unfold claim. repeat split; try discriminate.
  - vm_compute. lia.
  - intros [c [Hc [Hs _]]]. vm_compute in Hc. inversion Hc; subst c.
    vm_compute in Hs. discriminate Hs.
  - vm_compute. lia.
  - intros [c [Hc [_ He]]]. vm_compute in Hc. inversion Hc; subst c.
    vm_compute in He. discriminate He.
  - vm_compute. lia.
  - intros [c [Hc _]]. vm_compute in Hc. discriminate Hc.
Qed.

Example chunk_five_sentences :
  map Chunk.text (chunkTextWithWindow "A. B. C. D. E.")
  = ["A. B. C."; "B. C. D."; "C. D. E."].
Proof. reflexivity. Qed.

(** ** Re-ranking *)

Lemma Qltb_true (a b : Q) : Qltb a b = true -> a < b.
Proof.
  unfold Qltb. intros H. apply negb_true_iff in H.
  apply Qnot_le_lt. intros Hle. apply Qle_bool_iff in Hle. congruence.
Qed.

Lemma Qltb_false (a b : Q) : Qltb a b = false -> b <= a.
Proof.
  unfold Qltb. intros H. apply negb_false_iff in H. now apply Qle_bool_iff.
Qed.

Section StringMapFacts.
Context {V : Type}.
Implicit Types (m : StringMap.t V) (k : string) (v : V).

Lemma get_Some_in k v m : StringMap.get k m = Some v -> In (k, v) m.
Proof.
  unfold StringMap.get. induction m as [|[k0 v0] m IH]; simpl; [discriminate|].
  destruct (String.eqb k0 k) eqn:E.
  - apply String.eqb_eq in E. subst k0. intros H. inversion H. now left.
  - intros H. right. now apply IH.
Qed.

Lemma get_None_notin k m : StringMap.get k m = None -> ~ In k (map fst m).
Proof.
  unfold StringMap.get. induction m as [|[k0 v0] m IH]; simpl; [tauto|].
  destruct (String.eqb k0 k) eqn:E; [discriminate|].
  apply String.eqb_neq in E. intros H [Hk|Hk]; [contradiction|now apply IH].
Qed.

Lemma set_in k v m k' v' :
  NoDup (map fst m) ->
  In (k', v') (StringMap.set k v m) ->
  (k' = k /\ v' = v) \/ (k' <> k /\ In (k', v') m).
Proof.
  induction m as [|[k0 v0] m IH]; simpl; intros Hnd.
  - intros [H|[]]. inversion H. now left.
  - inversion Hnd as [|? ? Hnotin Hnd']; subst.
    destruct (String.eqb k0 k) eqn:E.
    + apply String.eqb_eq in E. subst k0.
      intros [H|H]; [inversion H; now left|].
      right. split; [|now right].
      intros ->. apply Hnotin. now apply (in_map fst) in H.
    + apply String.eqb_neq in E.
      intros [H|H].
      * inversion H; subst. right. split; [exact E|now left].
      * destruct (IH Hnd' H) as [Hl|[Hne Hin]]; [now left|].
        right. split; [exact Hne|now right].
Qed.

Lemma set_keys k v m k' :
  In k' (map fst (StringMap.set k v m)) <-> k' = k \/ In k' (map fst m).
Proof.
  induction m as [|[k0 v0] m IH]; simpl.
  - intuition.
  - destruct (String.eqb k0 k) eqn:E; simpl.
    + apply String.eqb_eq in E. subst k0. intuition.
    + rewrite IH. intuition.
Qed.

Lemma set_NoDup k v m :
  NoDup (map fst m) -> NoDup (map fst (StringMap.set k v m)).
Proof.
  induction m as [|[k0 v0] m IH]; simpl; intros Hnd.
  - constructor; [intros []|constructor].
  - inversion Hnd as [|? ? Hnotin Hnd']; subst.
    destruct (String.eqb k0 k) eqn:E; simpl.
    + apply String.eqb_eq in E. subst k0. now constructor.
    + apply String.eqb_neq in E. constructor; [|now apply IH].
      rewrite set_keys. intros [Hk|Hk]; [now apply E|now apply Hnotin].
Qed.

Lemma NoDup_keys_functional k v1 v2 m :
  NoDup (map fst m) -> In (k, v1) m -> In (k, v2) m -> v1 = v2.
Proof.
  induction m as [|[k0 v0] m IH]; simpl; intros Hnd; [intros []|].
  inversion Hnd as [|? ? Hnotin Hnd']; subst.
  intros [H1|H1] [H2|H2].
  - congruence.
  - inversion H1; subst. elim Hnotin. now apply (in_map fst) in H2.
  - inversion H2; subst. elim Hnotin. now apply (in_map fst) in H1.
  - now apply IH.
Qed.

End StringMapFacts.

Lemma scored_step (intents : list string) (seen : list Hit.t)
  (m : StringMap.t (Result.t Q)) (hit : Hit.t) :
  scored intents seen m ->
  scored intents (seen ++ [hit]) (rerankStep intents m hit).
Proof.
  intros [Hkeys Hentries Hseen]. unfold rerankStep. cbv zeta.
  fold (hitSegmentId hit).
  set (k := hitSegmentId hit). set (f := finalScoreOf intents hit).
  assert (Hold : forall k' r', k' <> k -> In (k', r') m ->
                               entryOf intents (seen ++ [hit]) k' r').
  { intros k' r' Hne Hin. destruct (Hentries _ _ Hin) as [h0 [[Hin0 Hmax] [Hk0 Hr0]]].
    exists h0. repeat split; try assumption.
    - apply in_or_app. now left.
    - intros hit' Hin' Hseg. apply in_app_or in Hin'.
      destruct Hin' as [Hin'|[<-|[]]]; [now apply Hmax|].
      elim Hne. fold k in Hseg. congruence. }
  assert (Hnew : (forall hit', In hit' seen -> hitSegmentId hit' = k ->
                               finalScoreOf intents hit' <= f) ->
                 entryOf intents (seen ++ [hit]) k (resultOf (Hit.document hit) f)).
  { intros Hmax. exists hit. repeat split.
    - apply in_or_app. right. now left.
    - intros hit' Hin' Hseg. apply in_app_or in Hin'.
      destruct Hin' as [Hin'|[<-|[]]]; [now apply Hmax|apply Qle_refl]. }
  assert (Hset : forall v,
             (forall hit', In hit' seen -> hitSegmentId hit' = k ->
                           finalScoreOf intents hit' <= f) ->
             v = resultOf (Hit.document hit) f ->
             scored intents (seen ++ [hit]) (StringMap.set k v m)).
  { intros v Hmax ->. split.
    - now apply set_NoDup.
    - intros k' r' Hin. apply set_in in Hin; [|exact Hkeys].
      destruct Hin as [[-> ->]|[Hne Hin]]; [now apply Hnew|now apply Hold].
    - intros hit' Hin'. apply set_keys. apply in_app_or in Hin'.
      destruct Hin' as [Hin'|[<-|[]]]; [right; now apply Hseen|now left]. }
  destruct (StringMap.get k m) as [existing|] eqn:Hget.
  - apply get_Some_in in Hget.
    destruct (Hentries _ _ Hget) as [h0 [[Hin0 Hmax0] [Hk0 Hr0]]].
    assert (Hscore : Result.score existing = finalScoreOf intents h0)
      by (rewrite Hr0; reflexivity).
    destruct (Qltb (Result.score existing) f) eqn:Hlt.
    + apply Hset; [|reflexivity]. apply Qltb_true in Hlt.
      intros hit' Hin' Hseg. apply Qlt_le_weak.
      apply Qle_lt_trans with (y := finalScoreOf intents h0).
      * apply Hmax0; [exact Hin'|congruence].
      * now rewrite <- Hscore.
    + apply Qltb_false in Hlt. split.
      * exact Hkeys.
      * intros k' r' Hin. destruct (string_dec k' k) as [->|Hne]; [|now apply Hold].
        rewrite (NoDup_keys_functional k r' existing m Hkeys Hin Hget).
        exists h0. repeat split; try assumption.
        -- apply in_or_app. now left.
        -- intros hit' Hin' Hseg. apply in_app_or in Hin'.
           destruct Hin' as [Hin'|[<-|[]]]; [now apply Hmax0|].
           now rewrite <- Hscore.
      * intros hit' Hin'. apply in_app_or in Hin'.
        destruct Hin' as [Hin'|[<-|[]]]; [now apply Hseen|].
        now apply (in_map fst) in Hget.
  - apply Hset; [|reflexivity]. apply get_None_notin in Hget.
    intros hit' Hin' Hseg. elim Hget. rewrite <- Hseg. now apply Hseen.
Qed.

Lemma scored_fold (intents : list string) (hits seen : list Hit.t)
  (m : StringMap.t (Result.t Q)) :
  scored intents seen m ->
  scored intents (seen ++ hits) (fold_left (rerankStep intents) hits m).
Proof.
  revert seen m. induction hits as [|hit hits IH]; intros seen m Hm; simpl.
  - now rewrite app_nil_r.
  - replace (seen ++ hit :: hits)%list with ((seen ++ [hit]) ++ hits)%list
      by (now rewrite <- app_assoc).
    apply IH. now apply scored_step.
Qed.

Lemma scored_all (intents : list string) (hits : list Hit.t) :
  scored intents hits (fold_left (rerankStep intents) hits []).
Proof.
  apply (@scored_fold intents hits [] []).
  split; simpl; [constructor|intros _ _ []|intros _ []].
Qed.

(** *** Sorting and truncation *)

Lemma insertByScore_perm (r : Result.t Q) (sorted : list (Result.t Q)) :
  Permutation (insertByScore r sorted) (r :: sorted).
Proof.
  induction sorted as [|r' rest IH]; simpl; [reflexivity|].
  destruct (Qltb (Result.score r) (Result.score r')); [|reflexivity].
  rewrite IH. apply perm_swap.
Qed.

Lemma sortByScore_perm (results : list (Result.t Q)) :
  Permutation (sortByScore results) results.
Proof.
  induction results as [|r results IH]; simpl; [reflexivity|].
  rewrite insertByScore_perm. now constructor.
Qed.

Lemma insertByScore_sorted (r : Result.t Q) (sorted : list (Result.t Q)) :
  StronglySorted byDecreasingScore sorted ->
  StronglySorted byDecreasingScore (insertByScore r sorted).
Proof.
  induction 1 as [|r' rest Hrest IH Hall]; simpl.
  - constructor; constructor.
  - destruct (Qltb (Result.score r) (Result.score r')) eqn:Hlt.
    + apply Qltb_true in Hlt. constructor; [exact IH|].
      apply Forall_forall. intros x Hx.
      apply (Permutation_in _ (insertByScore_perm r rest)) in Hx.
      destruct Hx as [<-|Hx].
      * now apply Qlt_le_weak.
      * rewrite Forall_forall in Hall. now apply Hall.
    + apply Qltb_false in Hlt. constructor; [now constructor|].
      constructor; [exact Hlt|].
      apply Forall_forall. intros x Hx. rewrite Forall_forall in Hall.
      unfold byDecreasingScore in *. apply Qle_trans with (y := Result.score r').
      * now apply Hall.
      * exact Hlt.
Qed.

Lemma sortByScore_sorted (results : list (Result.t Q)) :
  StronglySorted byDecreasingScore (sortByScore results).
Proof.
  induction results as [|r results IH]; simpl; [constructor|].
  now apply insertByScore_sorted.
Qed.

(** Equal scores keep their order: the sort is stable. *)
Example sortByScore_stable :
  let r (name : string) (score : Q) :=
    {| Result.segment := Segment.make name "" 0 0; Result.score := score |} in
  map (fun x => Segment.id (Result.segment x))
    (sortByScore [r "a" (1 # 2); r "b" 1; r "c" (1 # 2); r "d" 1])
  = ["b"; "d"; "a"; "c"].
Proof. reflexivity. Qed.

Lemma sliceTo_firstn {A : Type} (limit : Z) (xs : list A) :
  exists n, sliceTo limit xs = firstn n xs.
Proof. unfold sliceTo. eexists. reflexivity. Qed.

Lemma sliceTo_nil {A : Type} (limit : Z) : sliceTo limit (@nil A) = [].
Proof. unfold sliceTo. now rewrite firstn_nil. Qed.

Lemma firstn_StronglySorted {A : Type} (R : A -> A -> Prop) (n : nat) (xs : list A) :
  StronglySorted R xs -> StronglySorted R (firstn n xs).
Proof.
  intros H. revert n. induction H as [|x xs Hxs IH Hall]; intros n.
  - rewrite firstn_nil. constructor.
  - destruct n; simpl; constructor; [apply IH|].
    apply Forall_forall. intros y Hy. rewrite Forall_forall in Hall.
    apply Hall. eapply in_firstn, Hy.
Qed.

Lemma firstn_NoDup {A : Type} (n : nat) (xs : list A) :
  NoDup xs -> NoDup (firstn n xs).
Proof.
  intros H. rewrite <- (firstn_skipn n xs) in H.
  now apply NoDup_app_remove_r in H.
Qed.

(** The ranked results: one per segment, each made of a best passage of
    its segment, by decreasing score. *)
Lemma rankedResults_spec (intents : list string) (hits : list Hit.t) (limit : Z) :
  let results := rankedResults intents hits limit in
  NoDup (map (@segmentIdOf Q) results) /\
  StronglySorted byDecreasingScore results /\
  forall r, In r results ->
    exists hit,
      bestOfSegment intents hits hit /\
      r = resultOf (Hit.document hit) (finalScoreOf intents hit).
Proof.
  intros results. unfold results, rankedResults. cbv zeta.
  destruct (scored_all intents hits) as [Hkeys Hentries _].
  set (m := fold_left (rerankStep intents) hits []) in *.
  destruct (sliceTo_firstn limit (sortByScore (StringMap.values m))) as [n ->].
  assert (Hids : map (@segmentIdOf Q) (StringMap.values m) = map fst m).
  { unfold StringMap.values. rewrite map_map. apply map_ext_in.
    intros [k r] Hin. destruct (Hentries _ _ Hin) as [hit [_ [-> ->]]]. reflexivity. }
  split; [|split].
  - rewrite <- firstn_map. apply firstn_NoDup.
    apply (Permutation_NoDup (l := map (@segmentIdOf Q) (StringMap.values m))).
    + apply Permutation_map. symmetry. apply sortByScore_perm.
    + now rewrite Hids.
  - apply firstn_StronglySorted, sortByScore_sorted.
  - intros r Hin. apply in_firstn in Hin.
    apply (Permutation_in _ (sortByScore_perm _)) in Hin.
    unfold StringMap.values in Hin. apply in_map_iff in Hin.
    destruct Hin as [[k r'] [<- Hin]]. simpl.
    destruct (Hentries _ _ Hin) as [hit [Hbest [_ ->]]]. now exists hit.
Qed.

(** *** Normalization *)

Lemma normalizeScores_segments (results : list (Result.t Q)) :
  map (@Result.segment JS.number) (normalizeScores results)
  = map (@Result.segment Q) results.
Proof.
  unfold normalizeScores. destruct results as [|r0 rest]; [reflexivity|].
  rewrite map_map. reflexivity.
Qed.

Lemma normalizeScores_In (results : list (Result.t Q)) (n : Result.t JS.number) :
  In n (normalizeScores results) ->
  exists r, In r results /\ Result.segment n = Result.segment r.
Proof.
  unfold normalizeScores. destruct results as [|r0 rest]; [intros []|].
  intros Hin. apply in_map_iff in Hin. destruct Hin as [r [<- Hr]].
  now exists r.
Qed.

Lemma normalizeScore_below_cap (maxScore : Q) (r : Result.t Q) :
  0 < maxScore -> Result.score r <= maxScore ->
  Result.score (normalizeScore maxScore r)
  = JS.Fin (Qmin (Result.score r / (maxScore * (11 # 10))) (99 # 100)) /\
  Result.score r / (maxScore * (11 # 10)) <= 10 # 11.
Proof.
  intros Hpos Hle.
  assert (Hden : 0 < maxScore * (11 # 10)) by lra.
  split.
  - unfold normalizeScore. cbn [Result.score]. now rewrite div_finite.
  - apply Qle_shift_div_r; [exact Hden|]. lra.
Qed.

Lemma sorted_head_max (top : Result.t Q) (rest : list (Result.t Q)) (r : Result.t Q) :
  StronglySorted byDecreasingScore (top :: rest) -> In r (top :: rest) ->
  Result.score r <= Result.score top.
Proof.
  intros Hs [<-|Hin]; [apply Qle_refl|].
  inversion Hs as [|? ? _ Hall]; subst. rewrite Forall_forall in Hall.
  now apply Hall.
Qed.

(** With a positive top score and no negative score, the normalized scores
    lie in the unit interval, the right end excluded, and keep the order of
    the raw scores. *)
Lemma normalizeScores_positive_top (top : Result.t Q) (rest : list (Result.t Q)) :
  StronglySorted byDecreasingScore (top :: rest) ->
  0 < Result.score top ->
  (forall r, In r (top :: rest) -> 0 <= Result.score r) ->
  (forall n, In n (normalizeScores (top :: rest)) ->
     JS.le (JS.Fin 0) (Result.score n) /\ JS.lt (Result.score n) (JS.Fin 1)) /\
  (forall a b, In a (top :: rest) -> In b (top :: rest) ->
     Result.score a <= Result.score b ->
     JS.le (Result.score (normalizeScore (Result.score top) a))
           (Result.score (normalizeScore (Result.score top) b))).
Proof.
  intros Hsorted Hpos Hnonneg.
  assert (Hden : 0 < Result.score top * (11 # 10)) by lra.
  assert (Hscore : forall r, In r (top :: rest) ->
            Result.score (normalizeScore (Result.score top) r)
            = JS.Fin (Qmin (Result.score r / (Result.score top * (11 # 10))) (99 # 100))).
  { intros r Hin. apply normalizeScore_below_cap; [exact Hpos|].
    now apply (sorted_head_max Hsorted). }
  split.
  - intros n Hin. unfold normalizeScores in Hin. apply in_map_iff in Hin.
    destruct Hin as [r [<- Hr]]. rewrite (Hscore r Hr). cbn [JS.le JS.lt]. split.
    + apply Q.min_glb; [|discriminate].
      apply Qle_shift_div_l; [exact Hden|]. rewrite Qmult_0_l. now apply Hnonneg.
    + apply Qle_lt_trans with (y := 99 # 100); [apply Q.le_min_r|reflexivity].
  - intros a b Ha Hb Hab. rewrite (Hscore a Ha), (Hscore b Hb). cbn [JS.le].
    apply Q.min_le_compat_r. now apply Qdiv_le_compat.
Qed.

(** ** The search operation *)

Lemma semanticSearch_results (Orama : Type)
  (search : Orama -> Query.t -> outcome (list Hit.t)) (st : State Orama)
  (query : string) (limit : Z) (results : list (Result.t JS.number)) (q : string) :
  In (PostMessage (SearchResults results q)) (semanticSearch search st query limit) ->
  exists embedder db queryVector hits,
    embedderPipeline st = Some embedder /\
    oramaDb st = Some db /\
    embedder query = Returns queryVector /\
    search db (hybridQuery query queryVector) = Returns hits /\
    results = normalizeScores (rankedResults (detectQuestionIntent query) hits limit) /\
    q = query.
Proof.
  unfold semanticSearch, tryCatch, bind, call, emit, throw.
  destruct (embedderPipeline st) as [embedder|];
    [|destruct (oramaDb st); simpl; intros [H|[]]; discriminate H].
  destruct (oramaDb st) as [db|]; [|simpl; intros [H|[]]; discriminate H].
  destruct (embedder query) as [queryVector|e] eqn:Hembed;
    [|simpl; intros [H|[H|[]]]; discriminate H].
  destruct (search db (hybridQuery query queryVector)) as [hits|e] eqn:Hsearch;
    [|simpl; intros [H|[H|[H|[]]]]; discriminate H].
  simpl. intros [H|[H|[H|[]]]]; try discriminate H.
  inversion H; subst. exists embedder, db, queryVector, hits. tauto.
Qed.

(** C1: a result list whose top score is zero, as of one hit of score zero
    for a query without intent, is not normalized: the division is [0 / 0],
    the score the search posts is [NaN], which is neither below 1 nor at
    least 0. *)
Theorem zero_top_score_not_normalized :
  let query := "Does intuition require proof?" in
  let results :=
    normalizeScores (rankedResults (detectQuestionIntent query) [Sample.zeroHit] 10) in
  0 <= Hit.score Sample.zeroHit /\
  semanticSearch Sample.engine (Sample.ready [Sample.zeroHit]) query 10
  = [ Embed query; Search (hybridQuery query [1]);
      PostMessage (SearchResults results query) ] /\
  results
  = [ {| Result.segment := segmentOf (Hit.document Sample.zeroHit);
         Result.score := JS.NaN |} ] /\
  forall n, In n results ->
    ~ JS.lt (Result.score n) (JS.Fin 1) /\ ~ JS.le (JS.Fin 0) (Result.score n).
Proof.
  intros query results.
  assert (Hresults : results
            = [ {| Result.segment := segmentOf (Hit.document Sample.zeroHit);
                   Result.score := JS.NaN |} ])
    by (vm_compute; reflexivity).
  split; [discriminate|]. split; [reflexivity|]. split; [exact Hresults|].
  rewrite Hresults. intros n [<-|[]]. simpl. tauto.
Qed.

(** The search is issued as soon as the models are loaded and the query is
    embedded. *)
Lemma hybrid_query_issued (Orama : Type)
  (search : Orama -> Query.t -> outcome (list Hit.t)) (st : State Orama)
  (query : string) (limit : Z) embedder db queryVector :
  embedderPipeline st = Some embedder ->
  oramaDb st = Some db ->
  embedder query = Returns queryVector ->
  exists rest,
    semanticSearch search st query limit
    = Embed query :: Search (hybridQuery query queryVector) :: rest.
Proof.
  intros Hembedder Hdb Hvector.
  unfold semanticSearch, tryCatch, bind, call, emit, throw.
  rewrite Hembedder, Hdb, Hvector.
  destruct (search db (hybridQuery query queryVector)); simpl; eexists; reflexivity.
Qed.

(** C9: when the models are loaded, the query is embedded and the index
    engine answers the hybrid query with no hit, as it does on an index
    without passages, the search posts an empty result list and no error. *)
Theorem search_without_hits (Orama : Type)
  (search : Orama -> Query.t -> outcome (list Hit.t)) (st : State Orama)
  (query : string) (limit : Z) embedder db queryVector :
  embedderPipeline st = Some embedder ->
  oramaDb st = Some db ->
  embedder query = Returns queryVector ->
  search db (hybridQuery query queryVector) = Returns [] ->
  semanticSearch search st query limit
  = [ Embed query; Search (hybridQuery query queryVector);
      PostMessage (SearchResults [] query) ] /\
  forall message operation,
    ~ In (PostMessage (Error message operation))
         (semanticSearch search st query limit).
Proof.
  intros Hembedder Hdb Hvector Hhits.
  assert (Hevents : semanticSearch search st query limit
            = [ Embed query; Search (hybridQuery query queryVector);
                PostMessage (SearchResults [] query) ]).
  { unfold semanticSearch, tryCatch, bind, call, emit, throw.
    rewrite Hembedder, Hdb, Hvector, Hhits.
    unfold rankedResults. cbn [fold_left StringMap.values map sortByScore fold_right].
    rewrite sliceTo_nil. reflexivity. }
  split; [exact Hevents|].
  rewrite Hevents. intros message operation [H|[H|[H|[]]]]; discriminate H.
Qed.

Lemma search_without_hits_witness :
  semanticSearch Sample.engine (Sample.ready []) "intuition" 10
  = [ Embed "intuition"; Search (hybridQuery "intuition" [1]);
      PostMessage (SearchResults [] "intuition") ].
Proof.
  refine (proj1 (@search_without_hits _ Sample.engine (Sample.ready []) "intuition" 10
                   (fun _ => Returns [1]) [] [1] _ _ _ _)); reflexivity.
Defined.

(** Without loaded models the search posts the error of the [search]
    operation. *)
Example search_models_not_ready :
  semanticSearch Sample.engine
    {| embedderPipeline := None; oramaDb := Some Sample.hits |} "intuition" 10
  = [ PostMessage (Error "Models not ready" "search") ].
Proof. reflexivity. Qed.

(** * Further properties *)

(** Membership in a list that has been computed. *)
Ltac findIn := repeat (first [left; reflexivity | right]).

(** ** Transcription and indexing *)

Section IndexingFacts.

Variable Orama : Type.
Variable generateId : nat -> string.
Variable insertMultiple : Orama -> list Doc.t -> outcome unit.
Variable embedder : string -> outcome (list Q).

Lemma embedChunks_returns (segment : Segment.t) (chunks : list Chunk.t) :
  forall j docs effects docs',
    embedChunks embedder segment j chunks docs = (effects, Returns docs') ->
    docs' = (docs ++ flat_map (documentsOfChunk embedder segment) (indexed j chunks))%list /\
    (forall chunk, In chunk chunks ->
       exists v, embedder (Chunk.text chunk) = Returns v) /\
    Forall isIndexingEffect effects.
Proof.
  induction chunks as [|chunk rest IH]; intros j docs effects docs'.
  - simpl. unfold Tr.ret. intros H. inversion H; subst.
    rewrite app_nil_r. repeat split; [intros ? []|constructor].
  - cbn [embedChunks]. unfold Tr.bind, Tr.call.
    destruct (embedder (Chunk.text chunk)) as [v|e] eqn:Hv; [|discriminate].
    unfold indexed. cbn [List.length seq combine flat_map].
    unfold documentsOfChunk at 1. cbn [fst snd]. rewrite Hv.
    destruct (List.length v =? EMBEDDING_DIM)%nat;
      match goal with
      | |- context [embedChunks embedder segment (S j) rest ?d] =>
          destruct (embedChunks embedder segment (S j) rest d)
            as [effects0 [docs0|e0]] eqn:Hrec
      end;
      intros H; inversion H; subst;
      destruct (IH _ _ _ _ Hrec) as [Hdocs [Hall Heff]];
      (split; [|split]).
    + rewrite Hdocs. unfold indexed. now rewrite <- app_assoc.
    + intros c [<-|Hc]; [now exists v|now apply Hall].
    + constructor; [exact I|exact Heff].
    + exact Hdocs.
    + intros c [<-|Hc]; [now exists v|now apply Hall].
    + constructor; [exact I|exact Heff].
Qed.

Lemma embedChunks_throws (segment : Segment.t) (chunks : list Chunk.t) :
  forall j docs effects e,
    embedChunks embedder segment j chunks docs = (effects, Throws e) ->
    (exists chunk, In chunk chunks /\ embedder (Chunk.text chunk) = Throws e) /\
    Forall isIndexingEffect effects.
Proof.
  induction chunks as [|chunk rest IH]; intros j docs effects e.
  - simpl. discriminate.
  - cbn [embedChunks]. unfold Tr.bind, Tr.call.
    destruct (embedder (Chunk.text chunk)) as [v|e'] eqn:Hv.
    + destruct (List.length v =? EMBEDDING_DIM)%nat;
        match goal with
        | |- context [embedChunks embedder segment (S j) rest ?d] =>
            destruct (embedChunks embedder segment (S j) rest d)
              as [effects0 [docs0|e0]] eqn:Hrec
        end;
        intros H; inversion H; subst;
        destruct (IH _ _ _ _ Hrec) as [[c [Hc Hthrow]] Heff];
        (split; [exists c; split; [now right|exact Hthrow]|]);
        (constructor; [exact I|exact Heff]).
    + intros H. inversion H; subst. split.
      * exists chunk. split; [now left|exact Hv].
      * constructor; [exact I|constructor].
Qed.

Lemma embeddingProgress_range (i total : nat) :
  (i < total)%nat -> isIndexingEffect (Post (embeddingProgress i total)).
Proof.
  intros Hlt. unfold embeddingProgress, isIndexingEffect. split; [reflexivity|].
  assert (Htotal : 0 < inject_Z (Z.of_nat total)).
  { change 0 with (inject_Z 0). rewrite <- Zlt_Qlt. lia. }
  assert (Hlo : 0 <= inject_Z (Z.of_nat i) / inject_Z (Z.of_nat total)).
  { apply Qle_shift_div_l; [exact Htotal|]. rewrite Qmult_0_l.
    change 0 with (inject_Z 0). rewrite <- Zle_Qle. lia. }
  assert (Hhi : inject_Z (Z.of_nat i) / inject_Z (Z.of_nat total) < 1).
  { apply Qlt_shift_div_r; [exact Htotal|]. rewrite Qmult_1_l.
    rewrite <- Zlt_Qlt. lia. }
  split; lra.
Qed.

Lemma indexSegments_returns (total : nat) (segments : list Segment.t) :
  forall i docs effects docs',
    (i + List.length segments <= total)%nat ->
    indexSegments embedder total i segments docs = (effects, Returns docs') ->
    docs' = (docs ++ flat_map (documentsOfSegment embedder) segments)%list /\
    (forall segment chunk,
       In segment segments ->
       In chunk (chunkTextWithWindow (Segment.text segment)) ->
       exists v, embedder (Chunk.text chunk) = Returns v) /\
    Forall isIndexingEffect effects.
Proof.
  induction segments as [|segment rest IH]; intros i docs effects docs' Hle.
  - simpl. unfold Tr.ret. intros H. inversion H; subst.
    rewrite app_nil_r. repeat split; [intros ? ? []|constructor].
  - cbn [indexSegments]. unfold Tr.bind at 1.
    destruct (embedChunks embedder segment 0
                (chunkTextWithWindow (Segment.text segment)) docs)
      as [effects1 [docs1|e1]] eqn:Hchunks; [|discriminate].
    apply embedChunks_returns in Hchunks. destruct Hchunks as [Hdocs1 [Hall1 Heff1]].
    set (post := if (i mod 5 =? 0)%nat
                 then Tr.emit (Post (embeddingProgress i total)) else Tr.ret tt).
    assert (Hpost : exists effects2, post = (effects2, Returns tt) /\
                                     Forall isIndexingEffect effects2).
    { unfold post. destruct (i mod 5 =? 0)%nat.
      - eexists. split; [reflexivity|]. constructor; [|constructor].
        apply embeddingProgress_range. simpl in Hle. lia.
      - eexists. split; [reflexivity|]. constructor. }
    destruct Hpost as [effects2 [-> Heff2]]. unfold Tr.bind.
    destruct (indexSegments embedder total (S i) rest docs1)
      as [effects3 [docs3|e3]] eqn:Hrest; intros H; inversion H; subst.
    apply IH in Hrest; [|simpl in Hle; lia].
    destruct Hrest as [Hdocs3 [Hall3 Heff3]]. split; [|split].
    + rewrite Hdocs3. cbn [flat_map]. unfold documentsOfSegment at 2.
      now rewrite <- app_assoc.
    + intros s c [<-|Hs] Hc; [now apply Hall1|now apply (Hall3 s)].
    + apply Forall_app. split; [exact Heff1|]. apply Forall_app. now split.
Qed.

Lemma indexSegments_throws (total : nat) (segments : list Segment.t) :
  forall i docs effects e,
    (i + List.length segments <= total)%nat ->
    indexSegments embedder total i segments docs = (effects, Throws e) ->
    (exists segment chunk,
       In segment segments /\
       In chunk (chunkTextWithWindow (Segment.text segment)) /\
       embedder (Chunk.text chunk) = Throws e) /\
    Forall isIndexingEffect effects.
Proof.
  induction segments as [|segment rest IH]; intros i docs effects e Hle.
  - simpl. discriminate.
  - cbn [indexSegments]. unfold Tr.bind at 1.
    destruct (embedChunks embedder segment 0
                (chunkTextWithWindow (Segment.text segment)) docs)
      as [effects1 [docs1|e1]] eqn:Hchunks.
    + apply embedChunks_returns in Hchunks. destruct Hchunks as [_ [_ Heff1]].
      set (post := if (i mod 5 =? 0)%nat
                   then Tr.emit (Post (embeddingProgress i total)) else Tr.ret tt).
      assert (Hpost : exists effects2, post = (effects2, Returns tt) /\
                                       Forall isIndexingEffect effects2).
      { unfold post. destruct (i mod 5 =? 0)%nat.
        - eexists. split; [reflexivity|]. constructor; [|constructor].
          apply embeddingProgress_range. simpl in Hle. lia.
        - eexists. split; [reflexivity|]. constructor. }
      destruct Hpost as [effects2 [-> Heff2]]. unfold Tr.bind.
      destruct (indexSegments embedder total (S i) rest docs1)
        as [effects3 [docs3|e3]] eqn:Hrest; intros H; inversion H; subst.
      apply IH in Hrest; [|simpl in Hle; lia].
      destruct Hrest as [[s [c [Hs [Hc Hthrow]]]] Heff3]. split.
      * exists s, c. split; [now right|]. now split.
      * apply Forall_app. split; [exact Heff1|]. apply Forall_app. now split.
    + intros H. inversion H; subst.
      apply embedChunks_throws in Hchunks. destruct Hchunks as [[c [Hc Hthrow]] Heff1].
      split; [|exact Heff1]. exists segment, c. split; [now left|]. now split.
Qed.

End IndexingFacts.

Lemma transcribeAudio_run (Orama : Type) (generateId : nat -> string)
  (insertMultiple : Orama -> list Doc.t -> outcome unit)
  (m : Models Orama) (audioSamples : list Q) (duration : Q) :
  transcription generateId insertMultiple m audioSamples duration
    (transcribeAudio generateId insertMultiple m audioSamples duration).
Proof.
  unfold transcribeAudio, Tr.tryCatch.
  destruct (asrPipeline m) as [asr|] eqn:Hasr;
    [|apply ModelsNotLoaded; now left].
  destruct (embedderPipeline (searchState m)) as [embedder|] eqn:Hemb;
    [|apply ModelsNotLoaded; right; now left].
  destruct (oramaDb (searchState m)) as [db|] eqn:Hdb;
    [|apply ModelsNotLoaded; right; now right].
  unfold Tr.bind at 1, Tr.call at 1.
  destruct (asr audioSamples) as [out|e] eqn:Hout;
    [|eapply AsrFailed; eassumption].
  cbv zeta. unfold Tr.bind at 1.
  destruct (indexSegments embedder (List.length (collectSegments generateId out)) 0
              (collectSegments generateId out) [])
    as [effects [documents|e]] eqn:Hindex.
  - apply indexSegments_returns in Hindex; [|simpl; lia].
    destruct Hindex as [Hdocs [Hall Heff]]. simpl in Hdocs.
    unfold Tr.bind, Tr.call, Tr.emit.
    destruct (insertMultiple db documents) as [[]|e] eqn:Hins; cbn [fst];
      rewrite <- ?app_assoc; cbn [app];
      (eapply Inserted; try eassumption); now rewrite Hins.
  - apply indexSegments_throws in Hindex; [|simpl; lia].
    destruct Hindex as [[segment [chunk [Hs [Hc Hthrow]]]] Heff].
    cbn [fst app Tr.emit].
    eapply EmbedderFailed; eassumption.
Qed.

Lemma in_indexed {A : Type} (xs : list A) :
  forall k j x, In (j, x) (indexed k xs) ->
                (k <= j)%nat /\ nth_error xs (j - k) = Some x.
Proof.
  unfold indexed. induction xs as [|y xs IH]; intros k j x; simpl; [intros []|].
  intros [H|H].
  - inversion H; subst. rewrite Nat.sub_diag. now split.
  - apply IH in H. destruct H as [Hle Hnth]. split; [lia|].
    replace (j - k)%nat with (S (j - S k)) by lia. exact Hnth.
Qed.

Lemma indexed_keys {A : Type} (xs : list A) (k : nat) :
  map fst (indexed k xs) = seq k (List.length xs).
Proof.
  unfold indexed. revert k. induction xs as [|y xs IH]; intros k; simpl;
    [reflexivity|now rewrite IH].
Qed.

Lemma segmentOf_documentOf (segment : Segment.t) (j : nat) (chunk : Chunk.t)
  (embedding : list Q) :
  segmentOf (documentOf segment j chunk embedding) = segment.
Proof. now destruct segment. Qed.

(** The documents of a segment: one for each chunk whose embedding has the
    dimension of the index. *)
Lemma documentsOfSegment_spec (embedder : string -> outcome (list Q))
  (segment : Segment.t) (d : Doc.t) :
  In d (documentsOfSegment embedder segment) ->
  exists j chunk,
    nth_error (chunkTextWithWindow (Segment.text segment)) j = Some chunk /\
    embedder (Chunk.text chunk) = Returns (Doc.embedding d) /\
    List.length (Doc.embedding d) = EMBEDDING_DIM /\
    d = documentOf segment j chunk (Doc.embedding d).
Proof.
  unfold documentsOfSegment. intros Hin. apply in_flat_map in Hin.
  destruct Hin as [[j chunk] [Hjc Hd]]. apply in_indexed in Hjc.
  destruct Hjc as [_ Hnth]. rewrite Nat.sub_0_r in Hnth.
  unfold documentsOfChunk in Hd. cbn [fst snd] in Hd.
  destruct (embedder (Chunk.text chunk)) as [v|e] eqn:Hv; [|destruct Hd].
  destruct (List.length v =? EMBEDDING_DIM)%nat eqn:Hlen; [|destruct Hd].
  destruct Hd as [<-|[]]. apply Nat.eqb_eq in Hlen.
  exists j, chunk. repeat split; assumption.
Qed.

Lemma transcribeAudio_inserted (Orama : Type) (generateId : nat -> string)
  (insertMultiple : Orama -> list Doc.t -> outcome unit)
  (m : Models Orama) (audioSamples : list Q) (duration : Q) (documents : list Doc.t) :
  In (InsertMultiple documents)
     (transcribeAudio generateId insertMultiple m audioSamples duration) ->
  exists asr embedder db out,
    asrPipeline m = Some asr /\
    embedderPipeline (searchState m) = Some embedder /\
    oramaDb (searchState m) = Some db /\
    asr audioSamples = Returns out /\
    documents
    = flat_map (documentsOfSegment embedder) (collectSegments generateId out) /\
    forall segment chunk,
      In segment (collectSegments generateId out) ->
      In chunk (chunkTextWithWindow (Segment.text segment)) ->
      exists v, embedder (Chunk.text chunk) = Returns v.
Proof.
  intros Hin.
  destruct (transcribeAudio_run generateId insertMultiple m audioSamples duration)
    as [Hnone|asr embedder db e Hasr Hemb Hdb Hout
        |asr embedder db out effects e segment chunk Hasr Hemb Hdb Hout Heff Hs Hc Hthrow
        |asr embedder db out effects docs last Hasr Hemb Hdb Hout Heff Hall Hdocs Hlast].
  - destruct Hin as [H|[]]; discriminate H.
  - destruct Hin as [H|[H|[]]]; discriminate H.
  - destruct Hin as [H|Hin]; [discriminate H|]. apply in_app_or in Hin.
    destruct Hin as [Hin|[H|[]]]; [|discriminate H].
    rewrite Forall_forall in Heff. apply Heff in Hin. destruct Hin.
  - destruct Hin as [H|Hin]; [discriminate H|]. apply in_app_or in Hin.
    destruct Hin as [Hin|[H|[H|[]]]].
    + rewrite Forall_forall in Heff. apply Heff in Hin. destruct Hin.
    + inversion H; subst. exists asr, embedder, db, out.
      repeat split; try assumption; reflexivity.
    + destruct (insertMultiple db docs); rewrite Hlast in H; discriminate H.
Qed.

(** X1: every document that [transcribeAudio] hands to [insertMultiple]
    carries an embedding of [EMBEDDING_DIM] numbers, and this embedding is
    what the embedder of the worker answers for the text of the document. *)
Theorem indexed_documents_have_embeddings (Orama : Type)
  (generateId : nat -> string)
  (insertMultiple : Orama -> list Doc.t -> outcome unit)
  (m : Models Orama) (audioSamples : list Q) (duration : Q)
  (documents : list Doc.t) (d : Doc.t) :
  In (InsertMultiple documents)
     (transcribeAudio generateId insertMultiple m audioSamples duration) ->
  In d documents ->
  List.length (Doc.embedding d) = EMBEDDING_DIM /\
  exists embedder,
    embedderPipeline (searchState m) = Some embedder /\
    embedder (Doc.text d) = Returns (Doc.embedding d).
Proof.
  intros Hins Hd. apply transcribeAudio_inserted in Hins.
  destruct Hins as [asr [embedder [db [out [_ [Hemb [_ [_ [-> _]]]]]]]]].
  apply in_flat_map in Hd. destruct Hd as [segment [_ Hd]].
  apply documentsOfSegment_spec in Hd.
  destruct Hd as [j [chunk [_ [Hv [Hlen Hdoc]]]]].
  split; [exact Hlen|]. exists embedder. split; [exact Hemb|].
  rewrite Hdoc at 1. exact Hv.
Qed.

Lemma indexed_documents_have_embeddings_witness :
  In (InsertMultiple SampleAudio.documents) SampleIndex.trace /\
  In SampleIndex.second SampleAudio.documents /\
  Doc.id SampleIndex.second = "seg_0_1" /\
  List.length (Doc.embedding SampleIndex.second) = EMBEDDING_DIM /\
  exists embedder,
    embedderPipeline (searchState (SampleAudio.models SampleAudio.embedder))
    = Some embedder /\
    embedder (Doc.text SampleIndex.second) = Returns (Doc.embedding SampleIndex.second).
Proof.
  assert (Hinserted : In (InsertMultiple SampleAudio.documents) SampleIndex.trace)
    by (vm_compute; findIn).
  assert (Hsecond : In SampleIndex.second SampleAudio.documents)
    by (vm_compute; findIn).
  split; [exact Hinserted|]. split; [exact Hsecond|].
  split; [vm_compute; reflexivity|].
  exact (@indexed_documents_have_embeddings unit SampleAudio.generateId
           SampleAudio.insertMultiple (SampleAudio.models SampleAudio.embedder)
           [] 9 SampleAudio.documents SampleIndex.second Hinserted Hsecond).
Defined.

(** X2: every document that [transcribeAudio] hands to [insertMultiple]
    comes from a segment collected out of the answer of the speech
    recognizer and from a chunk of the text of this segment: it carries the
    id, the text and the times of the segment, the text of the chunk, and
    the id of the segment followed by an underscore and the index of the
    chunk as its own id. *)
Theorem indexed_documents_belong_to_segments (Orama : Type)
  (generateId : nat -> string)
  (insertMultiple : Orama -> list Doc.t -> outcome unit)
  (m : Models Orama) (audioSamples : list Q) (duration : Q)
  (documents : list Doc.t) :
  In (InsertMultiple documents)
     (transcribeAudio generateId insertMultiple m audioSamples duration) ->
  exists asr out,
    asrPipeline m = Some asr /\
    asr audioSamples = Returns out /\
    forall d, In d documents ->
      exists segment j chunk,
        In segment (collectSegments generateId out) /\
        nth_error (chunkTextWithWindow (Segment.text segment)) j = Some chunk /\
        segmentOf d = segment /\
        Doc.text d = Chunk.text chunk /\
        Doc.id d = Segment.id segment ++ "_" ++ natToString j.
Proof.
  intros Hins. apply transcribeAudio_inserted in Hins.
  destruct Hins as [asr [embedder [db [out [Hasr [_ [_ [Hout [-> _]]]]]]]]].
  exists asr, out. split; [exact Hasr|]. split; [exact Hout|].
  intros d Hd. apply in_flat_map in Hd. destruct Hd as [segment [Hs Hd]].
  apply documentsOfSegment_spec in Hd.
  destruct Hd as [j [chunk [Hnth [_ [_ Hdoc]]]]].
  exists segment, j, chunk. rewrite Hdoc.
  split; [exact Hs|]. split; [exact Hnth|].
  split; [apply segmentOf_documentOf|]. split; reflexivity.
Qed.

Lemma indexed_documents_belong_to_segments_witness :
  In (InsertMultiple SampleAudio.documents) SampleIndex.trace /\
  exists asr out,
    asrPipeline (SampleAudio.models SampleAudio.embedder) = Some asr /\
    asr [] = Returns out /\
    forall d, In d SampleAudio.documents ->
      exists segment j chunk,
        In segment (collectSegments SampleAudio.generateId out) /\
        nth_error (chunkTextWithWindow (Segment.text segment)) j = Some chunk /\
        segmentOf d = segment /\
        Doc.text d = Chunk.text chunk /\
        Doc.id d = Segment.id segment ++ "_" ++ natToString j.
Proof.
  assert (Hinserted : In (InsertMultiple SampleAudio.documents) SampleIndex.trace)
    by (vm_compute; findIn).
  split; [exact Hinserted|].
  exact (@indexed_documents_belong_to_segments unit SampleAudio.generateId
           SampleAudio.insertMultiple (SampleAudio.models SampleAudio.embedder)
           [] 9 SampleAudio.documents Hinserted).
Defined.

Lemma indexing_effect_post (effects : list Effect) (msg : OutputMessage) :
  Forall isIndexingEffect effects -> In (Post msg) effects ->
  exists progress message,
    msg = ProgressMessage "embedding" progress message /\ 60 <= progress < 90.
Proof.
  intros Heff Hin. rewrite Forall_forall in Heff. apply Heff in Hin.
  destruct msg as [stage progress message| | | |]; simpl in Hin; try contradiction.
  destruct Hin as [-> Hrange]. now exists progress, message.
Qed.

(** X3: whatever the models answer, [transcribeAudio] ends with exactly one
    message that is not a progress report.  The messages before it are
    reports of the embedding stage with a progress from 60 up to, but not
    including, 90.  The last message is the transcription result, with the
    duration of the request and after an [insertMultiple] that succeeded, or
    an error whose operation is [transcribe]. *)
Theorem transcription_posts_one_outcome (Orama : Type)
  (generateId : nat -> string)
  (insertMultiple : Orama -> list Doc.t -> outcome unit)
  (m : Models Orama) (audioSamples : list Q) (duration : Q) :
  exists effects last,
    transcribeAudio generateId insertMultiple m audioSamples duration
    = (effects ++ [Post last])%list /\
    (forall msg, In (Post msg) effects ->
       exists progress message,
         msg = ProgressMessage "embedding" progress message /\
         60 <= progress < 90) /\
    ((exists segments db documents,
         last = TranscriptionResultMessage segments duration /\
         oramaDb (searchState m) = Some db /\
         In (InsertMultiple documents) effects /\
         insertMultiple db documents = Returns tt) \/
     (exists message, last = SearchMessage (Error message "transcribe"))).
Proof.
  destruct (transcribeAudio_run generateId insertMultiple m audioSamples duration)
    as [Hnone|asr embedder db e Hasr Hemb Hdb Hout
        |asr embedder db out effects e segment chunk Hasr Hemb Hdb Hout Heff Hs Hc Hthrow
        |asr embedder db out effects docs last Hasr Hemb Hdb Hout Heff Hall Hdocs Hlast].
  - exists [], (SearchMessage (Error "Models not loaded" "transcribe")).
    split; [reflexivity|]. split; [intros ? []|]. right. now eexists.
  - exists [RunAsr audioSamples],
      (SearchMessage (Error (errorMessage e "Transcription failed") "transcribe")).
    split; [reflexivity|]. split.
    + intros msg [H|[]]. discriminate H.
    + right. now eexists.
  - exists (RunAsr audioSamples :: effects),
      (SearchMessage (Error (errorMessage e "Transcription failed") "transcribe")).
    split; [reflexivity|]. split.
    + intros msg [H|Hin]; [discriminate H|]. eapply indexing_effect_post; eassumption.
    + right. now eexists.
  - assert (Hposts : forall msg,
              In (Post msg) (RunAsr audioSamples :: effects ++ [InsertMultiple docs]) ->
              exists progress message,
                msg = ProgressMessage "embedding" progress message /\
                60 <= progress < 90).
    { intros msg [H|Hin]; [discriminate H|]. apply in_app_or in Hin.
      destruct Hin as [Hin|[H|[]]]; [|discriminate H].
      eapply indexing_effect_post; eassumption. }
    destruct (insertMultiple db docs) as [[]|e] eqn:Hins; subst last.
    + exists (RunAsr audioSamples :: effects ++ [InsertMultiple docs]),
        (TranscriptionResultMessage (collectSegments generateId out) duration).
      split; [now rewrite <- app_comm_cons, <- app_assoc|]. split; [exact Hposts|].
      left. exists (collectSegments generateId out), db, docs.
      repeat split; try assumption.
      right. apply in_or_app. right. now left.
    + exists (RunAsr audioSamples :: effects ++ [InsertMultiple docs]),
        (SearchMessage (Error (errorMessage e "Transcription failed") "transcribe")).
      split; [now rewrite <- app_comm_cons, <- app_assoc|]. split; [exact Hposts|].
      right. now eexists.
Qed.

(** X4: when the embedder fails on a chunk of a collected segment, the
    transcription inserts nothing into the index and posts no transcription
    result: its trace ends with an error of the operation [transcribe]. *)
Theorem failed_embedding_inserts_nothing (Orama : Type)
  (generateId : nat -> string)
  (insertMultiple : Orama -> list Doc.t -> outcome unit)
  (m : Models Orama) (audioSamples : list Q) (duration : Q)
  asr embedder out segment chunk e :
  asrPipeline m = Some asr ->
  embedderPipeline (searchState m) = Some embedder ->
  asr audioSamples = Returns out ->
  In segment (collectSegments generateId out) ->
  In chunk (chunkTextWithWindow (Segment.text segment)) ->
  embedder (Chunk.text chunk) = Throws e ->
  let trace := transcribeAudio generateId insertMultiple m audioSamples duration in
  (forall documents, ~ In (InsertMultiple documents) trace) /\
  (forall segments d, ~ In (Post (TranscriptionResultMessage segments d)) trace) /\
  exists effects message,
    trace = (effects ++ [Post (SearchMessage (Error message "transcribe"))])%list.
Proof.
  intros Hasr Hemb Hout Hs Hc Hthrow trace.
  assert (Hnone : forall documents, ~ In (InsertMultiple documents) trace).
  { intros documents Hin. apply transcribeAudio_inserted in Hin.
    destruct Hin as [asr' [embedder' [db [out' [Hasr' [Hemb' [_ [Hout' [_ Hall]]]]]]]]].
    rewrite Hasr in Hasr'. inversion Hasr'; subst asr'.
    rewrite Hemb in Hemb'. inversion Hemb'; subst embedder'.
    rewrite Hout in Hout'. inversion Hout'; subst out'.
    destruct (Hall segment chunk Hs Hc) as [v Hv]. congruence. }
  split; [exact Hnone|]. unfold trace in *.
  destruct (transcribeAudio_run generateId insertMultiple m audioSamples duration)
    as [Hnot|asr' embedder' db e' _ _ _ _
        |asr' embedder' db out' effects e' segment' chunk' _ _ _ _ Heff _ _ _
        |asr' embedder' db out' effects docs last _ _ _ _ Heff _ _ _].
  - split; [intros ? ? [H|[]]; discriminate H|].
    exists []. now eexists.
  - split; [intros ? ? [H|[H|[]]]; discriminate H|].
    exists [RunAsr audioSamples]. now eexists.
  - split.
    + intros segments d [H|Hin]; [discriminate H|]. apply in_app_or in Hin.
      destruct Hin as [Hin|[H|[]]]; [|discriminate H].
      destruct (@indexing_effect_post effects _ Heff Hin) as [? [? [H _]]].
      discriminate H.
    + exists (RunAsr audioSamples :: effects). now eexists.
  - exfalso. apply (Hnone docs). right. apply in_or_app. right. now left.
Qed.

Lemma failed_embedding_inserts_nothing_witness :
  In SampleIndex.bye (collectSegments SampleAudio.generateId SampleIndex.output) /\
  SampleAudio.failingEmbedder (Chunk.text SampleIndex.byeChunk)
  = Throws (Some "out of memory") /\
  (forall documents, ~ In (InsertMultiple documents) SampleIndex.failingTrace) /\
  (forall segments d,
      ~ In (Post (TranscriptionResultMessage segments d)) SampleIndex.failingTrace) /\
  exists effects message,
    SampleIndex.failingTrace
    = (effects ++ [Post (SearchMessage (Error message "transcribe"))])%list.
Proof.
  assert (Hsegment : In SampleIndex.bye
                       (collectSegments SampleAudio.generateId SampleIndex.output))
    by (vm_compute; findIn).
  assert (Hchunk : In SampleIndex.byeChunk
                     (chunkTextWithWindow (Segment.text SampleIndex.bye)))
    by (vm_compute; findIn).
  assert (Hthrows : SampleAudio.failingEmbedder (Chunk.text SampleIndex.byeChunk)
                    = Throws (Some "out of memory"))
    by (vm_compute; reflexivity).
  split; [exact Hsegment|]. split; [exact Hthrows|].
  exact (@failed_embedding_inserts_nothing unit SampleAudio.generateId
           SampleAudio.insertMultiple
           (SampleAudio.models SampleAudio.failingEmbedder) [] 9
           SampleAudio.asr SampleAudio.failingEmbedder SampleIndex.output
           SampleIndex.bye SampleIndex.byeChunk (Some "out of memory")
           eq_refl eq_refl eq_refl Hsegment Hchunk Hthrows).
Defined.

(** *** Segments *)

Lemma trimStart_fixed (s : string) :
  match s with String c _ => Str.isWhiteSpace c = false | EmptyString => True end ->
  Str.trimStart s = s.
Proof. destruct s as [|c s]; simpl; [reflexivity|]. now intros ->. Qed.

Lemma trimStart_head (s : string) :
  match Str.trimStart s with
  | String c _ => Str.isWhiteSpace c = false
  | EmptyString => True
  end.
Proof.
  induction s as [|c s IH]; simpl; [exact I|].
  destruct (Str.isWhiteSpace c) eqn:E; [exact IH|exact E].
Qed.

Lemma trimEnd_head (s : string) :
  match s with String c _ => Str.isWhiteSpace c = false | EmptyString => True end ->
  match Str.trimEnd s with
  | String c _ => Str.isWhiteSpace c = false
  | EmptyString => True
  end.
Proof.
  destruct s as [|c s]; simpl; [trivial|]. intros Hc.
  destruct (Str.trimEnd s); [now rewrite Hc|exact Hc].
Qed.

Lemma trimEnd_idempotent (s : string) : Str.trimEnd (Str.trimEnd s) = Str.trimEnd s.
Proof.
  induction s as [|c s IH]; simpl; [reflexivity|].
  destruct (Str.trimEnd s) as [|d t] eqn:E.
  - destruct (Str.isWhiteSpace c) eqn:Hc; simpl; [reflexivity|now rewrite Hc].
  - cbn [Str.trimEnd]. cbn [Str.trimEnd] in IH. now rewrite IH.
Qed.

Lemma trim_idempotent (s : string) : Str.trim (Str.trim s) = Str.trim s.
Proof.
  unfold Str.trim.
  rewrite (trimStart_fixed (Str.trimEnd (Str.trimStart s))).
  - apply trimEnd_idempotent.
  - apply trimEnd_head, trimStart_head.
Qed.

Section SegmentFacts.

Variable generateId : nat -> string.

Lemma pushSegment_cases (segments : list Segment.t) (chunk : Asr.chunk) :
  pushSegment generateId segments chunk = segments \/
  exists t,
    Asr.text chunk = Some t /\ Str.trim t <> "" /\
    pushSegment generateId segments chunk
    = (segments ++
       [ {| Segment.id := generateId (List.length segments);
            Segment.text := Str.trim t;
            Segment.start := fst (Asr.timestamp chunk);
            Segment.end_ := snd (Asr.timestamp chunk) |} ])%list.
Proof.
  unfold pushSegment. destruct (Asr.text chunk) as [t|]; [|now left].
  destruct (String.eqb (Str.trim t) "") eqn:E; [now left|].
  right. exists t. apply String.eqb_neq in E. now repeat split.
Qed.

(** An invariant of the loops that collect the segments. *)
Lemma collectSegments_invariant (Inv : list Segment.t -> Prop) (out : Asr.output) :
  Inv [] ->
  (forall segments chunk,
      In chunk (asrChunks out) -> Inv segments ->
      Inv (pushSegment generateId segments chunk)) ->
  Inv (collectSegments generateId out).
Proof.
  unfold collectSegments, asrChunks.
  set (results := match out with Asr.Many rs => rs | Asr.One r => [r] end).
  clearbody results. intros Hnil Hstep.
  assert (Hgen : forall segments,
            Inv segments ->
            (forall segments chunk,
                In chunk
                   (flat_map
                      (fun result =>
                         match Asr.chunks result with Some chunks => chunks | None => [] end)
                      results) ->
                Inv segments -> Inv (pushSegment generateId segments chunk)) ->
            Inv (fold_left
                   (fun segments result =>
                      match Asr.chunks result with
                      | Some chunks => fold_left (pushSegment generateId) chunks segments
                      | None => segments
                      end) results segments)).
  { clear Hnil Hstep. induction results as [|result results IH];
      intros segments Hinv Hstep; simpl; [exact Hinv|].
    apply IH.
    - destruct (Asr.chunks result) as [chunks|] eqn:Hchunks; [|exact Hinv].
      assert (Hsub : forall chunk, In chunk chunks ->
                In chunk
                  (flat_map
                     (fun result =>
                        match Asr.chunks result with Some chunks => chunks | None => [] end)
                     (result :: results))).
      { intros chunk Hc. simpl. rewrite Hchunks. apply in_or_app. now left. }
      clear Hchunks. revert segments Hinv.
      induction chunks as [|chunk chunks IHc]; intros segments Hinv; simpl;
        [exact Hinv|].
      apply IHc.
      + intros c Hc. apply Hsub. now right.
      + apply Hstep; [apply Hsub; now left|exact Hinv].
    - intros segs chunk Hc. apply Hstep. simpl. apply in_or_app. now right. }
  now apply Hgen.
Qed.

(** The collected segments: each comes from a chunk of the recognition,
    with its trimmed text, which is not empty, and its time range; segment
    number [k] bears the identifier of call number [k]. *)
Lemma collectSegments_spec (out : Asr.output) :
  let segments := collectSegments generateId out in
  map Segment.id segments = map generateId (seq 0 (List.length segments)) /\
  forall segment, In segment segments ->
    Segment.text segment <> "" /\
    Str.trim (Segment.text segment) = Segment.text segment /\
    exists chunk t,
      In chunk (asrChunks out) /\ Asr.text chunk = Some t /\
      Segment.text segment = Str.trim t /\
      (Segment.start segment, Segment.end_ segment) = Asr.timestamp chunk.
Proof.
  apply (collectSegments_invariant
           (fun segments =>
              map Segment.id segments = map generateId (seq 0 (List.length segments)) /\
              forall segment, In segment segments ->
                Segment.text segment <> "" /\
                Str.trim (Segment.text segment) = Segment.text segment /\
                exists chunk t,
                  In chunk (asrChunks out) /\ Asr.text chunk = Some t /\
                  Segment.text segment = Str.trim t /\
                  (Segment.start segment, Segment.end_ segment) = Asr.timestamp chunk)).
  - split; [reflexivity|intros ? []].
  - intros segments chunk Hchunk [Hids Hall].
    destruct (pushSegment_cases segments chunk) as [->|[t [Ht [Hne ->]]]];
      [now split|].
    split.
    + rewrite length_app, map_app. cbn [List.length map].
      rewrite Nat.add_1_r, seq_S, map_app. cbn [map Segment.id plus].
      now rewrite Hids.
    + intros segment Hin. apply in_app_or in Hin.
      destruct Hin as [Hin|[<-|[]]]; [now apply Hall|]. cbn [Segment.text].
      split; [exact Hne|]. split; [apply trim_idempotent|].
      exists chunk, t. repeat split; try assumption.
      simpl. now destruct (Asr.timestamp chunk).
Qed.

End SegmentFacts.

Lemma transcribeAudio_result (Orama : Type) (generateId : nat -> string)
  (insertMultiple : Orama -> list Doc.t -> outcome unit)
  (m : Models Orama) (audioSamples : list Q) (duration : Q)
  (segments : list Segment.t) (d : Q) :
  In (Post (TranscriptionResultMessage segments d))
     (transcribeAudio generateId insertMultiple m audioSamples duration) ->
  exists asr out,
    asrPipeline m = Some asr /\
    asr audioSamples = Returns out /\
    segments = collectSegments generateId out /\
    d = duration.
Proof.
  intros Hin.
  destruct (transcribeAudio_run generateId insertMultiple m audioSamples duration)
    as [Hnone|asr embedder db e Hasr Hemb Hdb Hout
        |asr embedder db out effects e segment chunk Hasr Hemb Hdb Hout Heff Hs Hc Hthrow
        |asr embedder db out effects docs last Hasr Hemb Hdb Hout Heff Hall Hdocs Hlast].
  - destruct Hin as [H|[]]; discriminate H.
  - destruct Hin as [H|[H|[]]]; discriminate H.
  - destruct Hin as [H|Hin]; [discriminate H|]. apply in_app_or in Hin.
    destruct Hin as [Hin|[H|[]]]; [|discriminate H].
    destruct (@indexing_effect_post effects _ Heff Hin) as [? [? [H _]]].
    discriminate H.
  - destruct Hin as [H|Hin]; [discriminate H|]. apply in_app_or in Hin.
    destruct Hin as [Hin|[H|[H|[]]]].
    + destruct (@indexing_effect_post effects _ Heff Hin) as [? [? [H _]]].
      discriminate H.
    + discriminate H.
    + destruct (insertMultiple db docs); rewrite Hlast in H;
        [|discriminate H].
      inversion H; subst. now exists asr, out.
Qed.

(** X5: every segment of a posted transcription result has a text that is
    not empty and has no white space at either end, carries the id that
    [generateId] answered at its position in the result, and is cut by the
    chunker into chunks whose ratios are ordered between 0 and 1. *)
Theorem posted_segments_are_well_formed (Orama : Type)
  (generateId : nat -> string)
  (insertMultiple : Orama -> list Doc.t -> outcome unit)
  (m : Models Orama) (audioSamples : list Q) (duration : Q)
  (segments : list Segment.t) (d : Q) (segment : Segment.t) :
  In (Post (TranscriptionResultMessage segments d))
     (transcribeAudio generateId insertMultiple m audioSamples duration) ->
  In segment segments ->
  Segment.text segment <> "" /\
  Str.trim (Segment.text segment) = Segment.text segment /\
  (exists k, nth_error segments k = Some segment /\
             Segment.id segment = generateId k) /\
  forall chunk, In chunk (chunkTextWithWindow (Segment.text segment)) ->
    JS.le (JS.Fin 0) (Chunk.startRatio chunk) /\
    JS.le (Chunk.startRatio chunk) (Chunk.endRatio chunk) /\
    JS.le (Chunk.endRatio chunk) (JS.Fin 1).
Proof.
  intros Hposted Hin. apply transcribeAudio_result in Hposted.
  destruct Hposted as [asr [out [_ [_ [-> _]]]]].
  destruct (collectSegments_spec generateId out) as [Hids Hall].
  destruct (Hall segment Hin) as [Hne [Htrim _]].
  split; [exact Hne|]. split; [exact Htrim|]. split.
  - apply In_nth_error in Hin. destruct Hin as [k Hk]. exists k.
    split; [exact Hk|].
    assert (Hid : nth_error (map Segment.id (collectSegments generateId out)) k
                  = Some (Segment.id segment))
      by (now apply map_nth_error).
    rewrite Hids in Hid.
    assert (Hlen : (k < List.length (collectSegments generateId out))%nat).
    { apply nth_error_Some. rewrite Hk. discriminate. }
    assert (Hseq : nth_error (seq 0 (List.length (collectSegments generateId out))) k
                   = Some k).
    { rewrite nth_error_nth' with (d := 0%nat) by (now rewrite length_seq).
      now rewrite seq_nth. }
    rewrite (map_nth_error generateId k _ Hseq) in Hid. now inversion Hid.
  - apply (chunkTextWithWindow_sound Hne).
Qed.

Lemma posted_segments_are_well_formed_witness :
  In (Post (TranscriptionResultMessage SampleAudio.segments 9)) SampleIndex.trace /\
  In SampleIndex.bye SampleAudio.segments /\
  Segment.text SampleIndex.bye <> "" /\
  Str.trim (Segment.text SampleIndex.bye) = Segment.text SampleIndex.bye /\
  (exists k, nth_error SampleAudio.segments k = Some SampleIndex.bye /\
             Segment.id SampleIndex.bye = SampleAudio.generateId k) /\
  forall chunk, In chunk (chunkTextWithWindow (Segment.text SampleIndex.bye)) ->
    JS.le (JS.Fin 0) (Chunk.startRatio chunk) /\
    JS.le (Chunk.startRatio chunk) (Chunk.endRatio chunk) /\
    JS.le (Chunk.endRatio chunk) (JS.Fin 1).
Proof.
  assert (Hposted : In (Post (TranscriptionResultMessage SampleAudio.segments 9))
                      SampleIndex.trace)
    by (vm_compute; findIn).
  assert (Hsegment : In SampleIndex.bye SampleAudio.segments)
    by (vm_compute; findIn).
  split; [exact Hposted|]. split; [exact Hsegment|].
  exact (@posted_segments_are_well_formed unit SampleAudio.generateId
           SampleAudio.insertMultiple (SampleAudio.models SampleAudio.embedder)
           [] 9 SampleAudio.segments 9 SampleIndex.bye Hposted Hsegment).
Defined.

(** *** Document identifiers *)

Lemma natToString_inj (a b : nat) : natToString a = natToString b -> a = b.
Proof.
  unfold natToString. intros H. apply Unsigned.to_uint_inj.
  apply (f_equal NilEmpty.uint_of_string) in H. rewrite !NilEmpty.usu in H.
  now inversion H.
Qed.

Lemma natToString_digits (n : nat) : allChars isDigit (natToString n) = true.
Proof.
  unfold natToString. induction (Nat.to_uint n) as [|u IH|u IH|u IH|u IH|u IH|u IH|u IH|u IH|u IH|u IH];
    simpl; [reflexivity|..]; exact IH.
Qed.

Lemma allChars_append (p : ascii -> bool) (a b : string) :
  allChars p (a ++ b) = allChars p a && allChars p b.
Proof.
  induction a as [|c a IH]; simpl; [reflexivity|]. now rewrite IH, andb_assoc.
Qed.

Lemma append_cancel_l (a b c : string) : a ++ b = a ++ c -> b = c.
Proof.
  induction a as [|x a IH]; simpl; [trivial|]. intros H. inversion H. now apply IH.
Qed.

(** An identifier [s_d], where [d] is made of digits, determines [s] and
    [d]. *)
Lemma underscore_split (s1 s2 d1 d2 : string) :
  allChars isDigit d1 = true -> allChars isDigit d2 = true ->
  s1 ++ "_" ++ d1 = s2 ++ "_" ++ d2 -> s1 = s2 /\ d1 = d2.
Proof.
  intros Hd1 Hd2. revert s2.
  assert (Hno : forall d a b, allChars isDigit d = true -> d <> a ++ "_" ++ b).
  { intros d a b Hd ->. rewrite allChars_append in Hd. simpl in Hd.
    apply andb_true_iff in Hd. destruct Hd as [_ Hd]. discriminate Hd. }
  induction s1 as [|c s1 IH]; intros [|c2 s2]; simpl; intros H.
  - inversion H. now split.
  - inversion H. exfalso. now apply (Hno d1 s2 d2).
  - inversion H. exfalso. apply (Hno d2 s1 d1); [exact Hd2|]. now symmetry.
  - inversion H. destruct (IH s2) as [-> ->]; [assumption|]. now split.
Qed.

Lemma NoDup_append {A : Type} (xs ys : list A) :
  NoDup xs -> NoDup ys -> (forall x, In x xs -> ~ In x ys) -> NoDup (xs ++ ys).
Proof.
  induction xs as [|x xs IH]; simpl; intros Hxs Hys Hdisj; [exact Hys|].
  inversion Hxs; subst. constructor.
  - intros Hin. apply in_app_or in Hin. destruct Hin as [Hin|Hin]; [contradiction|].
    apply (Hdisj x); [now left|exact Hin].
  - apply IH; try assumption. intros y Hy. apply Hdisj. now right.
Qed.

Lemma NoDup_map_injective {A B : Type} (f : A -> B) (xs : list A) :
  (forall a b, f a = f b -> a = b) -> NoDup xs -> NoDup (map f xs).
Proof.
  intros Hinj. induction 1 as [|x xs Hnotin Hnd IH]; simpl; constructor;
    [|exact IH].
  intros Hin. apply in_map_iff in Hin. destruct Hin as [y [Hy Hin]].
  apply Hinj in Hy. now subst y.
Qed.

Lemma documentsOfChunk_id (embedder : string -> outcome (list Q))
  (segment : Segment.t) (jc : nat * Chunk.t) (d : Doc.t) :
  In d (documentsOfChunk embedder segment jc) ->
  Doc.id d = Segment.id segment ++ "_" ++ natToString (fst jc).
Proof.
  unfold documentsOfChunk. destruct (embedder (Chunk.text (snd jc))) as [v|]; [|intros []].
  destruct (List.length v =? EMBEDDING_DIM)%nat; [|intros []].
  now intros [<-|[]].
Qed.

Lemma documentsOfChunks_NoDup (embedder : string -> outcome (list Q))
  (segment : Segment.t) (jcs : list (nat * Chunk.t)) :
  NoDup (map fst jcs) ->
  NoDup (map Doc.id (flat_map (documentsOfChunk embedder segment) jcs)).
Proof.
  induction jcs as [|jc jcs IH]; simpl; intros Hnd; [constructor|].
  inversion Hnd as [|? ? Hnotin Hnd']; subst. rewrite map_app.
  apply NoDup_append.
  - unfold documentsOfChunk. destruct (embedder (Chunk.text (snd jc))) as [v|];
      [|constructor].
    destruct (List.length v =? EMBEDDING_DIM)%nat; simpl;
      [constructor; [intros []|constructor]|constructor].
  - now apply IH.
  - intros id Hid1 Hid2. apply in_map_iff in Hid1. destruct Hid1 as [d1 [<- Hd1]].
    apply in_map_iff in Hid2. destruct Hid2 as [d2 [Heq Hd2]].
    apply in_flat_map in Hd2. destruct Hd2 as [jc2 [Hjc2 Hd2]].
    apply documentsOfChunk_id in Hd1. apply documentsOfChunk_id in Hd2.
    rewrite Hd1, Hd2 in Heq. apply append_cancel_l in Heq.
    simpl in Heq. inversion Heq as [Hj]. apply natToString_inj in Hj.
    apply Hnotin. rewrite <- Hj. now apply in_map.
Qed.

Lemma documentsOfSegment_id (embedder : string -> outcome (list Q))
  (segment : Segment.t) (d : Doc.t) :
  In d (documentsOfSegment embedder segment) ->
  exists j, Doc.id d = Segment.id segment ++ "_" ++ natToString j.
Proof.
  unfold documentsOfSegment. intros Hin. apply in_flat_map in Hin.
  destruct Hin as [jc [_ Hd]]. exists (fst jc). now apply documentsOfChunk_id in Hd.
Qed.

Lemma documents_NoDup (embedder : string -> outcome (list Q))
  (segments : list Segment.t) :
  NoDup (map Segment.id segments) ->
  NoDup (map Doc.id (flat_map (documentsOfSegment embedder) segments)).
Proof.
  induction segments as [|segment segments IH]; simpl; intros Hnd; [constructor|].
  inversion Hnd as [|? ? Hnotin Hnd']; subst. rewrite map_app.
  apply NoDup_append.
  - unfold documentsOfSegment. apply documentsOfChunks_NoDup.
    rewrite indexed_keys. apply seq_NoDup.
  - now apply IH.
  - intros id Hid1 Hid2. apply in_map_iff in Hid1. destruct Hid1 as [d1 [<- Hd1]].
    apply in_map_iff in Hid2. destruct Hid2 as [d2 [Heq Hd2]].
    apply in_flat_map in Hd2. destruct Hd2 as [segment2 [Hs2 Hd2]].
    apply documentsOfSegment_id in Hd1. destruct Hd1 as [j1 Hd1].
    apply documentsOfSegment_id in Hd2. destruct Hd2 as [j2 Hd2].
    rewrite Hd1, Hd2 in Heq.
    apply underscore_split in Heq; try apply natToString_digits.
    destruct Heq as [Heq _]. apply Hnotin. rewrite <- Heq. now apply in_map.
Qed.

(** X6: when no two calls of [generateId] answer the same id, the documents
    that [transcribeAudio] hands to [insertMultiple] have pairwise distinct
    ids. *)
Theorem document_ids_are_distinct (Orama : Type) (generateId : nat -> string)
  (insertMultiple : Orama -> list Doc.t -> outcome unit)
  (m : Models Orama) (audioSamples : list Q) (duration : Q)
  (documents : list Doc.t) :
  (forall a b, generateId a = generateId b -> a = b) ->
  In (InsertMultiple documents)
     (transcribeAudio generateId insertMultiple m audioSamples duration) ->
  NoDup (map Doc.id documents).
Proof.
  intros Hfresh Hins. apply transcribeAudio_inserted in Hins.
  destruct Hins as [asr [embedder [db [out [_ [_ [_ [_ [-> _]]]]]]]]].
  apply documents_NoDup.
  rewrite (proj1 (collectSegments_spec generateId out)).
  apply NoDup_map_injective; [exact Hfresh|apply seq_NoDup].
Qed.

Lemma document_ids_are_distinct_witness :
  In (InsertMultiple SampleAudio.documents) SampleIndex.trace /\
  map Doc.id SampleAudio.documents = ["seg_0_0"; "seg_0_1"] /\
  NoDup (map Doc.id SampleAudio.documents).
Proof.
  assert (Hinserted : In (InsertMultiple SampleAudio.documents) SampleIndex.trace)
    by (vm_compute; findIn).
  split; [exact Hinserted|]. split; [vm_compute; reflexivity|].
  refine (@document_ids_are_distinct unit SampleAudio.generateId
            SampleAudio.insertMultiple (SampleAudio.models SampleAudio.embedder)
            [] 9 SampleAudio.documents _ Hinserted).
  intros a b Hid. apply natToString_inj.
  exact (append_cancel_l "seg_" (natToString a) (natToString b) Hid).
Defined.

(** *** Indexing, then searching *)

(** X7: when the index engine answers a search with documents that a
    transcription inserted, every result that [semanticSearch] posts shows a
    segment of the transcription result that this transcription posted: same
    id, same text, same times. *)
Theorem search_results_are_transcript_segments (Orama : Type)
  (generateId : nat -> string)
  (insertMultiple : Orama -> list Doc.t -> outcome unit)
  (search : Orama -> Query.t -> outcome (list Hit.t))
  (m : Models Orama) (audioSamples : list Q) (duration : Q)
  (segments : list Segment.t) (documents : list Doc.t)
  (st : State Orama) (query : string) (limit : Z)
  (results : list (Result.t JS.number)) (q : string) :
  In (Post (TranscriptionResultMessage segments duration))
     (transcribeAudio generateId insertMultiple m audioSamples duration) ->
  In (InsertMultiple documents)
     (transcribeAudio generateId insertMultiple m audioSamples duration) ->
  (forall db params hits hit,
      search db params = Returns hits -> In hit hits ->
      In (Hit.document hit) documents) ->
  In (PostMessage (SearchResults results q)) (semanticSearch search st query limit) ->
  forall r, In r results -> In (Result.segment r) segments.
Proof.
  intros Hposted Hins Hsound Hsearch r Hr.
  apply transcribeAudio_result in Hposted.
  destruct Hposted as [asr [out [Hasr [Hout [-> _]]]]].
  apply transcribeAudio_inserted in Hins.
  destruct Hins as [asr' [embedder [db [out' [Hasr' [_ [_ [Hout' [-> _]]]]]]]]].
  rewrite Hasr in Hasr'. inversion Hasr'; subst asr'.
  rewrite Hout in Hout'. inversion Hout'; subst out'.
  apply semanticSearch_results in Hsearch.
  destruct Hsearch as [embedder' [db' [v [hits [_ [_ [_ [Hhits [-> _]]]]]]]]].
  apply normalizeScores_In in Hr. destruct Hr as [raw [Hraw ->]].
  destruct (rankedResults_spec (detectQuestionIntent query) hits limit)
    as [_ [_ Hbest]].
  destruct (Hbest raw Hraw) as [hit [[Hhit _] ->]]. cbn [resultOf Result.segment].
  pose proof (Hsound _ _ _ _ Hhits Hhit) as Hdoc.
  apply in_flat_map in Hdoc. destruct Hdoc as [segment [Hs Hd]].
  apply documentsOfSegment_spec in Hd. destruct Hd as [j [chunk [_ [_ [_ ->]]]]].
  now rewrite segmentOf_documentOf.
Qed.

Lemma search_results_are_transcript_segments_witness :
  exists results,
    In (PostMessage (SearchResults results "how are you"))
       (semanticSearch SampleIndex.engine
          (searchState (SampleAudio.models SampleAudio.embedder)) "how are you" 10) /\
    map (@segmentIdOf JS.number) results = ["seg_0"] /\
    forall r, In r results -> In (Result.segment r) SampleAudio.segments.
Proof.
  assert (Hposted : In (Post (TranscriptionResultMessage SampleAudio.segments 9))
                      SampleIndex.trace)
    by (vm_compute; findIn).
  assert (Hinserted : In (InsertMultiple SampleAudio.documents) SampleIndex.trace)
    by (vm_compute; findIn).
  exists (normalizeScores
            (rankedResults (detectQuestionIntent "how are you") SampleIndex.hits 10)).
  assert (Hresults :
            In (PostMessage
                  (SearchResults
                     (normalizeScores
                        (rankedResults (detectQuestionIntent "how are you")
                           SampleIndex.hits 10)) "how are you"))
               (semanticSearch SampleIndex.engine
                  (searchState (SampleAudio.models SampleAudio.embedder))
                  "how are you" 10))
    by (vm_compute; findIn).
  split; [exact Hresults|]. split; [vm_compute; reflexivity|].
  refine (@search_results_are_transcript_segments unit SampleAudio.generateId
            SampleAudio.insertMultiple SampleIndex.engine
            (SampleAudio.models SampleAudio.embedder) [] 9
            SampleAudio.segments SampleAudio.documents
            (searchState (SampleAudio.models SampleAudio.embedder))
            "how are you" 10 _ "how are you" Hposted Hinserted _ Hresults).
  intros db params hits hit Hanswer Hin.
  assert (Hhits : SampleIndex.hits = hits).
  { apply (f_equal (fun o => match o with
                             | Returns h => h
                             | Throws _ => hits
                             end)) in Hanswer.
    exact Hanswer. }
  rewrite <- Hhits in Hin.
  destruct (proj1 (in_map_iff
                     (fun d => {| Hit.score := 1 # 2; Hit.document := d |})
                     SampleAudio.documents hit) Hin) as [d [Hd Hdoc]].
  rewrite <- Hd. exact Hdoc.
Defined.

(** ** More on the search operation *)


Lemma set_length {V : Type} (k : string) (v : V) (m : StringMap.t V) :
  (List.length (StringMap.set k v m) <= S (List.length m))%nat.
Proof.
  induction m as [|[k0 v0] m IH]; simpl; [lia|].
  destruct (String.eqb k0 k); simpl; lia.
Qed.

Lemma rerank_length (intents : list string) (hits : list Hit.t) :
  forall m,
    (List.length (fold_left (rerankStep intents) hits m)
     <= List.length m + List.length hits)%nat.
Proof.
  induction hits as [|hit hits IH]; intros m; simpl; [lia|].
  specialize (IH (rerankStep intents m hit)).
  assert (Hstep : (List.length (rerankStep intents m hit) <= S (List.length m))%nat).
  { unfold rerankStep. cbv zeta.
    destruct (StringMap.get (Doc.segmentId (Hit.document hit)) m) as [existing|].
    - destruct (Qltb (Result.score existing) (finalScoreOf intents hit));
        [apply set_length|lia].
    - apply set_length. }
  lia.
Qed.

Lemma sortByScore_length (results : list (Result.t Q)) :
  List.length (sortByScore results) = List.length results.
Proof. apply Permutation_length, sortByScore_perm. Qed.

Lemma sliceTo_length {A : Type} (limit : Z) (xs : list A) :
  (List.length (sliceTo limit xs) <= List.length xs)%nat /\
  ((0 <= limit)%Z -> (Z.of_nat (List.length (sliceTo limit xs)) <= limit)%Z).
Proof.
  unfold sliceTo. rewrite length_firstn. split; [lia|].
  intros Hlimit. destruct (limit <? 0)%Z eqn:E; [apply Z.ltb_lt in E; lia|]. lia.
Qed.

Lemma sliceTo_all {A : Type} (limit : Z) (xs : list A) :
  (Z.of_nat (List.length xs) <= limit)%Z -> sliceTo limit xs = xs.
Proof.
  intros Hlen. unfold sliceTo.
  destruct (limit <? 0)%Z eqn:E; [apply Z.ltb_lt in E; lia|].
  apply firstn_all2. lia.
Qed.

Lemma normalizeScores_length (results : list (Result.t Q)) :
  List.length (normalizeScores results) = List.length results.
Proof.
  unfold normalizeScores. destruct results; [reflexivity|]. now rewrite length_map.
Qed.

(** X9: for a limit that is not negative, a search posts at most [limit]
    results, and never more results than the engine returned hits. *)
Theorem result_count_within_limit (Orama : Type)
  (search : Orama -> Query.t -> outcome (list Hit.t)) (st : State Orama)
  (query : string) (limit : Z) (results : list (Result.t JS.number)) (q : string) :
  In (PostMessage (SearchResults results q)) (semanticSearch search st query limit) ->
  (0 <= limit)%Z ->
  (Z.of_nat (List.length results) <= limit)%Z /\
  exists db queryVector hits,
    oramaDb st = Some db /\
    search db (hybridQuery query queryVector) = Returns hits /\
    (List.length results <= List.length hits)%nat.
Proof.
  intros Hposted Hlimit. apply semanticSearch_results in Hposted.
  destruct Hposted as [embedder [db [v [hits [_ [Hdb [_ [Hhits [-> _]]]]]]]]].
  rewrite normalizeScores_length. unfold rankedResults. cbv zeta.
  split; [now apply sliceTo_length|].
  exists db, v, hits. split; [exact Hdb|]. split; [exact Hhits|].
  etransitivity; [apply sliceTo_length|].
  rewrite sortByScore_length. unfold StringMap.values. rewrite length_map.
  apply (rerank_length (detectQuestionIntent query) hits []).
Qed.

Lemma result_count_within_limit_witness :
  exists results,
    In (PostMessage (SearchResults results "How can I improve my intuition?"))
       (semanticSearch Sample.engine (Sample.ready Sample.hits)
          "How can I improve my intuition?" 1) /\
    (Z.of_nat (List.length results) <= 1)%Z /\
    exists db queryVector hits,
      oramaDb (Sample.ready Sample.hits) = Some db /\
      Sample.engine db (hybridQuery "How can I improve my intuition?" queryVector)
      = Returns hits /\
      (List.length results <= List.length hits)%nat.
Proof.
  exists (normalizeScores
            (rankedResults (detectQuestionIntent "How can I improve my intuition?")
               Sample.hits 1)).
  assert (Hresults :
            In (PostMessage
                  (SearchResults
                     (normalizeScores
                        (rankedResults
                           (detectQuestionIntent "How can I improve my intuition?")
                           Sample.hits 1)) "How can I improve my intuition?"))
               (semanticSearch Sample.engine (Sample.ready Sample.hits)
                  "How can I improve my intuition?" 1))
    by (vm_compute; findIn).
  split; [exact Hresults|].
  refine (@result_count_within_limit _ Sample.engine (Sample.ready Sample.hits)
            "How can I improve my intuition?" 1 _
            "How can I improve my intuition?" Hresults _).
  lia.
Defined.

Lemma finalScoreOf_lower (intents : list string) (hit : Hit.t) :
  Hit.score hit <= finalScoreOf intents hit.
Proof.
  unfold finalScoreOf.
  pose proof (calculateHeuristicBoost_range (Doc.text (Hit.document hit)) intents).
  lra.
Qed.

(** Every hit is matched, in the map of the best passages, by an entry of
    its segment that scores at least as high. *)
Lemma scored_covers (intents : list string) (hits : list Hit.t) (hit : Hit.t) :
  In hit hits ->
  exists r,
    In r (StringMap.values (fold_left (rerankStep intents) hits [])) /\
    segmentIdOf r = hitSegmentId hit /\
    finalScoreOf intents hit <= Result.score r.
Proof.
  intros Hin. destruct (scored_all intents hits) as [_ Hentries Hseen].
  apply Hseen in Hin as Hkey. apply in_map_iff in Hkey.
  destruct Hkey as [[k r] [Hk Hkr]]. simpl in Hk. subst k.
  exists r. split; [unfold StringMap.values; now apply (in_map snd) in Hkr|].
  destruct (Hentries _ _ Hkr) as [best [[_ Hmax] [Hseg ->]]].
  split; [unfold segmentIdOf; simpl; now symmetry|].
  cbn [resultOf Result.score]. apply Hmax; [exact Hin|exact Hseg].
Qed.

(** X11: when the engine returns no more hits than the limit, no segment is
    lost: every hit has its segment among the posted results. *)
Theorem untruncated_results_cover_hits (Orama : Type)
  (search : Orama -> Query.t -> outcome (list Hit.t)) (st : State Orama)
  (query : string) (limit : Z) embedder db queryVector hits :
  embedderPipeline st = Some embedder ->
  oramaDb st = Some db ->
  embedder query = Returns queryVector ->
  search db (hybridQuery query queryVector) = Returns hits ->
  (Z.of_nat (List.length hits) <= limit)%Z ->
  exists results,
    semanticSearch search st query limit
    = [ Embed query; Search (hybridQuery query queryVector);
        PostMessage (SearchResults results query) ] /\
    forall hit, In hit hits ->
      exists r, In r results /\ segmentIdOf r = hitSegmentId hit.
Proof.
  intros Hemb Hdb Hv Hhits Hlimit.
  set (intents := detectQuestionIntent query).
  exists (normalizeScores (rankedResults intents hits limit)). split.
  { unfold semanticSearch, tryCatch, bind, call, emit.
    now rewrite Hemb, Hdb, Hv, Hhits. }
  intros hit Hhit.
  destruct (scored_covers intents hits hit Hhit) as [r [Hr [Hid _]]].
  assert (Hranked : In r (rankedResults intents hits limit)).
  { unfold rankedResults. cbv zeta. rewrite sliceTo_all.
    - now apply (Permutation_in _ (Permutation_sym (sortByScore_perm _))).
    - rewrite sortByScore_length. unfold StringMap.values. rewrite length_map.
      pose proof (rerank_length intents hits []). simpl in *. lia. }
  unfold normalizeScores.
  destruct (rankedResults intents hits limit) as [|top rest]; [destruct Hranked|].
  exists (normalizeScore (Result.score top) r). split.
  - now apply in_map.
  - exact Hid.
Qed.

Lemma untruncated_results_cover_hits_witness :
  exists results,
    semanticSearch Sample.engine (Sample.ready Sample.hits)
      "How can I improve my intuition?" 20
    = [ Embed "How can I improve my intuition?";
        Search (hybridQuery "How can I improve my intuition?" [1]);
        PostMessage (SearchResults results "How can I improve my intuition?") ] /\
    forall hit, In hit Sample.hits ->
      exists r, In r results /\ segmentIdOf r = hitSegmentId hit.
Proof.
  refine (@untruncated_results_cover_hits _ Sample.engine (Sample.ready Sample.hits)
            "How can I improve my intuition?" 20 (fun _ => Returns [1]) Sample.hits
            [1] Sample.hits eq_refl eq_refl eq_refl eq_refl _).
  vm_compute. discriminate.
Defined.

(** ** More on the chunker *)

Lemma windowsFrom_closed_form (sentences : list string) (i : nat) :
  (i < List.length sentences)%nat ->
  windowsFrom sentences i
  = map (fun k => Str.slice sentences k (k + WINDOW_SIZE))
      (seq i (S (List.length sentences - WINDOW_SIZE - i))).
Proof.
  remember (List.length sentences - i)%nat as n eqn:En.
  revert i En. induction n as [n IH] using lt_wf_ind. intros i En Hi.
  rewrite windowsFrom_eq.
  destruct (i <? List.length sentences)%nat eqn:Hlt;
    [|apply Nat.ltb_ge in Hlt; lia].
  cbv zeta.
  destruct (List.length (Str.slice sentences i (i + WINDOW_SIZE)) =? 0)%nat eqn:Hw.
  { apply Nat.eqb_eq in Hw. rewrite slice_window, length_firstn, length_skipn in Hw.
    unfold WINDOW_SIZE in Hw. lia. }
  destruct (List.length sentences <=? i + WINDOW_SIZE)%nat eqn:Hend.
  - apply Nat.leb_le in Hend.
    replace (List.length sentences - WINDOW_SIZE - i)%nat with 0%nat by lia.
    reflexivity.
  - apply Nat.leb_gt in Hend.
    replace (List.length sentences - WINDOW_SIZE - i)%nat
      with (S (List.length sentences - WINDOW_SIZE - (i + STRIDE)))%nat
      by (unfold STRIDE; lia).
    assert (Hrec : windowsFrom sentences (i + STRIDE)
                   = map (fun k => Str.slice sentences k (k + WINDOW_SIZE))
                       (seq (i + STRIDE)
                          (S (List.length sentences - WINDOW_SIZE - (i + STRIDE))))).
    { apply (IH (List.length sentences - (i + STRIDE))%nat).
      - unfold STRIDE. lia.
      - reflexivity.
      - unfold STRIDE, WINDOW_SIZE in *. lia. }
    rewrite Hrec. unfold STRIDE. rewrite Nat.add_1_r. reflexivity.
Qed.

(** X12: a text without sentence gives no chunk; a text of [n] sentences
    gives one chunk when [n] is at most [WINDOW_SIZE] and [n - WINDOW_SIZE +
    1] chunks otherwise, and chunk number [k] is made of the sentences from
    number [k] on, at most [WINDOW_SIZE] of them, joined by single spaces. *)
Theorem chunks_are_sliding_windows (text : string) :
  let sentences := sentencesOf text in
  let count :=
    match sentences with
    | [] => 0%nat
    | _ => S (List.length sentences - WINDOW_SIZE)
    end in
  List.length (chunkTextWithWindow text) = count /\
  map Chunk.text (chunkTextWithWindow text)
  = map (fun k => Str.join " " (firstn WINDOW_SIZE (skipn k sentences))) (seq 0 count).
Proof.
  intros sentences count. unfold chunkTextWithWindow. fold sentences.
  assert (Hwindows : windowsFrom sentences 0
                     = map (fun k => firstn WINDOW_SIZE (skipn k sentences)) (seq 0 count)).
  { unfold count. destruct sentences as [|s rest] eqn:E.
    - apply windowsFrom_none.
    - rewrite windowsFrom_closed_form by (simpl; lia).
      rewrite Nat.sub_0_r. apply map_ext. intros k. apply slice_window. }
  rewrite Hwindows, !length_map, length_seq. split; [reflexivity|].
  rewrite !map_map. reflexivity.
Qed.

Lemma string_append_assoc (a b c : string) : (a ++ b) ++ c = a ++ (b ++ c).
Proof. induction a as [|x a IH]; simpl; [reflexivity|now rewrite IH]. Qed.

Lemma string_append_nil_r (a : string) : a ++ "" = a.
Proof. induction a as [|x a IH]; simpl; [reflexivity|now rewrite IH]. Qed.

Lemma substring_prefix (a b : string) : substring 0 (String.length a) (a ++ b) = a.
Proof.
  induction a as [|x a IH]; simpl; [now destruct b|now rewrite IH].
Qed.

Lemma keepChars_append (p : ascii -> bool) (a b : string) :
  keepChars p (a ++ b) = keepChars p a ++ keepChars p b.
Proof.
  induction a as [|x a IH]; simpl; [reflexivity|].
  destruct (p x); simpl; now rewrite IH.
Qed.

Lemma keepChars_and (p q : ascii -> bool) (s : string) :
  keepChars (fun c => p c && q c) s = keepChars q (keepChars p s).
Proof.
  induction s as [|x s IH]; simpl; [reflexivity|].
  destruct (p x); simpl; [destruct (q x)|]; now rewrite IH.
Qed.

Lemma concat_cons (x : string) (xs : list string) :
  concat "" (x :: xs) = x ++ concat "" xs.
Proof.
  destruct xs as [|y ys]; simpl; [now rewrite string_append_nil_r|reflexivity].
Qed.

(** *** Positions of the matches *)

Section Reaches.

Variable ignoreCase : bool.

Lemma plusClass_reaches (p : ascii -> bool) (k : RegExp.cont) (s : string)
  (res : option ascii * string) :
  RegExp.plusClass p s k = Some res ->
  exists c pre prev' s', s = String c pre ++ s' /\ k prev' s' = Some res.
Proof.
  induction s as [|c s IH]; simpl; [discriminate|].
  destruct (p c); [|discriminate].
  destruct (RegExp.plusClass p s k) as [r|] eqn:E; simpl.
  - intros H. inversion H; subst r.
    destruct (IH eq_refl) as [c' [pre [prev' [s' [Hs Hk]]]]].
    exists c, (String c' pre), prev', s'. split; [simpl; now rewrite Hs|exact Hk].
  - intros H. exists c, "", (Some c), s. now split.
Qed.

Lemma literal_reaches (w : string) :
  forall prev s k res,
    RegExp.literal ignoreCase w prev s k = Some res -> reaches k s res.
Proof.
  induction w as [|a w IH]; intros prev s k res; simpl.
  - intros H. now exists "", prev, s.
  - destruct s as [|c s]; [discriminate|].
    destruct (RegExp.sameChar ignoreCase a c); [|discriminate].
    intros H. apply IH in H. destruct H as [pre [prev' [s' [Hs Hk]]]].
    exists (String c pre), prev', s'. split; [simpl; now rewrite Hs|exact Hk].
Qed.

Lemma run_reaches (r : RegExp.pattern) :
  forall prev s k res,
    RegExp.run ignoreCase r prev s k = Some res -> reaches k s res.
Proof.
  induction r as [p|p|p|w| | |r1 IH1 r2 IH2|r1 IH1 r2 IH2];
    intros prev s k res; cbn [RegExp.run].
  - unfold RegExp.oneOf. destruct s as [|c s]; [discriminate|].
    destruct (p c); [|discriminate]. intros H.
    now exists (String c ""), (Some c), s.
  - intros H. apply plusClass_reaches in H.
    destruct H as [c [pre [prev' [s' [Hs Hk]]]]]. now exists (String c pre), prev', s'.
  - unfold RegExp.orElse, RegExp.oneOf.
    destruct s as [|c s].
    + intros H. now exists "", prev, "".
    + destruct (p c).
      * destruct (k (Some c) s) as [r|] eqn:E.
        -- intros H. inversion H; subst r. now exists (String c ""), (Some c), s.
        -- intros H. now exists "", prev, (String c s).
      * intros H. now exists "", prev, (String c s).
  - apply literal_reaches.
  - destruct (RegExp.atWordBoundary prev s); [|discriminate].
    intros H. now exists "", prev, s.
  - destruct s; [|discriminate]. intros H. now exists "", prev, "".
  - intros H. apply IH1 in H. destruct H as [pre1 [prev1 [s1 [Hs1 H]]]].
    apply IH2 in H. destruct H as [pre2 [prev2 [s2 [Hs2 H]]]].
    exists (pre1 ++ pre2), prev2, s2. split; [|exact H].
    now rewrite Hs1, Hs2, string_append_assoc.
  - unfold RegExp.orElse.
    destruct (RegExp.run ignoreCase r1 prev s k) as [x|] eqn:E.
    + intros H. inversion H; subst x. now apply IH1 in E.
    + apply IH2.
Qed.

(** A match that starts at a position ends at a later position of the
    same string. *)
Lemma matchHere_suffix (r : RegExp.pattern) (prev : option ascii) (s : string)
  (prev' : option ascii) (rest : string) :
  RegExp.matchHere ignoreCase r prev s = Some (prev', rest) ->
  exists pre, s = pre ++ rest.
Proof.
  unfold RegExp.matchHere. intros H. apply run_reaches in H.
  destruct H as [pre [p' [s' [Hs Hk]]]]. inversion Hk; subst. now exists pre.
Qed.

Lemma plus_then_strict (p : ascii -> bool) (r : RegExp.pattern)
  (prev : option ascii) (s : string) (prev' : option ascii) (rest : string) :
  RegExp.matchHere ignoreCase (RegExp.Seq (RegExp.ClassPlus p) r) prev s
  = Some (prev', rest) ->
  exists c pre, s = String c pre ++ rest.
Proof.
  unfold RegExp.matchHere. cbn [RegExp.run]. intros H.
  apply plusClass_reaches in H. destruct H as [c [pre [p1 [s1 [Hs H]]]]].
  apply run_reaches in H. destruct H as [pre2 [p2 [s2 [Hs2 H]]]].
  inversion H; subst. exists c, (pre ++ pre2).
  cbn [append]. now rewrite string_append_assoc.
Qed.

(** Where every match takes at least one character and a character at
    which no match starts is not kept by [p], the matches hold the characters
    of the string that [p] keeps. *)
Section Keeps.

Variable r : RegExp.pattern.
Variable p : ascii -> bool.

Hypothesis Hstrict :
  forall prev s prev' rest,
    RegExp.matchHere ignoreCase r prev s = Some (prev', rest) ->
    exists c pre, s = String c pre ++ rest.

Hypothesis Hskip :
  forall prev c s,
    RegExp.matchHere ignoreCase r prev (String c s) = None -> p c = false.

Lemma matchAllFrom_keeps (prev : option ascii) (s : string) :
  keepChars p (concat "" (RegExp.matchAllFrom ignoreCase r prev s))
  = keepChars p s.
Proof.
  funelim (RegExp.matchAllFrom ignoreCase r prev s).
  - match goal with
    | e : RegExp.matchHere _ _ _ _ = Some _ |- _ =>
        destruct (@Hstrict _ _ _ _ e) as [c [pre Hs]]
    end.
    rewrite concat_cons, keepChars_append.
    match goal with IH : keepChars _ (concat _ _) = _ |- _ => rewrite IH end.
    assert (Hsub : substring 0 (String.length s - String.length rest) s
                   = String c pre).
    { rewrite Hs, string_length_append, Nat.add_sub. apply substring_prefix. }
    rewrite Hsub, Hs, keepChars_append. reflexivity.
  - reflexivity.
  - exfalso.
    match goal with
    | e : RegExp.matchHere _ _ _ _ = Some _ |- _ =>
        destruct (@Hstrict _ _ _ _ e) as [c' [pre Hs]]
    end.
    match goal with
    | e0 : (_ <? _)%nat = false |- _ => pose proof e0 as Hlen
    end.
    apply Nat.ltb_ge in Hlen. apply (f_equal String.length) in Hs.
    rewrite string_length_append in Hs. simpl in Hs, Hlen. lia.
  - reflexivity.
  - match goal with
    | e : RegExp.matchHere _ _ _ _ = None |- _ => pose proof (@Hskip _ _ _ e) as Hc
    end.
    cbn [keepChars]. rewrite Hc. assumption.
Qed.

End Keeps.

End Reaches.

(** *** The sentences of a text *)

Lemma matchHere_alt (ignoreCase : bool) (r1 r2 : RegExp.pattern)
  (prev : option ascii) (s : string) (res : option ascii * string) :
  RegExp.matchHere ignoreCase (RegExp.Alt r1 r2) prev s = Some res ->
  RegExp.matchHere ignoreCase r1 prev s = Some res \/
  RegExp.matchHere ignoreCase r2 prev s = Some res.
Proof.
  unfold RegExp.matchHere. cbn [RegExp.run]. unfold RegExp.orElse.
  destruct (RegExp.run ignoreCase r1 prev s _) as [x|]; [now left|now right].
Qed.

Lemma sentence_match_strict (prev : option ascii) (s : string)
  (prev' : option ascii) (rest : string) :
  RegExp.matchHere false sentenceRegex prev s = Some (prev', rest) ->
  exists c pre, s = String c pre ++ rest.
Proof.
  unfold sentenceRegex. intros H. apply matchHere_alt in H.
  destruct H as [H|H]; now apply plus_then_strict in H.
Qed.

Lemma sentence_match_starts (prev : option ascii) (c : ascii) (s : string) :
  RegExp.matchHere false sentenceRegex prev (String c s) = None ->
  negb (isSentenceEnd c) = false.
Proof.
  destruct (negb (isSentenceEnd c)) eqn:Hc; [|reflexivity]. intros Hnone. exfalso.
  pose (final := fun (prev' : option ascii) (s' : string) => Some (prev', s')).
  pose (kA := fun (prev' : option ascii) (s' : string) =>
                RegExp.plusClass isSentenceEnd s'
                  (fun prev'0 s'0 =>
                     RegExp.orElse (RegExp.oneOf isQuote s'0 final) (final prev'0 s'0))).
  pose (kB := fun (prev' : option ascii) (s' : string) =>
                match s' with EmptyString => final prev' s' | String _ _ => None end).
  change (RegExp.orElse
            (RegExp.plusClass (fun c => negb (isSentenceEnd c)) (String c s) kA)
            (RegExp.plusClass (fun c => negb (isSentenceEnd c)) (String c s) kB)
          = None) in Hnone.
  revert Hnone.
  assert (HA : forall prev' d t, isSentenceEnd d = true -> kA prev' (String d t) <> None).
  { intros prev' d t Hd. unfold kA. cbn [RegExp.plusClass]. rewrite Hd.
    unfold RegExp.orElse at 1.
    destruct (RegExp.plusClass isSentenceEnd t _); [discriminate|].
    unfold RegExp.orElse, final. destruct (RegExp.oneOf isQuote t _); discriminate. }
  assert (Hmain : forall t d, negb (isSentenceEnd d) = true ->
            RegExp.plusClass (fun c => negb (isSentenceEnd c)) (String d t) kA <> None \/
            RegExp.plusClass (fun c => negb (isSentenceEnd c)) (String d t) kB <> None).
  { induction t as [|d' t IH]; intros d Hd.
    - right. cbn [RegExp.plusClass]. rewrite Hd. discriminate.
    - destruct (negb (isSentenceEnd d')) eqn:Hd'.
      + destruct (IH d' Hd') as [H|H]; [left|right];
          remember (String d' t) as u; cbn [RegExp.plusClass]; rewrite Hd;
          unfold RegExp.orElse;
          match goal with
          | |- match ?a with _ => _ end <> None => destruct a; [discriminate|now elim H]
          end.
      + left. cbn [RegExp.plusClass]. rewrite Hd, Hd'. unfold RegExp.orElse.
        apply HA. now apply negb_false_iff in Hd'. }
  intros Hnone. unfold RegExp.orElse in Hnone.
  destruct (Hmain s c Hc) as [H|H].
  - destruct (RegExp.plusClass (fun c => negb (isSentenceEnd c)) (String c s) kA);
      [discriminate|now elim H].
  - destruct (RegExp.plusClass (fun c => negb (isSentenceEnd c)) (String c s) kA);
      [discriminate|contradiction].
Qed.

Lemma keepChars_trimStart (p : ascii -> bool) (s : string) :
  (forall c, Str.isWhiteSpace c = true -> p c = false) ->
  keepChars p (Str.trimStart s) = keepChars p s.
Proof.
  intros Hp. induction s as [|c s IH]; simpl; [reflexivity|].
  destruct (Str.isWhiteSpace c) eqn:Hc; [|reflexivity].
  now rewrite (Hp c Hc).
Qed.

Lemma keepChars_trimEnd (p : ascii -> bool) (s : string) :
  (forall c, Str.isWhiteSpace c = true -> p c = false) ->
  keepChars p (Str.trimEnd s) = keepChars p s.
Proof.
  intros Hp. induction s as [|c s IH]; simpl; [reflexivity|].
  destruct (Str.trimEnd s) as [|d t] eqn:E.
  - destruct (Str.isWhiteSpace c) eqn:Hc.
    + rewrite (Hp c Hc). now rewrite <- IH.
    + simpl. now rewrite <- IH.
  - change (keepChars p (String c (String d t)))
      with (if p c then String c (keepChars p (String d t))
            else keepChars p (String d t)).
    now rewrite IH.
Qed.

Lemma keepChars_trimmed (p : ascii -> bool) (ms : list string) :
  (forall c, Str.isWhiteSpace c = true -> p c = false) ->
  keepChars p
    (concat "" (filter (fun s => 0 <? String.length s)%nat (map Str.trim ms)))
  = keepChars p (concat "" ms).
Proof.
  intros Hp. induction ms as [|m ms IH]; [reflexivity|].
  cbn [map filter]. rewrite (concat_cons m), keepChars_append, <- IH.
  assert (Htrim : keepChars p (Str.trim m) = keepChars p m).
  { unfold Str.trim. now rewrite keepChars_trimEnd, keepChars_trimStart. }
  destruct (0 <? String.length (Str.trim m))%nat eqn:E.
  - now rewrite concat_cons, keepChars_append, Htrim.
  - apply Nat.ltb_ge in E. destruct (Str.trim m); [|simpl in E; lia].
    now rewrite <- Htrim.
Qed.

(** X13: cutting a text into sentences loses none of its content: the
    characters that are neither white space nor sentence punctuation are
    the same, in the same order, in the sentences as in the text. *)
Theorem sentences_keep_the_content (text : string) :
  keepChars isContent (concat "" (sentencesOf text)) = keepChars isContent text.
Proof.
  unfold sentencesOf, RegExp.matchAll.
  pose proof (@matchAllFrom_keeps false sentenceRegex
                (fun c => negb (isSentenceEnd c))
                sentence_match_strict sentence_match_starts None text) as Hkeep.
  destruct (RegExp.matchAllFrom false sentenceRegex None text) as [|m ms];
    [simpl; now rewrite string_append_nil_r || reflexivity|].
  assert (Hws : forall c, Str.isWhiteSpace c = true -> isContent c = false).
  { intros c Hc. unfold isContent. rewrite Hc. apply andb_false_r. }
  rewrite (keepChars_trimmed isContent (m :: ms) Hws).
  unfold isContent.
  rewrite (keepChars_and (fun c => negb (isSentenceEnd c))
             (fun c => negb (Str.isWhiteSpace c))).
  rewrite Hkeep.
  now rewrite <- (keepChars_and (fun c => negb (isSentenceEnd c))
                    (fun c => negb (Str.isWhiteSpace c))).
Qed.

(** ** More on the classifier *)

Lemma upperChar_idempotent (c : ascii) :
  RegExp.upperChar (RegExp.upperChar c) = RegExp.upperChar c.
Proof. destruct c as [[] [] [] [] [] [] [] []]; reflexivity. Qed.

Lemma isWordChar_upperChar (c : ascii) :
  RegExp.isWordChar (RegExp.upperChar c) = RegExp.isWordChar c.
Proof. destruct c as [[] [] [] [] [] [] [] []]; reflexivity. Qed.

Lemma sameChar_upperChar (a c : ascii) :
  RegExp.sameChar true a (RegExp.upperChar c) = RegExp.sameChar true a c.
Proof. unfold RegExp.sameChar. now rewrite upperChar_idempotent. Qed.

Lemma atWordBoundary_upper (prev : option ascii) (s : string) :
  RegExp.atWordBoundary (option_map RegExp.upperChar prev) (asciiUpper s)
  = RegExp.atWordBoundary prev s.
Proof.
  unfold RegExp.atWordBoundary. f_equal.
  - destruct prev as [c|]; simpl; [apply isWordChar_upperChar|reflexivity].
  - destruct s as [|c s]; simpl; [reflexivity|apply isWordChar_upperChar].
Qed.

Lemma literal_upper (w : string) :
  forall prev s k k',
    sameSuccess k k' ->
    isSome (RegExp.literal true w (option_map RegExp.upperChar prev) (asciiUpper s) k')
    = isSome (RegExp.literal true w prev s k).
Proof.
  induction w as [|a w IH]; intros prev s k k' Hk; cbn [RegExp.literal];
    [apply Hk|].
  destruct s as [|c s]; [reflexivity|].
  change (asciiUpper (String c s)) with (String (RegExp.upperChar c) (asciiUpper s)).
  cbn [RegExp.literal].
  rewrite sameChar_upperChar. destruct (RegExp.sameChar true a c); [|reflexivity].
  apply (IH (Some c) s k k' Hk).
Qed.

Lemma run_upper (r : RegExp.pattern) :
  wordPattern r ->
  forall prev s k k',
    sameSuccess k k' ->
    isSome (RegExp.run true r (option_map RegExp.upperChar prev) (asciiUpper s) k')
    = isSome (RegExp.run true r prev s k).
Proof.
  induction 1 as [w| |r1 r2 _ IH1 _ IH2|r1 r2 _ IH1 _ IH2];
    intros prev s k k' Hk; cbn [RegExp.run].
  - now apply literal_upper.
  - rewrite atWordBoundary_upper.
    destruct (RegExp.atWordBoundary prev s); [apply Hk|reflexivity].
  - apply IH1. intros p' s'. now apply IH2.
  - unfold RegExp.orElse.
    pose proof (IH1 prev s k k' Hk) as H1. pose proof (IH2 prev s k k' Hk) as H2.
    destruct (RegExp.run true r1 (option_map RegExp.upperChar prev) (asciiUpper s) k'),
      (RegExp.run true r1 prev s k); simpl in *; congruence.
Qed.

Lemma searchFrom_upper (r : RegExp.pattern) :
  wordPattern r ->
  forall s prev,
    RegExp.searchFrom true r (option_map RegExp.upperChar prev) (asciiUpper s)
    = RegExp.searchFrom true r prev s.
Proof.
  intros Hr.
  assert (Hhere : forall prev s,
            isSome (RegExp.matchHere true r (option_map RegExp.upperChar prev)
                      (asciiUpper s))
            = isSome (RegExp.matchHere true r prev s)).
  { intros prev s. unfold RegExp.matchHere. apply run_upper; [exact Hr|].
    intros p' s'. reflexivity. }
  induction s as [|c s IH]; intros prev.
  - cbn [RegExp.searchFrom asciiUpper mapChars]. specialize (Hhere prev "").
    cbn [asciiUpper mapChars] in Hhere.
    destruct (RegExp.matchHere true r (option_map RegExp.upperChar prev) ""),
      (RegExp.matchHere true r prev ""); simpl in Hhere; congruence.
  - specialize (Hhere prev (String c s)). specialize (IH (Some c)).
    cbn [RegExp.searchFrom]. change (asciiUpper (String c s))
      with (String (RegExp.upperChar c) (asciiUpper s)) in *.
    cbn [RegExp.searchFrom].
    destruct (RegExp.matchHere true r (option_map RegExp.upperChar prev)
                (String (RegExp.upperChar c) (asciiUpper s))),
      (RegExp.matchHere true r prev (String c s)); simpl in Hhere;
      try congruence; try reflexivity.
    exact IH.
Qed.

Lemma anyOf_wordPattern (w : string) (ws : list string) : wordPattern (anyOf w ws).
Proof.
  revert w. induction ws as [|w' ws IH]; intros w; simpl; constructor;
    [constructor|apply IH].
Qed.

Lemma QUESTION_PATTERNS_words :
  forall entry, In entry QUESTION_PATTERNS -> wordPattern (snd entry).
Proof.
  intros entry Hin. unfold QUESTION_PATTERNS in Hin. simpl in Hin.
  repeat (destruct Hin as [<-|Hin];
          [simpl; unfold wholeWords;
           repeat (constructor; try apply anyOf_wordPattern)|]).
  destruct Hin.
Qed.

Lemma detectQuestionIntent_upper (query : string) :
  detectQuestionIntent (asciiUpper query) = detectQuestionIntent query.
Proof.
  rewrite !detectQuestionIntent_unfold. unfold matchingIntents.
  replace (filter (fun entry => RegExp.test true (snd entry) (asciiUpper query))
             QUESTION_PATTERNS)
    with (filter (fun entry => RegExp.test true (snd entry) query) QUESTION_PATTERNS);
    [reflexivity|].
  apply filter_ext_in. intros entry Hin. unfold RegExp.test. symmetry.
  apply (searchFrom_upper (@QUESTION_PATTERNS_words entry Hin) query None).
Qed.

(** X14: the intent classifier ignores the case of ASCII letters: two
    queries that agree once their ASCII letters are put in upper case get
    the same intents. *)
Theorem intents_ignore_case (query1 query2 : string) :
  asciiUpper query1 = asciiUpper query2 ->
  detectQuestionIntent query1 = detectQuestionIntent query2.
Proof.
  intros H. rewrite <- (detectQuestionIntent_upper query1), H.
  apply detectQuestionIntent_upper.
Qed.

Lemma intents_ignore_case_witness :
  asciiUpper "WHAT IS the Source?" = asciiUpper "what is THE source?" /\
  detectQuestionIntent "WHAT IS the Source?" = ["definition"; "origin"] /\
  detectQuestionIntent "WHAT IS the Source?"
  = detectQuestionIntent "what is THE source?".
Proof.
  assert (Hupper : asciiUpper "WHAT IS the Source?" = asciiUpper "what is THE source?")
    by (vm_compute; reflexivity).
  split; [exact Hupper|]. split; [vm_compute; reflexivity|].
  exact (@intents_ignore_case "WHAT IS the Source?" "what is THE source?" Hupper).
Defined.

(** ** The re-ranking and the hybrid scores *)

(** X15: the heuristic boost cannot reverse a gap of three tenths or more:
    a hit whose hybrid score exceeds that of another hit by at least 0.3 has
    a final score at least as high, whatever the intents and the texts. *)
Theorem boost_keeps_large_gaps (intents : list string) (a b : Hit.t) :
  Hit.score b + (3 # 10) <= Hit.score a ->
  finalScoreOf intents b <= finalScoreOf intents a.
Proof.
  intros Hgap. unfold finalScoreOf.
  pose proof (calculateHeuristicBoost_range (Doc.text (Hit.document a)) intents).
  pose proof (calculateHeuristicBoost_range (Doc.text (Hit.document b)) intents).
  lra.
Qed.

Lemma boost_keeps_large_gaps_witness :
  let intents := detectQuestionIntent "How can I improve my intuition?" in
  let a := {| Hit.score := 1 # 2;
              Hit.document := Sample.chunk "s1_1" "s1" "nothing here" |} in
  let b := {| Hit.score := 1 # 10;
              Hit.document :=
                Sample.chunk "s2_1" "s2" "you learn to trust it by practice" |} in
  Hit.score b + (3 # 10) <= Hit.score a /\
  0 < calculateHeuristicBoost (Doc.text (Hit.document b)) intents /\
  finalScoreOf intents b <= finalScoreOf intents a.
Proof.
  intros intents a b.
  assert (Hgap : Hit.score b + (3 # 10) <= Hit.score a)
    by (vm_compute; discriminate).
  split; [exact Hgap|]. split; [vm_compute; reflexivity|].
  exact (@boost_keeps_large_gaps intents a b Hgap).
Defined.

(** ** The score map of the transcript view *)

Lemma set_fresh {V : Type} (k : string) (v : V) (m : StringMap.t V) :
  ~ In k (map fst m) -> StringMap.set k v m = (m ++ [(k, v)])%list.
Proof.
  induction m as [|[k0 v0] m IH]; simpl; intros Hk; [reflexivity|].
  destruct (String.eqb k0 k) eqn:E.
  - apply String.eqb_eq in E. elim Hk. now left.
  - rewrite IH; [reflexivity|]. intros Hin. apply Hk. now right.
Qed.

Lemma searchResultMap_distinct (results : list (Result.t JS.number)) :
  NoDup (map (@segmentIdOf JS.number) results) ->
  searchResultMap results
  = map (fun r => (segmentIdOf r, Result.score r)) results.
Proof.
  unfold searchResultMap.
  assert (Hgen : forall m,
            NoDup (map fst m ++ map (@segmentIdOf JS.number) results) ->
            fold_left
              (fun map result =>
                 StringMap.set (Segment.id (Result.segment result))
                   (Result.score result) map) results m
            = (m ++ map (fun r => (segmentIdOf r, Result.score r)) results)%list).
  { induction results as [|r results IH]; intros m Hnd; simpl;
      [now rewrite app_nil_r|].
    rewrite set_fresh.
    - rewrite IH.
      + now rewrite <- app_assoc.
      + rewrite map_app. cbn [map fst]. rewrite <- app_assoc. exact Hnd.
    - apply NoDup_remove_2 in Hnd. intros Hin. apply Hnd.
      apply in_or_app. now left. }
  intros Hnd. now apply (Hgen []).
Qed.

Lemma get_in_NoDup {V : Type} (k : string) (v : V) (m : StringMap.t V) :
  NoDup (map fst m) -> In (k, v) m -> StringMap.get k m = Some v.
Proof.
  unfold StringMap.get. induction m as [|[k0 v0] m IH]; simpl; intros Hnd;
    [intros []|].
  inversion Hnd as [|? ? Hnotin Hnd']; subst. intros [H|H].
  - inversion H; subst. now rewrite String.eqb_refl.
  - destruct (String.eqb k0 k) eqn:E; [|now apply IH].
    apply String.eqb_eq in E. subst k0. elim Hnotin. now apply (in_map fst) in H.
Qed.

(** X16: the score map that the transcript view builds out of posted search
    results has one entry per result; looking up the id of the segment of a
    result gives the score of this result, and a lookup that succeeds gives
    the score of a result with this segment id. *)
Theorem score_map_holds_every_result (Orama : Type)
  (search : Orama -> Query.t -> outcome (list Hit.t)) (st : State Orama)
  (query : string) (limit : Z) (results : list (Result.t JS.number)) (q : string) :
  In (PostMessage (SearchResults results q)) (semanticSearch search st query limit) ->
  List.length (searchResultMap results) = List.length results /\
  (forall r, In r results ->
     StringMap.get (Segment.id (Result.segment r)) (searchResultMap results)
     = Some (Result.score r)) /\
  (forall id score,
     StringMap.get id (searchResultMap results) = Some score ->
     exists r, In r results /\ Segment.id (Result.segment r) = id /\
               Result.score r = score).
Proof.
  intros Hposted.
  assert (Hnd : NoDup (map (@segmentIdOf JS.number) results)).
  { apply semanticSearch_results in Hposted.
    destruct Hposted as [embedder [db [v [hits [_ [_ [_ [_ [-> _]]]]]]]]].
    destruct (rankedResults_spec (detectQuestionIntent query) hits limit) as [H _].
    unfold segmentIdOf. now rewrite <- map_map, normalizeScores_segments, map_map. }
  rewrite (searchResultMap_distinct results Hnd).
  assert (Hkeys : map fst (map (fun r : Result.t JS.number =>
                                  (segmentIdOf r, Result.score r)) results)
                  = map (@segmentIdOf JS.number) results)
    by (now rewrite map_map).
  split; [now rewrite length_map|]. split.
  - intros r Hr. apply get_in_NoDup; [now rewrite Hkeys|].
    apply in_map_iff. now exists r.
  - intros id score Hget. apply get_Some_in in Hget. apply in_map_iff in Hget.
    destruct Hget as [r [Heq Hr]]. inversion Heq. now exists r.
Qed.

Lemma score_map_holds_every_result_witness :
  exists results,
    In (PostMessage (SearchResults results "How can I improve my intuition?"))
       (semanticSearch Sample.engine (Sample.ready Sample.hits)
          "How can I improve my intuition?" 10) /\
    map fst (searchResultMap results) = ["s1"; "s2"] /\
    List.length (searchResultMap results) = List.length results /\
    (forall r, In r results ->
       StringMap.get (Segment.id (Result.segment r)) (searchResultMap results)
       = Some (Result.score r)) /\
    (forall id score,
       StringMap.get id (searchResultMap results) = Some score ->
       exists r, In r results /\ Segment.id (Result.segment r) = id /\
                 Result.score r = score).
Proof.
  exists (normalizeScores
            (rankedResults (detectQuestionIntent "How can I improve my intuition?")
               Sample.hits 10)).
  assert (Hresults :
            In (PostMessage
                  (SearchResults
                     (normalizeScores
                        (rankedResults
                           (detectQuestionIntent "How can I improve my intuition?")
                           Sample.hits 10)) "How can I improve my intuition?"))
               (semanticSearch Sample.engine (Sample.ready Sample.hits)
                  "How can I improve my intuition?" 10))
    by (vm_compute; findIn).
  split; [exact Hresults|]. split; [vm_compute; reflexivity|].
  exact (@score_map_holds_every_result _ Sample.engine (Sample.ready Sample.hits)
           "How can I improve my intuition?" 10 _
           "How can I improve my intuition?" Hresults).
Defined.

(** ** The worker as a whole *)

Section MachineFacts.

Variable Orama : Type.

Lemma createProgressCallback_posts (stage : string) (info : ProgressInfo.t)
  (e : Effect) :
  In e (createProgressCallback stage info) ->
  exists progress text, e = Post (ProgressMessage stage progress text).
Proof.
  unfold createProgressCallback. intros Hin.
  assert (Hrest :
            In e (if String.eqb (ProgressInfo.status info) "done"
                  then [Post (ProgressMessage stage 100 "Model loaded successfully")]
                  else if String.eqb (ProgressInfo.status info) "initiate"
                  then [Post (ProgressMessage stage 0
                                ("Initializing "
                                 ++ orModel (ProgressInfo.file info) ++ "..."))]
                  else []) ->
            exists progress text, e = Post (ProgressMessage stage progress text)).
  { destruct (String.eqb (ProgressInfo.status info) "done");
      [intros [<-|[]]; now eexists; eexists|].
    destruct (String.eqb (ProgressInfo.status info) "initiate");
      [intros [<-|[]]; now eexists; eexists|intros []]. }
  destruct (String.eqb (ProgressInfo.status info) "progress");
    [|exact (Hrest Hin)].
  destruct (ProgressInfo.progress info) as [p|]; [|exact (Hrest Hin)].
  destruct Hin as [<-|[]]. now eexists; eexists.
Qed.

Lemma reports_post (stage : string) (reports : list ProgressInfo.t) (e : Effect) :
  In e (flat_map (createProgressCallback stage) reports) ->
  exists progress text, e = Post (ProgressMessage stage progress text).
Proof.
  intros Hin. apply in_flat_map in Hin. destruct Hin as [info [_ Hin]].
  exact (createProgressCallback_posts stage info e Hin).
Qed.

Lemma checkWebGPUSupport_cases (gpu : option (outcome (option unit))) :
  (forall e, In e (fst (checkWebGPUSupport gpu)) -> e = RequestAdapter) /\
  (snd (checkWebGPUSupport gpu) = true <->
   exists adapter, gpu = Some (Returns (Some adapter))).
Proof.
  split.
  - destruct gpu as [answer|]; simpl; [intros e [<-|[]]; reflexivity|intros e []].
  - destruct gpu as [[[adapter|]|e]|]; simpl; split;
      try discriminate; try (intros [a H]; discriminate H); try reflexivity.
    intros _. now exists adapter.
Qed.

Lemma loadModels_cases (env : Env.t Orama) (st : WorkerState Orama) :
  let hasWebGPU := snd (checkWebGPUSupport (Env.gpu env)) in
  let device := fst (embedderTarget hasWebGPU) in
  let dtype := snd (embedderTarget hasWebGPU) in
  exists effects last,
    fst (loadModels env st) = (effects ++ [Post last])%list /\
    Forall isLoadingEffect effects /\
    (forall task model device' dtype',
        In (LoadPipeline task model device' dtype') effects ->
        (task = "automatic-speech-recognition" /\ model = ASR_MODEL /\
         device' = "wasm" /\ dtype' = "q8") \/
        (task = "feature-extraction" /\ model = EMBEDDER_MODEL /\
         device' = device /\ dtype' = dtype)) /\
    currentDevice (snd (loadModels env st)) = device /\
    ((exists reports1 asr reports2 embedder db,
         Env.pipelineAsr env "wasm" "q8" = (reports1, Returns asr) /\
         Env.pipelineEmbedder env device dtype = (reports2, Returns embedder) /\
         Env.create env = Returns db /\
         last = ReadyMessage device ASR_MODEL EMBEDDER_MODEL /\
         models (snd (loadModels env st))
         = {| asrPipeline := Some asr;
              searchState :=
                {| embedderPipeline := Some embedder; oramaDb := Some db |} |}) \/
     (exists e,
         last = SearchMessage (Error (errorMessage e "Unknown error") "load") /\
         oramaDb (searchState (models (snd (loadModels env st))))
         = oramaDb (searchState (models st)) /\
         ((exists reports, Env.pipelineAsr env "wasm" "q8" = (reports, Throws e)) \/
          (exists reports,
              Env.pipelineEmbedder env device dtype = (reports, Throws e)) \/
          Env.create env = Throws e))).
Proof.
  intros hasWebGPU device dtype. unfold loadModels.
  destruct (checkWebGPUSupport_cases (Env.gpu env)) as [Hprobe _].
  fold hasWebGPU. 
  destruct (checkWebGPUSupport (Env.gpu env)) as [probe has] eqn:Hcheck.
  cbn [fst snd] in *. subst hasWebGPU.
  assert (Htarget : (if String.eqb (if has then "webgpu" else "wasm") "webgpu"
                     then "fp16" else "q8") = dtype /\
                    (if has then "webgpu" else "wasm") = device)
    by (unfold dtype, device, embedderTarget; destruct has; split; reflexivity).
  destruct Htarget as [Hdtype Hdevice]. rewrite Hdtype, Hdevice.
  assert (HprobeOk : Forall isLoadingEffect probe).
  { apply Forall_forall. intros e He. now rewrite (Hprobe e He). }
  assert (HprobeNo : forall task model device' dtype',
             ~ In (LoadPipeline task model device' dtype') probe).
  { intros ? ? ? ? He. apply Hprobe in He. discriminate He. }
  assert (Hreports : forall stage reports,
             stage = "loading-asr" \/ stage = "loading-embedder" ->
             Forall isLoadingEffect (flat_map (createProgressCallback stage) reports)).
  { intros stage reports Hstage. apply Forall_forall. intros e He.
    apply reports_post in He. destruct He as [p [text ->]]. exact Hstage. }
  assert (HreportsNo : forall stage reports task model device' dtype',
             ~ In (LoadPipeline task model device' dtype')
                 (flat_map (createProgressCallback stage) reports)).
  { intros stage reports ? ? ? ? He. apply reports_post in He.
    destruct He as [p [text He]]. discriminate He. }
  assert (HloadPipelines : forall reports1 rest task model device' dtype',
             (forall task model device' dtype',
                 In (LoadPipeline task model device' dtype') rest ->
                 task = "feature-extraction" /\ model = EMBEDDER_MODEL /\
                 device' = device /\ dtype' = dtype) ->
             In (LoadPipeline task model device' dtype')
               ((probe ++
                 [Post (ProgressMessage "loading-asr" 5 "Loading Whisper ASR (CPU)...");
                  LoadPipeline "automatic-speech-recognition" ASR_MODEL "wasm" "q8"] ++
                 flat_map (createProgressCallback "loading-asr") reports1) ++ rest)%list ->
             (task = "automatic-speech-recognition" /\ model = ASR_MODEL /\
              device' = "wasm" /\ dtype' = "q8") \/
             (task = "feature-extraction" /\ model = EMBEDDER_MODEL /\
              device' = device /\ dtype' = dtype)).
  { intros reports1 rest task model device' dtype' Hrest Hin.
    apply in_app_or in Hin. destruct Hin as [Hin|Hin]; [|right; now apply Hrest].
    apply in_app_or in Hin. destruct Hin as [Hin|Hin]; [now apply HprobeNo in Hin|].
    apply in_app_or in Hin. destruct Hin as [Hin|Hin]; [|now apply HreportsNo in Hin].
    destruct Hin as [H|[H|[]]]; [discriminate H|].
    inversion H; subst. left. now repeat split. }
  assert (HloadEmbedder : forall reports2 rest task model device' dtype',
             (forall task model device' dtype',
                 ~ In (LoadPipeline task model device' dtype') rest) ->
             In (LoadPipeline task model device' dtype')
               (([Post (ProgressMessage "loading-embedder" 0
                          ("Loading Embedder (" ++ asciiUpper device ++ ")..."));
                  LoadPipeline "feature-extraction" EMBEDDER_MODEL device dtype] ++
                 flat_map (createProgressCallback "loading-embedder") reports2)
                ++ rest)%list ->
             task = "feature-extraction" /\ model = EMBEDDER_MODEL /\
             device' = device /\ dtype' = dtype).
  { intros reports2 rest task model device' dtype' Hrest Hin.
    apply in_app_or in Hin. destruct Hin as [Hin|Hin]; [|now apply Hrest in Hin].
    apply in_app_or in Hin. destruct Hin as [Hin|Hin]; [|now apply HreportsNo in Hin].
    destruct Hin as [H|[H|[]]]; [discriminate H|].
    inversion H; subst. now repeat split. }
  destruct (Env.pipelineAsr env "wasm" "q8") as [reports1 [asr|e]] eqn:Hasr.
  - destruct (Env.pipelineEmbedder env device dtype) as [reports2 [embedder|e]] eqn:Hemb.
    + destruct (Env.create env) as [db|e] eqn:Hdb; cbn [fst snd].
      * eexists
          (((probe ++
             [Post (ProgressMessage "loading-asr" 5 "Loading Whisper ASR (CPU)...");
              LoadPipeline "automatic-speech-recognition" ASR_MODEL "wasm" "q8"] ++
             flat_map (createProgressCallback "loading-asr") reports1) ++
            [Post (ProgressMessage "loading-embedder" 0
                     ("Loading Embedder (" ++ asciiUpper device ++ ")..."));
             LoadPipeline "feature-extraction" EMBEDDER_MODEL device dtype] ++
            flat_map (createProgressCallback "loading-embedder") reports2) ++
           [CreateDb])%list.
        eexists. split; [now rewrite <- !app_assoc|].
        split; [|split; [|split; [reflexivity|]]].
        -- repeat (apply Forall_app; split); repeat (apply Forall_cons);
             try apply Forall_nil; try assumption; try (apply Hreports; auto);
             simpl; auto.
        -- intros task model device' dtype' Hin. rewrite <- app_assoc in Hin.
           revert Hin. apply HloadPipelines. intros ? ? ? ? Hin.
           revert Hin. apply HloadEmbedder. intros ? ? ? ? [H|[]]. discriminate H.
        -- left. exists reports1, asr, reports2, embedder, db. now repeat split.
      * eexists
          (((probe ++
             [Post (ProgressMessage "loading-asr" 5 "Loading Whisper ASR (CPU)...");
              LoadPipeline "automatic-speech-recognition" ASR_MODEL "wasm" "q8"] ++
             flat_map (createProgressCallback "loading-asr") reports1) ++
            [Post (ProgressMessage "loading-embedder" 0
                     ("Loading Embedder (" ++ asciiUpper device ++ ")..."));
             LoadPipeline "feature-extraction" EMBEDDER_MODEL device dtype] ++
            flat_map (createProgressCallback "loading-embedder") reports2) ++
           [CreateDb])%list.
        eexists. split; [unfold loadError; now rewrite <- !app_assoc|].
        split; [|split; [|split; [reflexivity|]]].
        -- repeat (apply Forall_app; split); repeat (apply Forall_cons);
             try apply Forall_nil; try assumption; try (apply Hreports; auto);
             simpl; auto.
        -- intros task model device' dtype' Hin. rewrite <- app_assoc in Hin.
           revert Hin. apply HloadPipelines. intros ? ? ? ? Hin.
           revert Hin. apply HloadEmbedder. intros ? ? ? ? [H|[]]. discriminate H.
        -- right. exists e. split; [reflexivity|]. split; [reflexivity|].
           right. now right.
    + cbn [fst snd]. eexists. eexists. split; [unfold loadError; reflexivity|].
      split; [|split; [|split; [reflexivity|]]].
      * repeat (apply Forall_app; split); repeat (apply Forall_cons);
             try apply Forall_nil; try assumption; try (apply Hreports; auto);
             simpl; auto.
      * intros task model device' dtype' Hin.
        revert Hin. apply HloadPipelines. intros ? ? ? ? Hin.
        apply (HloadEmbedder reports2 []); [intros ? ? ? ? []|].
        now rewrite app_nil_r.
      * right. exists e. split; [reflexivity|]. split; [reflexivity|].
        right. left. now exists reports2.
  - cbn [fst snd]. eexists. eexists. split; [unfold loadError; reflexivity|].
    split; [|split; [|split; [reflexivity|]]].
    + repeat (apply Forall_app; split); repeat (apply Forall_cons);
             try apply Forall_nil; try assumption; try (apply Hreports; auto);
             simpl; auto.
    + intros task model device' dtype' Hin.
      apply (HloadPipelines reports1 []); [intros ? ? ? ? []|].
      now rewrite app_nil_r.
    + right. exists e. split; [reflexivity|]. split; [reflexivity|].
      left. now exists reports1.
Qed.

End MachineFacts.

Lemma loadModels_monotone (Orama : Type) (env : Env.t Orama)
  (st : WorkerState Orama) :
  (isSome (asrPipeline (models st)) = true ->
   isSome (asrPipeline (models (snd (loadModels env st)))) = true) /\
  (isSome (embedderPipeline (searchState (models st))) = true ->
   isSome (embedderPipeline (searchState (models (snd (loadModels env st))))) = true) /\
  (isSome (oramaDb (searchState (models st))) = true ->
   isSome (oramaDb (searchState (models (snd (loadModels env st))))) = true).
Proof.
  unfold loadModels.
  destruct (checkWebGPUSupport (Env.gpu env)) as [probe has].
  destruct (Env.pipelineAsr env "wasm" "q8") as [reports1 [asr|e]];
    [|cbn; tauto].
  destruct (Env.pipelineEmbedder env _ _) as [reports2 [embedder|e]];
    [|cbn; tauto].
  destruct (Env.create env) as [db|e]; cbn; tauto.
Qed.

Lemma last_unique {A : Type} (xs ys : list A) (x y : A) :
  (xs ++ [x] = ys ++ [y])%list -> xs = ys /\ x = y.
Proof. intros H. apply app_inj_tail in H. exact H. Qed.

Lemma onmessage_keeps_loaded (Orama : Type) (env : Env.t Orama)
  (st : WorkerState Orama) (request : WorkerInputMessage) :
  isLoaded st -> isLoaded (stateAfter st (onmessage env st request)).
Proof.
  intros Hst. destruct request as [|audioSamples duration|query limit|];
    unfold stateAfter, onmessage; try exact Hst.
  - destruct (loadModels_monotone env st) as [Hasr [Hemb Hdb]].
    destruct (loadModels env st) as [effects st']. cbn [snd] in *.
    destruct Hst as [H1 [H2 H3]]. repeat split; auto.
  - unfold clearDatabase, Tr.bind, Tr.call, Tr.emit, Tr.ret.
    destruct (Env.create env) as [db|e]; cbn [snd]; [|exact Hst].
    destruct Hst as [H1 [H2 H3]]. repeat split; assumption.
Qed.

Lemma handleAll_keeps_loaded (Orama : Type)
  (requests : list (Env.t Orama * WorkerInputMessage)) :
  forall st, isLoaded st -> isLoaded (snd (handleAll requests st)).
Proof.
  induction requests as [|[env request] requests IH]; intros st Hst; [exact Hst|].
  cbn [handleAll].
  specialize (IH _ (onmessage_keeps_loaded env request Hst)).
  destruct (handleAll requests (stateAfter st (onmessage env st request))).
  exact IH.
Qed.

Lemma tryCatch_call_head {A : Type} (e : Effect) (answer : outcome A)
  (f : A -> Tr.t unit) (handler : option string -> Tr.t unit) :
  hd_error (Tr.tryCatch (Tr.bind (Tr.call e answer) f) handler) = Some e.
Proof.
  unfold Tr.tryCatch, Tr.bind, Tr.call.
  destruct answer as [a|err]; [|reflexivity].
  destruct (f a) as [effects [x|err]]; reflexivity.
Qed.

(** X17: no request unloads a model.  After any sequence of requests
    handled one after the other, a worker whose three models were there
    still has them; a transcription request then starts by running the
    speech recognizer and a search request by running the embedder. *)
Theorem loaded_worker_stays_loaded (Orama : Type)
  (requests : list (Env.t Orama * WorkerInputMessage)) (st : WorkerState Orama) :
  isLoaded st ->
  let st' := snd (handleAll requests st) in
  isLoaded st' /\
  (forall env audioSamples duration,
      hd_error (fst (onmessage env st' (TranscribeInput audioSamples duration)))
      = Some (RunAsr audioSamples)) /\
  (forall env query limit,
      hd_error (fst (onmessage env st' (SearchInput query limit)))
      = Some (RunEmbedder query)).
Proof.
  intros Hst st'. pose proof (handleAll_keeps_loaded requests Hst) as Hloaded.
  fold st' in Hloaded. split; [exact Hloaded|].
  destruct Hloaded as [Hasr [Hemb Hdb]]. split.
  - intros env audioSamples duration. cbn [onmessage fst].
    unfold transcribeAudio, Tr.tryCatch.
    destruct (asrPipeline (models st')) as [asr|]; [|discriminate Hasr].
    destruct (embedderPipeline (searchState (models st'))) as [embedder|];
      [|discriminate Hemb].
    destruct (oramaDb (searchState (models st'))) as [db|]; [|discriminate Hdb].
    apply tryCatch_call_head.
  - intros env query limit. cbn [onmessage fst].
    unfold onSearchMessage, semanticSearch, tryCatch, bind, call, emit, throw.
    destruct (embedderPipeline (searchState (models st'))) as [embedder|];
      [|discriminate Hemb].
    destruct (oramaDb (searchState (models st'))) as [db|]; [|discriminate Hdb].
    destruct (embedder query) as [queryVector|e]; [|reflexivity].
    destruct (Env.search env db (hybridQuery query queryVector)) as [hits|e];
      reflexivity.
Qed.

Lemma loaded_worker_stays_loaded_witness :
  isLoaded SampleWorker.loaded /\
  let st' := snd (handleAll SampleWorker.requests SampleWorker.loaded) in
  isLoaded st' /\
  (forall env audioSamples duration,
      hd_error (fst (onmessage env st' (TranscribeInput audioSamples duration)))
      = Some (RunAsr audioSamples)) /\
  (forall env query limit,
      hd_error (fst (onmessage env st' (SearchInput query limit)))
      = Some (RunEmbedder query)).
Proof.
  assert (Hloaded : isLoaded SampleWorker.loaded)
    by (repeat split; vm_compute; reflexivity).
  split; [exact Hloaded|].
  exact (@loaded_worker_stays_loaded unit SampleWorker.requests SampleWorker.loaded
           Hloaded).
Defined.

Lemma loading_effect_post (effects : list Effect) (m : OutputMessage) :
  Forall isLoadingEffect effects -> In (Post m) effects -> isAnswer m = false.
Proof.
  intros Hall Hin. rewrite Forall_forall in Hall. apply Hall in Hin.
  destruct m; simpl in Hin; try contradiction. reflexivity.
Qed.

Lemma embedderTarget_cases (hasWebGPU : bool) :
  (fst (embedderTarget hasWebGPU) = "webgpu" /\
   snd (embedderTarget hasWebGPU) = "fp16" /\ hasWebGPU = true) \/
  (fst (embedderTarget hasWebGPU) = "wasm" /\
   snd (embedderTarget hasWebGPU) = "q8" /\ hasWebGPU = false).
Proof. destruct hasWebGPU; [left|right]; now repeat split. Qed.

(** X18: when [loadModels] posts the [ready] message, both pipelines and
    the index were created, the state holds exactly these three, the message
    names the two models, and its device is [currentDevice]: [webgpu] when
    the browser gave an adapter and [wasm] otherwise. *)
Theorem ready_means_loaded (Orama : Type) (env : Env.t Orama)
  (st : WorkerState Orama) (device asrModel embedderModel : string) :
  In (Post (ReadyMessage device asrModel embedderModel)) (fst (loadModels env st)) ->
  let st' := snd (loadModels env st) in
  isLoaded st' /\
  currentDevice st' = device /\
  asrModel = ASR_MODEL /\ embedderModel = EMBEDDER_MODEL /\
  (exists reports1 asr reports2 embedder db dtype,
      Env.pipelineAsr env "wasm" "q8" = (reports1, Returns asr) /\
      Env.pipelineEmbedder env device dtype = (reports2, Returns embedder) /\
      Env.create env = Returns db /\
      models st'
      = {| asrPipeline := Some asr;
           searchState :=
             {| embedderPipeline := Some embedder; oramaDb := Some db |} |}) /\
  ((device = "webgpu" /\ exists adapter, Env.gpu env = Some (Returns (Some adapter))) \/
   (device = "wasm" /\ forall adapter, Env.gpu env <> Some (Returns (Some adapter)))).
Proof.
  intros Hin st'.
  destruct (loadModels_cases env st)
    as [effects [last [Htrace [Heff [_ [Hdevice Hlast]]]]]].
  rewrite Htrace in Hin. apply in_app_or in Hin. destruct Hin as [Hin|[Hin|[]]].
  { apply (@loading_effect_post _ _ Heff) in Hin. discriminate Hin. }
  destruct Hlast as [[reports1 [asr [reports2 [embedder [db [Hasr [Hemb [Hdb [Hready Hmodels]]]]]]]]]
                    |[e [Herror _]]];
    [|rewrite Herror in Hin; discriminate Hin].
  rewrite Hready in Hin. inversion Hin as [[Hd Ha He]]. clear Hin.
  fold st' in Hdevice, Hmodels.
  split; [unfold isLoaded; fold st'; rewrite Hmodels; now repeat split|].
  split; [now rewrite Hdevice|]. split; [reflexivity|]. split; [reflexivity|].
  split.
  - exists reports1, asr, reports2, embedder, db. eexists.
    now repeat split; try eassumption.
  - destruct (checkWebGPUSupport_cases (Env.gpu env)) as [_ Hgpu].
    destruct (embedderTarget_cases (snd (checkWebGPUSupport (Env.gpu env))))
      as [[Hfst [_ Hhas]]|[Hfst [_ Hhas]]]; rewrite Hfst.
    + left. split; [reflexivity|]. now apply Hgpu.
    + right. split; [reflexivity|]. intros adapter Hadapter.
      assert (Htrue : snd (checkWebGPUSupport (Env.gpu env)) = true)
        by (apply Hgpu; now exists adapter).
      congruence.
Qed.

Lemma ready_means_loaded_witness :
  In (Post (ReadyMessage "webgpu" ASR_MODEL EMBEDDER_MODEL))
     (fst (loadModels SampleWorker.withGpu SampleWorker.initial)) /\
  let st' := snd (loadModels SampleWorker.withGpu SampleWorker.initial) in
  isLoaded st' /\
  currentDevice st' = "webgpu" /\
  ASR_MODEL = ASR_MODEL /\ EMBEDDER_MODEL = EMBEDDER_MODEL /\
  (exists reports1 asr reports2 embedder db dtype,
      Env.pipelineAsr SampleWorker.withGpu "wasm" "q8" = (reports1, Returns asr) /\
      Env.pipelineEmbedder SampleWorker.withGpu "webgpu" dtype
      = (reports2, Returns embedder) /\
      Env.create SampleWorker.withGpu = Returns db /\
      models st'
      = {| asrPipeline := Some asr;
           searchState :=
             {| embedderPipeline := Some embedder; oramaDb := Some db |} |}) /\
  (("webgpu" = "webgpu" /\
    exists adapter, Env.gpu SampleWorker.withGpu = Some (Returns (Some adapter))) \/
   ("webgpu" = "wasm" /\
    forall adapter, Env.gpu SampleWorker.withGpu <> Some (Returns (Some adapter)))).
Proof.
  assert (Hready : In (Post (ReadyMessage "webgpu" ASR_MODEL EMBEDDER_MODEL))
                     (fst (loadModels SampleWorker.withGpu SampleWorker.initial)))
    by (vm_compute; findIn).
  split; [exact Hready|].
  exact (@ready_means_loaded unit SampleWorker.withGpu SampleWorker.initial
           "webgpu" ASR_MODEL EMBEDDER_MODEL Hready).
Defined.

(** X19: [loadModels] always asks for the speech recognizer on [wasm] with
    precision [q8]; it asks for the embedder on [currentDevice], which is
    [webgpu] with precision [fp16] when the browser gave an adapter and
    [wasm] with precision [q8] otherwise. *)
Theorem pipelines_are_loaded_for_their_device (Orama : Type) (env : Env.t Orama)
  (st : WorkerState Orama) (task model device dtype : string) :
  In (LoadPipeline task model device dtype) (fst (loadModels env st)) ->
  (task = "automatic-speech-recognition" /\ model = ASR_MODEL /\
   device = "wasm" /\ dtype = "q8") \/
  (task = "feature-extraction" /\ model = EMBEDDER_MODEL /\
   currentDevice (snd (loadModels env st)) = device /\
   ((device = "webgpu" /\ dtype = "fp16" /\
     exists adapter, Env.gpu env = Some (Returns (Some adapter))) \/
    (device = "wasm" /\ dtype = "q8" /\
     forall adapter, Env.gpu env <> Some (Returns (Some adapter))))).
Proof.
  intros Hin.
  destruct (loadModels_cases env st)
    as [effects [last [Htrace [_ [Hpipelines [Hdevice _]]]]]].
  rewrite Htrace in Hin. apply in_app_or in Hin.
  destruct Hin as [Hin|[Hin|[]]]; [|discriminate Hin].
  apply Hpipelines in Hin.
  destruct Hin as [Hasr|[Htask [Hmodel [Hdev Hdtype]]]]; [now left|].
  right. split; [exact Htask|]. split; [exact Hmodel|].
  split; [now rewrite Hdevice, Hdev|].
  destruct (checkWebGPUSupport_cases (Env.gpu env)) as [_ Hgpu].
  destruct (embedderTarget_cases (snd (checkWebGPUSupport (Env.gpu env))))
    as [[Hfst [Hsnd Hhas]]|[Hfst [Hsnd Hhas]]];
    rewrite Hfst in Hdev; rewrite Hsnd in Hdtype.
  - left. repeat split; try assumption. now apply Hgpu.
  - right. repeat split; try assumption. intros adapter Hadapter.
    assert (Htrue : snd (checkWebGPUSupport (Env.gpu env)) = true)
      by (apply Hgpu; now exists adapter).
    congruence.
Qed.

Lemma pipelines_are_loaded_for_their_device_witness :
  In (LoadPipeline "feature-extraction" EMBEDDER_MODEL "wasm" "q8")
     (fst (loadModels SampleWorker.withoutIndex SampleWorker.initial)) /\
  (("feature-extraction" = "automatic-speech-recognition" /\
    EMBEDDER_MODEL = ASR_MODEL /\ "wasm" = "wasm" /\ "q8" = "q8") \/
   ("feature-extraction" = "feature-extraction" /\
    EMBEDDER_MODEL = EMBEDDER_MODEL /\
    currentDevice (snd (loadModels SampleWorker.withoutIndex SampleWorker.initial))
    = "wasm" /\
    (("wasm" = "webgpu" /\ "q8" = "fp16" /\
      exists adapter,
        Env.gpu SampleWorker.withoutIndex = Some (Returns (Some adapter))) \/
     ("wasm" = "wasm" /\ "q8" = "q8" /\
      forall adapter,
        Env.gpu SampleWorker.withoutIndex <> Some (Returns (Some adapter)))))).
Proof.
  assert (Hrequested :
            In (LoadPipeline "feature-extraction" EMBEDDER_MODEL "wasm" "q8")
               (fst (loadModels SampleWorker.withoutIndex SampleWorker.initial)))
    by (vm_compute; findIn).
  split; [exact Hrequested|].
  exact (@pipelines_are_loaded_for_their_device unit SampleWorker.withoutIndex
           SampleWorker.initial "feature-extraction" EMBEDDER_MODEL "wasm" "q8"
           Hrequested).
Defined.

(** X20: an error that [loadModels] posts has the operation [load] and
    comes without a [ready] message, because a pipeline or the index could
    not be created; the index of the worker is then the one it had, and a
    pipeline that was there before the load is still there. *)
Theorem failed_load_unloads_nothing (Orama : Type) (env : Env.t Orama)
  (st : WorkerState Orama) (text operation : string) :
  In (Post (SearchMessage (Error text operation))) (fst (loadModels env st)) ->
  let st' := snd (loadModels env st) in
  operation = "load" /\
  (forall device asrModel embedderModel,
      ~ In (Post (ReadyMessage device asrModel embedderModel))
          (fst (loadModels env st))) /\
  oramaDb (searchState (models st')) = oramaDb (searchState (models st)) /\
  (isSome (asrPipeline (models st)) = true ->
   isSome (asrPipeline (models st')) = true) /\
  (isSome (embedderPipeline (searchState (models st))) = true ->
   isSome (embedderPipeline (searchState (models st'))) = true) /\
  ((exists reports e, Env.pipelineAsr env "wasm" "q8" = (reports, Throws e)) \/
   (exists device dtype reports e,
       Env.pipelineEmbedder env device dtype = (reports, Throws e)) \/
   (exists e, Env.create env = Throws e)).
Proof.
  intros Hin st'.
  destruct (loadModels_cases env st)
    as [effects [last [Htrace [Heff [_ [_ Hlast]]]]]].
  destruct (loadModels_monotone env st) as [Hasr [Hemb _]].
  rewrite Htrace in *. apply in_app_or in Hin. destruct Hin as [Hin|[Hin|[]]].
  { apply (@loading_effect_post _ _ Heff) in Hin. discriminate Hin. }
  destruct Hlast as [[reports1 [asr [reports2 [embedder [db [_ [_ [_ [Hready _]]]]]]]]]
                    |[e [Herror [Hdb Hfailed]]]];
    [rewrite Hready in Hin; discriminate Hin|].
  rewrite Herror in Hin. inversion Hin as [[Htext Hop]].
  split; [reflexivity|]. split.
  - intros device asrModel embedderModel Hready.
    apply in_app_or in Hready. destruct Hready as [Hready|[Hready|[]]].
    + apply (@loading_effect_post _ _ Heff) in Hready. discriminate Hready.
    + rewrite Herror in Hready. discriminate Hready.
  - split; [exact Hdb|]. split; [exact Hasr|]. split; [exact Hemb|].
    destruct Hfailed as [[reports H]|[[reports H]|H]].
    + left. now exists reports, e.
    + right. left. eexists. eexists. exists reports, e. exact H.
    + right. right. now exists e.
Qed.

Lemma failed_load_unloads_nothing_witness :
  In (Post (SearchMessage (Error "quota exceeded" "load")))
     (fst (loadModels SampleWorker.withoutIndex SampleWorker.loaded)) /\
  let st' := snd (loadModels SampleWorker.withoutIndex SampleWorker.loaded) in
  "load" = "load" /\
  (forall device asrModel embedderModel,
      ~ In (Post (ReadyMessage device asrModel embedderModel))
          (fst (loadModels SampleWorker.withoutIndex SampleWorker.loaded))) /\
  oramaDb (searchState (models st'))
  = oramaDb (searchState (models SampleWorker.loaded)) /\
  (isSome (asrPipeline (models SampleWorker.loaded)) = true ->
   isSome (asrPipeline (models st')) = true) /\
  (isSome (embedderPipeline (searchState (models SampleWorker.loaded))) = true ->
   isSome (embedderPipeline (searchState (models st'))) = true) /\
  ((exists reports e,
       Env.pipelineAsr SampleWorker.withoutIndex "wasm" "q8" = (reports, Throws e)) \/
   (exists device dtype reports e,
       Env.pipelineEmbedder SampleWorker.withoutIndex device dtype
       = (reports, Throws e)) \/
   (exists e, Env.create SampleWorker.withoutIndex = Throws e)).
Proof.
  assert (Hfailed :
            In (Post (SearchMessage (Error "quota exceeded" "load")))
               (fst (loadModels SampleWorker.withoutIndex SampleWorker.loaded)))
    by (vm_compute; findIn).
  split; [exact Hfailed|].
  exact (@failed_load_unloads_nothing unit SampleWorker.withoutIndex
           SampleWorker.loaded "quota exceeded" "load" Hfailed).
Defined.

Lemma transcribeAudio_answer (Orama : Type) (generateId : nat -> string)
  (insertMultiple : Orama -> list Doc.t -> outcome unit)
  (m : Models Orama) (audioSamples : list Q) (duration : Q) :
  exists effects last,
    transcribeAudio generateId insertMultiple m audioSamples duration
    = (effects ++ [Post last])%list /\
    answers (TranscribeInput audioSamples duration) last /\
    (forall msg, In (Post msg) effects -> isAnswer msg = false).
Proof.
  assert (Hindexing : forall effects msg,
             Forall isIndexingEffect effects -> In (Post msg) effects ->
             isAnswer msg = false).
  { intros effects msg Heff Hin.
    destruct (@indexing_effect_post effects msg Heff Hin) as [p [text [-> _]]].
    reflexivity. }
  destruct (transcribeAudio_run generateId insertMultiple m audioSamples duration)
    as [Hnone|asr embedder db e _ _ _ _
        |asr embedder db out effects e segment chunk _ _ _ _ Heff _ _ _
        |asr embedder db out effects docs last _ _ _ _ Heff _ _ Hlast].
  - exists []. eexists. split; [reflexivity|]. split; [reflexivity|intros ? []].
  - exists [RunAsr audioSamples]. eexists. split; [reflexivity|].
    split; [reflexivity|]. intros msg [H|[]]. discriminate H.
  - exists (RunAsr audioSamples :: effects). eexists. split; [reflexivity|].
    split; [reflexivity|]. intros msg [H|Hin]; [discriminate H|].
    now apply (Hindexing effects).
  - exists (RunAsr audioSamples :: effects ++ [InsertMultiple docs]).
    assert (Hposts : forall msg,
               In (Post msg) (RunAsr audioSamples :: effects ++ [InsertMultiple docs]) ->
               isAnswer msg = false).
    { intros msg [H|Hin]; [discriminate H|]. apply in_app_or in Hin.
      destruct Hin as [Hin|[H|[]]]; [|discriminate H].
      now apply (Hindexing effects). }
    destruct (insertMultiple db docs); subst last; eexists;
      (split; [now rewrite <- app_comm_cons, <- app_assoc|]);
      (split; [reflexivity|exact Hposts]).
Qed.

Lemma semanticSearch_answer (Orama : Type)
  (search : Orama -> Query.t -> outcome (list Hit.t)) (st : State Orama)
  (query : string) (limit : option Z) :
  exists effects last,
    map effectOf (onSearchMessage search st query limit)
    = (effects ++ [Post last])%list /\
    answers (SearchInput query limit) last /\
    (forall msg, ~ In (Post msg) effects).
Proof.
  unfold onSearchMessage, semanticSearch, tryCatch, bind, call, emit, throw.
  destruct (embedderPipeline st) as [embedder|].
  - destruct (oramaDb st) as [db|].
    + destruct (embedder query) as [queryVector|e].
      * destruct (search db (hybridQuery query queryVector)) as [hits|e];
          exists [RunEmbedder query; RunSearch (hybridQuery query queryVector)];
          eexists; (split; [reflexivity|]); (split; [reflexivity|]);
          intros msg [H|[H|[]]]; discriminate H.
      * exists [RunEmbedder query]. eexists. split; [reflexivity|].
        split; [reflexivity|]. intros msg [H|[]]. discriminate H.
    + exists []. eexists. split; [reflexivity|]. split; [reflexivity|intros ? []].
  - exists []. eexists. split; [destruct (oramaDb st); reflexivity|].
    split; [reflexivity|intros ? []].
Qed.

(** X21: every request gets exactly one answer, as the last message of its
    handler, and the answer is one of its own: [ready] or an error of
    [load], a transcription result of the requested duration or an error of
    [transcribe], the results of the requested query or an error of
    [search], [cleared].  Every earlier message is a progress report.  The
    one exception is a [clear] request when the index cannot be created:
    the handler fails without posting anything. *)
Theorem requests_are_answered_once (Orama : Type) (env : Env.t Orama)
  (st : WorkerState Orama) (request : WorkerInputMessage) :
  (exists effects last,
      fst (onmessage env st request) = (effects ++ [Post last])%list /\
      answers request last /\
      (forall msg, In (Post msg) effects -> isAnswer msg = false)) \/
  (request = ClearInput /\
   exists e, Env.create env = Throws e /\
             onmessage env st request = ([CreateDb], Throws e)).
Proof.
  destruct request as [|audioSamples duration|query limit|].
  - left. cbn [onmessage].
    destruct (loadModels_cases env st)
      as [effects [last [Htrace [Heff [_ [_ Hlast]]]]]].
    destruct (loadModels env st) as [trace st']. cbn [fst snd] in *.
    exists effects, last. split; [exact Htrace|]. split.
    + destruct Hlast as [[? [? [? [? [? [_ [_ [_ [-> _]]]]]]]]]|[e [-> _]]];
        now simpl.
    + intros msg Hin. exact (@loading_effect_post _ _ Heff Hin).
  - left. cbn [onmessage fst]. apply transcribeAudio_answer.
  - left. cbn [onmessage fst].
    destruct (semanticSearch_answer (Env.search env) (searchState (models st))
                query limit) as [effects [last [Htrace [Hlast Hnone]]]].
    exists effects, last. split; [exact Htrace|]. split; [exact Hlast|].
    intros msg Hin. now apply Hnone in Hin.
  - cbn [onmessage]. unfold clearDatabase, Tr.bind, Tr.call, Tr.emit, Tr.ret.
    destruct (Env.create env) as [db|e].
    + left. exists [CreateDb], ClearedMessage. split; [reflexivity|].
      split; [exact I|]. intros msg [H|[]]. discriminate H.
    + right. split; [reflexivity|]. now exists e.
Qed.

(** ** The scoring in binary64 *)

(** *** The order of binary64 *)

Ltac orderCases :=
  repeat match goal with
         | H : context [Z.compare ?a ?b] |- _ =>
             destruct (Z.compare_spec a b); try discriminate H
         | |- context [Z.compare ?a ?b] => destruct (Z.compare_spec a b)
         | H : context [Pos.compare_cont Eq ?a ?b] |- _ =>
             change (Pos.compare_cont Eq a b) with (Pos.compare a b) in H;
             destruct (Pos.compare_spec a b); try discriminate H
         | |- context [Pos.compare_cont Eq ?a ?b] =>
             change (Pos.compare_cont Eq a b) with (Pos.compare a b);
             destruct (Pos.compare_spec a b)
         end.

Lemma SFltb_irrefl (x : spec_float) : SFltb x x = false.
Proof.
  unfold SFltb, SFcompare.
  destruct x as [s|s| |s m e]; try destruct s; try reflexivity;
    rewrite Z.compare_refl; change (Pos.compare_cont Eq m m) with (Pos.compare m m);
    now rewrite Pos.compare_refl.
Qed.

Lemma SFltb_trans (x y z : spec_float) :
  SFltb x y = true -> SFltb y z = true -> SFltb x z = true.
Proof.
  unfold SFltb, SFcompare.
  destruct x as [sx|sx| |sx mx ex], y as [sy|sy| |sy my ey], z as [sz|sz| |sz mz ez];
    try destruct sx; try destruct sy; try destruct sz;
    try discriminate; try reflexivity;
    intros Hxy Hyz; orderCases; simpl in *;
    try discriminate; try reflexivity; try lia.
Qed.

Lemma SFltb_SFleb (x y : spec_float) : SFltb x y = true -> SFleb x y = true.
Proof.
  unfold SFltb, SFleb. destruct (SFcompare x y) as [[| |]|]; try discriminate.
  reflexivity.
Qed.

Lemma ltb_irrefl (x : float) : (x <? x)%float = false.
Proof. rewrite ltb_spec. apply SFltb_irrefl. Qed.

Lemma ltb_trans (x y z : float) :
  (x <? y)%float = true -> (y <? z)%float = true -> (x <? z)%float = true.
Proof. rewrite !ltb_spec. apply SFltb_trans. Qed.

Lemma ltb_asym (x y : float) : (x <? y)%float = true -> (y <? x)%float = false.
Proof.
  intros H. destruct (y <? x)%float eqn:E; [|reflexivity].
  pose proof (@ltb_trans _ _ _ H E) as Hxx. now rewrite ltb_irrefl in Hxx.
Qed.

Lemma ltb_leb (x y : float) : (x <? y)%float = true -> (x <=? y)%float = true.
Proof. rewrite ltb_spec, leb_spec. apply SFltb_SFleb. Qed.

Lemma SFcompare_opp (x y : spec_float) :
  x <> S754_nan -> y <> S754_nan ->
  exists c, SFcompare x y = Some c /\ SFcompare y x = Some (CompOpp c).
Proof.
  intros Hx Hy. unfold SFcompare.
  destruct x as [sx|sx| |sx mx ex], y as [sy|sy| |sy my ey];
    try (now elim Hx); try (now elim Hy);
    try destruct sx; try destruct sy; try (eexists; split; reflexivity).
  - rewrite (Z.compare_antisym ex ey).
    change (Pos.compare_cont Eq my mx) with (Pos.compare my mx).
    change (Pos.compare_cont Eq mx my) with (Pos.compare mx my).
    rewrite (Pos.compare_antisym mx my).
    destruct (ex ?= ey)%Z; simpl; eexists; (split; [reflexivity|]);
      try reflexivity; try (now destruct (mx ?= my)%positive).
  - rewrite (Z.compare_antisym ex ey).
    change (Pos.compare_cont Eq my mx) with (Pos.compare my mx).
    change (Pos.compare_cont Eq mx my) with (Pos.compare mx my).
    rewrite (Pos.compare_antisym mx my).
    destruct (ex ?= ey)%Z; simpl; eexists; (split; [reflexivity|]);
      try reflexivity; try (now destruct (mx ?= my)%positive).
Qed.

Lemma is_nan_spec (x : float) : is_nan x = false -> Prim2SF x <> S754_nan.
Proof.
  unfold is_nan. intros H Hnan. apply negb_false_iff in H.
  rewrite eqb_spec, Hnan in H. discriminate H.
Qed.

(** Two numbers neither of which is below the other compare as equal. *)
Lemma leb_of_not_ltb (x y : float) :
  is_nan x = false -> is_nan y = false ->
  (y <? x)%float = false -> (x <=? y)%float = true.
Proof.
  intros Hx Hy. rewrite ltb_spec, leb_spec. unfold SFltb, SFleb.
  destruct (SFcompare_opp (is_nan_spec _ Hx) (is_nan_spec _ Hy)) as [c [-> ->]].
  now destruct c.
Qed.

(** [Math.min(x, c)] is [NaN] or at most [c], for a number [c]. *)
Lemma min_below (x c : float) :
  is_nan c = false ->
  (is_nan (Binary64.min x c) = true \/ (Binary64.min x c <=? c)%float = true) /\
  (c <? Binary64.min x c)%float = false.
Proof.
  intros Hc.
  assert (Hcc : (c <=? c)%float = true)
    by (apply leb_of_not_ltb; try assumption; apply ltb_irrefl).
  unfold Binary64.min. rewrite Hc, orb_false_r.
  destruct (is_nan x) eqn:Hx.
  - split; [left; reflexivity|]. rewrite ltb_spec. unfold SFltb.
    change (Prim2SF nan) with S754_nan.
    destruct (Prim2SF c); reflexivity.
  - destruct (x <? c)%float eqn:Hlt.
    + split; [right; now apply ltb_leb|now apply ltb_asym].
    + destruct (c <? x)%float eqn:Hgt; [split; [now right|apply ltb_irrefl]|].
      destruct (get_sign x); (split; [right|]);
        try assumption; try apply ltb_irrefl.
      now apply leb_of_not_ltb.
Qed.

(** *** De-duplication *)

Lemma scored64_step (intents : list string) (seen : list Binary64.Hit.t)
  (m : StringMap.t (Result.t float)) (hit : Binary64.Hit.t) :
  Binary64.scored intents seen m ->
  Binary64.scored intents (seen ++ [hit]) (Binary64.rerankStep intents m hit).
Proof.
  intros [Hkeys Hentries Hseen]. unfold Binary64.rerankStep. cbv zeta.
  fold (Binary64.hitSegmentId hit).
  set (k := Binary64.hitSegmentId hit). set (f := Binary64.finalScoreOf intents hit).
  assert (Hold : forall k' r', k' <> k -> In (k', r') m ->
                               Binary64.entryOf intents (seen ++ [hit]) k' r').
  { intros k' r' Hne Hin. destruct (Hentries _ _ Hin) as [h0 [[Hin0 Hmax] [Hk0 Hr0]]].
    exists h0. repeat split; try assumption.
    - apply in_or_app. now left.
    - intros hit' Hin' Hseg. apply in_app_or in Hin'.
      destruct Hin' as [Hin'|[<-|[]]]; [now apply Hmax|].
      elim Hne. fold k in Hseg. congruence. }
  assert (Hnew : (forall hit', In hit' seen -> Binary64.hitSegmentId hit' = k ->
                               (f <? Binary64.finalScoreOf intents hit')%float = false) ->
                 Binary64.entryOf intents (seen ++ [hit]) k
                   (Binary64.resultOf (Binary64.Hit.document hit) f)).
  { intros Hmax. exists hit. repeat split.
    - apply in_or_app. right. now left.
    - intros hit' Hin' Hseg. apply in_app_or in Hin'.
      destruct Hin' as [Hin'|[<-|[]]]; [now apply Hmax|apply ltb_irrefl]. }
  assert (Hset : forall v,
             (forall hit', In hit' seen -> Binary64.hitSegmentId hit' = k ->
                           (f <? Binary64.finalScoreOf intents hit')%float = false) ->
             v = Binary64.resultOf (Binary64.Hit.document hit) f ->
             Binary64.scored intents (seen ++ [hit]) (StringMap.set k v m)).
  { intros v Hmax ->. split.
    - now apply set_NoDup.
    - intros k' r' Hin. apply set_in in Hin; [|exact Hkeys].
      destruct Hin as [[-> ->]|[Hne Hin]]; [now apply Hnew|now apply Hold].
    - intros hit' Hin'. apply set_keys. apply in_app_or in Hin'.
      destruct Hin' as [Hin'|[<-|[]]]; [right; now apply Hseen|now left]. }
  destruct (StringMap.get k m) as [existing|] eqn:Hget.
  - apply get_Some_in in Hget.
    destruct (Hentries _ _ Hget) as [h0 [[Hin0 Hmax0] [Hk0 Hr0]]].
    assert (Hscore : Result.score existing = Binary64.finalScoreOf intents h0)
      by (rewrite Hr0; reflexivity).
    destruct (Result.score existing <? f)%float eqn:Hlt.
    + apply Hset; [|reflexivity].
      intros hit' Hin' Hseg.
      destruct (f <? Binary64.finalScoreOf intents hit')%float eqn:Hup; [|reflexivity].
      rewrite Hscore in Hlt. pose proof (@ltb_trans _ _ _ Hlt Hup) as Habove.
      rewrite Hmax0 in Habove; [discriminate Habove|exact Hin'|congruence].
    + split.
      * exact Hkeys.
      * intros k' r' Hin. destruct (string_dec k' k) as [->|Hne]; [|now apply Hold].
        rewrite (NoDup_keys_functional k r' existing m Hkeys Hin Hget).
        exists h0. repeat split; try assumption.
        -- apply in_or_app. now left.
        -- intros hit' Hin' Hseg. apply in_app_or in Hin'.
           destruct Hin' as [Hin'|[<-|[]]]; [now apply Hmax0|].
           now rewrite <- Hscore.
      * intros hit' Hin'. apply in_app_or in Hin'.
        destruct Hin' as [Hin'|[<-|[]]]; [now apply Hseen|].
        now apply (in_map fst) in Hget.
  - apply Hset; [|reflexivity]. apply get_None_notin in Hget.
    intros hit' Hin' Hseg. elim Hget. rewrite <- Hseg. now apply Hseen.
Qed.

Lemma scored64_fold (intents : list string) (hits seen : list Binary64.Hit.t)
  (m : StringMap.t (Result.t float)) :
  Binary64.scored intents seen m ->
  Binary64.scored intents (seen ++ hits)
    (fold_left (Binary64.rerankStep intents) hits m).
Proof.
  revert seen m. induction hits as [|hit hits IH]; intros seen m Hm; simpl.
  - now rewrite app_nil_r.
  - replace (seen ++ hit :: hits)%list with ((seen ++ [hit]) ++ hits)%list
      by (now rewrite <- app_assoc).
    apply IH. now apply scored64_step.
Qed.

Lemma scored64_all (intents : list string) (hits : list Binary64.Hit.t) :
  Binary64.scored intents hits (fold_left (Binary64.rerankStep intents) hits []).
Proof.
  apply (@scored64_fold intents hits [] []).
  split; simpl; [constructor|intros _ _ []|intros _ []].
Qed.

Lemma insertByScore64_perm (r : Result.t float) (sorted : list (Result.t float)) :
  Permutation (Binary64.insertByScore r sorted) (r :: sorted).
Proof.
  induction sorted as [|r' rest IH]; simpl; [reflexivity|].
  destruct (0 <? Binary64.compareFn r r')%float; [|reflexivity].
  rewrite IH. apply perm_swap.
Qed.

Lemma sortByScore64_perm (results : list (Result.t float)) :
  Permutation (Binary64.sortByScore results) results.
Proof.
  induction results as [|r results IH]; simpl; [reflexivity|].
  rewrite insertByScore64_perm. now constructor.
Qed.

Lemma rankedResults64_spec (intents : list string) (hits : list Binary64.Hit.t)
  (limit : Z) :
  let results := Binary64.rankedResults intents hits limit in
  NoDup (map (@segmentIdOf float) results) /\
  forall r, In r results ->
    exists hit,
      Binary64.bestOfSegment intents hits hit /\
      r = Binary64.resultOf (Binary64.Hit.document hit)
            (Binary64.finalScoreOf intents hit).
Proof.
  intros results. unfold results, Binary64.rankedResults. cbv zeta.
  destruct (scored64_all intents hits) as [Hkeys Hentries _].
  set (m := fold_left (Binary64.rerankStep intents) hits []) in *.
  destruct (sliceTo_firstn limit (Binary64.sortByScore (StringMap.values m)))
    as [n ->].
  assert (Hids : map (@segmentIdOf float) (StringMap.values m) = map fst m).
  { unfold StringMap.values. rewrite map_map. apply map_ext_in.
    intros [k r] Hin. destruct (Hentries _ _ Hin) as [hit [_ [-> ->]]]. reflexivity. }
  split.
  - rewrite <- firstn_map. apply firstn_NoDup.
    apply (Permutation_NoDup (l := map (@segmentIdOf float) (StringMap.values m))).
    + apply Permutation_map. symmetry. apply sortByScore64_perm.
    + now rewrite Hids.
  - intros r Hin. apply in_firstn in Hin.
    apply (Permutation_in _ (sortByScore64_perm _)) in Hin.
    unfold StringMap.values in Hin. apply in_map_iff in Hin.
    destruct Hin as [[k r'] [<- Hin]]. simpl.
    destruct (Hentries _ _ Hin) as [hit [Hbest [_ ->]]]. now exists hit.
Qed.

(** A list of witnesses, one for each element. *)
Lemma Forall2_of_exists {A B : Type} (R : A -> B -> Prop) (xs : list A) :
  (forall x, In x xs -> exists y, R x y) -> exists ys, Forall2 R xs ys.
Proof.
  induction xs as [|x xs IH]; intros H; [exists []; constructor|].
  destruct (H x (or_introl eq_refl)) as [y Hy].
  destruct IH as [ys Hys]; [intros x' Hx'; apply H; now right|].
  exists (y :: ys). now constructor.
Qed.

Lemma semanticSearch64_results (Orama : Type)
  (search : Orama -> Query.t -> outcome (list Binary64.Hit.t)) (st : State Orama)
  (query : string) (limit : Z) (results : list (Result.t float)) (q : string) :
  In (Binary64.PostMessage (Binary64.SearchResults results q))
     (Binary64.semanticSearch search st query limit) ->
  exists embedder db queryVector hits,
    embedderPipeline st = Some embedder /\
    oramaDb st = Some db /\
    embedder query = Returns queryVector /\
    search db (hybridQuery query queryVector) = Returns hits /\
    results
    = Binary64.normalizeScores
        (Binary64.rankedResults (detectQuestionIntent query) hits limit) /\
    q = query.
Proof.
  unfold Binary64.semanticSearch, Binary64.searchError.
  destruct (embedderPipeline st) as [embedder|];
    [|intros [H|[]]; discriminate H].
  destruct (oramaDb st) as [db|]; [|intros [H|[]]; discriminate H].
  destruct (embedder query) as [queryVector|e] eqn:Hv;
    [|intros [H|[H|[]]]; discriminate H].
  destruct (search db (hybridQuery query queryVector)) as [hits|e] eqn:Hhits;
    intros [H|[H|[H|[]]]]; try discriminate H.
  inversion H; subst. exists embedder, db, queryVector, hits. now repeat split.
Qed.

Lemma Forall2_map_eq {A B : Type} (f : B -> A) (xs : list A) (ys : list B) :
  Forall2 (fun x y => x = f y) xs ys -> xs = map f ys.
Proof. induction 1; simpl; congruence. Qed.

(** C2: the results that the search posts have pairwise distinct segment
    ids.  Each of them is made of one hit of the index engine, a hit that no
    hit of the same segment exceeds in score after the boost (hit score plus
    heuristic boost of the passage text, as binary64 numbers): the result
    carries the segment id, the full segment text and the start and end
    times of the document of this hit, not the text of the passage, and its
    score is the boosted score of this hit, normalized by that of the first
    result. *)
Theorem results_one_per_segment (Orama : Type)
  (search : Orama -> Query.t -> outcome (list Binary64.Hit.t)) (st : State Orama)
  (query : string) (limit : Z) (results : list (Result.t float)) (q : string) :
  In (Binary64.PostMessage (Binary64.SearchResults results q))
     (Binary64.semanticSearch search st query limit) ->
  let boosted (hit : Binary64.Hit.t) : float :=
    (Binary64.Hit.score hit
     + Binary64.calculateHeuristicBoost (Doc.text (Binary64.Hit.document hit))
         (detectQuestionIntent query))%float in
  NoDup (map (fun r => Segment.id (Result.segment r)) results) /\
  exists db queryVector hits kept,
    oramaDb st = Some db /\
    search db (hybridQuery query queryVector) = Returns hits /\
    (forall hit, In hit kept ->
       In hit hits /\
       forall other, In other hits ->
         Doc.segmentId (Binary64.Hit.document other)
         = Doc.segmentId (Binary64.Hit.document hit) ->
         (boosted hit <? boosted other)%float = false) /\
    results
    = map (fun hit =>
             {| Result.segment :=
                  {| Segment.id := Doc.segmentId (Binary64.Hit.document hit);
                     Segment.text := Doc.fullSegmentText (Binary64.Hit.document hit);
                     Segment.start := Doc.start (Binary64.Hit.document hit);
                     Segment.end_ := Doc.end_ (Binary64.Hit.document hit) |};
                Result.score :=
                  Binary64.min (boosted hit / (boosted (hd hit kept) * 1.1))%float
                    0.99%float |})
        kept.
Proof.
  intros Hposted boosted. apply semanticSearch64_results in Hposted.
  destruct Hposted as [embedder [db [queryVector [hits [_ [Hdb [_ [Hhits [-> _]]]]]]]]].
  destruct (rankedResults64_spec (detectQuestionIntent query) hits limit)
    as [Hnodup Hraw].
  set (raw := Binary64.rankedResults (detectQuestionIntent query) hits limit) in *.
  assert (Hsegments : map (@Result.segment float) (Binary64.normalizeScores raw)
                      = map (@Result.segment float) raw).
  { unfold Binary64.normalizeScores. destruct raw as [|r0 rest]; [reflexivity|].
    rewrite map_map. reflexivity. }
  split.
  { change (fun r : Result.t float => Segment.id (Result.segment r))
      with (fun r : Result.t float => Segment.id (@Result.segment float r)).
    rewrite <- (map_map (@Result.segment float) Segment.id), Hsegments, map_map.
    exact Hnodup. }
  destruct (Forall2_of_exists
              (fun r hit =>
                 Binary64.bestOfSegment (detectQuestionIntent query) hits hit /\
                 r = Binary64.resultOf (Binary64.Hit.document hit)
                       (Binary64.finalScoreOf (detectQuestionIntent query) hit))
              raw Hraw) as [kept Hkept].
  exists db, queryVector, hits, kept.
  split; [exact Hdb|]. split; [exact Hhits|]. split.
  - intros hit Hin.
    assert (Hbest : Binary64.bestOfSegment (detectQuestionIntent query) hits hit).
    { clear - Hkept Hin. induction Hkept as [|r h raw kept [Hb _] _ IH];
        [destruct Hin|]. destruct Hin as [<-|Hin]; [exact Hb|now apply IH]. }
    destruct Hbest as [Hhit Hmax]. split; [exact Hhit|].
    intros other Hother Hseg. exact (Hmax other Hother Hseg).
  - assert (Hmap : raw
                   = map (fun hit =>
                            Binary64.resultOf (Binary64.Hit.document hit)
                              (Binary64.finalScoreOf (detectQuestionIntent query) hit))
                       kept).
    { apply Forall2_map_eq. clear - Hkept.
      induction Hkept as [|r h raw kept [_ Hr] _ IH]; constructor; assumption. }
    rewrite Hmap. unfold Binary64.normalizeScores.
    destruct kept as [|top kept']; [reflexivity|].
    cbn [map]. rewrite map_map. reflexivity.
Qed.

Lemma results_one_per_segment_witness :
  exists results,
    In (Binary64.PostMessage
          (Binary64.SearchResults results "How can I improve my intuition?"))
       (Binary64.semanticSearch Sample64.engine (Sample64.ready Sample64.hits)
          "How can I improve my intuition?" 10) /\
    results
    = [ {| Result.segment := Segment.make "s1" Sample64.intuition 0 (15 # 2);
           Result.score := 0.90909090909090906%float |};
        {| Result.segment := Segment.make "s2" Sample64.weather (15 # 2) 12;
           Result.score := 0.38961038961038957%float |} ] /\
    let boosted (hit : Binary64.Hit.t) : float :=
      (Binary64.Hit.score hit
       + Binary64.calculateHeuristicBoost (Doc.text (Binary64.Hit.document hit))
           (detectQuestionIntent "How can I improve my intuition?"))%float in
    map boosted Sample64.hits
    = [0.5; 0.29999999999999999; 0.69999999999999996; 0.10000000000000001]%float /\
    NoDup (map (fun r => Segment.id (Result.segment r)) results) /\
    exists db queryVector hits kept,
      oramaDb (Sample64.ready Sample64.hits) = Some db /\
      Sample64.engine db (hybridQuery "How can I improve my intuition?" queryVector)
      = Returns hits /\
      (forall hit, In hit kept ->
         In hit hits /\
         forall other, In other hits ->
           Doc.segmentId (Binary64.Hit.document other)
           = Doc.segmentId (Binary64.Hit.document hit) ->
           (boosted hit <? boosted other)%float = false) /\
      results
      = map (fun hit =>
               {| Result.segment :=
                    {| Segment.id := Doc.segmentId (Binary64.Hit.document hit);
                       Segment.text := Doc.fullSegmentText (Binary64.Hit.document hit);
                       Segment.start := Doc.start (Binary64.Hit.document hit);
                       Segment.end_ := Doc.end_ (Binary64.Hit.document hit) |};
                  Result.score :=
                    Binary64.min (boosted hit / (boosted (hd hit kept) * 1.1))%float
                      0.99%float |})
          kept.
Proof.
  exists (Binary64.normalizeScores
            (Binary64.rankedResults
               (detectQuestionIntent "How can I improve my intuition?")
               Sample64.hits 10)).
  assert (Hposted :
            In (Binary64.PostMessage
                  (Binary64.SearchResults
                     (Binary64.normalizeScores
                        (Binary64.rankedResults
                           (detectQuestionIntent "How can I improve my intuition?")
                           Sample64.hits 10))
                     "How can I improve my intuition?"))
               (Binary64.semanticSearch Sample64.engine
                  (Sample64.ready Sample64.hits)
                  "How can I improve my intuition?" 10))
    by (vm_compute; findIn).
  split; [exact Hposted|]. split; [vm_compute; reflexivity|].
  split; [vm_compute; reflexivity|].
  exact (@results_one_per_segment _ Sample64.engine (Sample64.ready Sample64.hits)
           "How can I improve my intuition?" 10 _
           "How can I improve my intuition?" Hposted).
Defined.

(** *** Normalization *)




(** In binary64 as in exact arithmetic, a top score of zero is not
    normalized: the quotient [0 / (0 * 1.1)] is not a number, and neither is
    the score that the search posts. *)
Lemma zero_top_score_binary64 :
  exists r,
    Binary64.semanticSearch Sample64.engine
      (Sample64.ready (Sample64.single 0%float)) "Does intuition require proof?" 10
    = [ Binary64.Embed "Does intuition require proof?";
        Binary64.Search (hybridQuery "Does intuition require proof?" [1]);
        Binary64.PostMessage
          (Binary64.SearchResults [r] "Does intuition require proof?") ] /\
    is_nan (Result.score r) = true /\
    (Result.score r <? 1)%float = false /\
    (0 <=? Result.score r)%float = false.
Proof.
  eexists. split; [vm_compute; reflexivity|]. repeat split.
Qed.

(** *** The sign of a difference in binary64 *)

Section Difference.

Local Open Scope Z_scope.

Lemma digits2_pos_bounds (m : positive) :
  2 ^ (Zpos (digits2_pos m) - 1) <= Zpos m < 2 ^ Zpos (digits2_pos m).
Proof.
  induction m as [m IH|m IH|]; cbn [digits2_pos].
  - rewrite Pos2Z.inj_succ.
    replace (Z.succ (Zpos (digits2_pos m)) - 1) with (Z.succ (Zpos (digits2_pos m) - 1))
      by lia.
    rewrite !Z.pow_succ_r by lia. lia.
  - rewrite Pos2Z.inj_succ.
    replace (Z.succ (Zpos (digits2_pos m)) - 1) with (Z.succ (Zpos (digits2_pos m) - 1))
      by lia.
    rewrite !Z.pow_succ_r by lia. lia.
  - simpl. lia.
Qed.

Lemma shr_1_m (mrs : shr_record) :
  0 <= shr_m mrs -> shr_m (shr_1 mrs) = shr_m mrs / 2.
Proof.
  destruct mrs as [m r s]. cbn [shr_m]. intros Hm.
  destruct m as [|p|p]; [reflexivity| |lia].
  destruct p as [p|p|]; cbn [shr_1 shr_m].
  - rewrite Pos2Z.inj_xI. apply Z.div_unique with (r := 1); lia.
  - rewrite Pos2Z.inj_xO. apply Z.div_unique with (r := 0); lia.
  - reflexivity.
Qed.

Lemma iter_shr_1_m (n : positive) :
  forall mrs, 0 <= shr_m mrs ->
    shr_m (iter_pos shr_1 n mrs) = shr_m mrs / 2 ^ Zpos n.
Proof.
  induction n as [n IH|n IH|]; intros mrs Hm; cbn [iter_pos];
    try (assert (Hp : 0 < 2 ^ Zpos n) by (apply Z.pow_pos_nonneg; lia)).
  - assert (Hpow : 2 ^ Zpos n~1 = 2 * (2 ^ Zpos n * 2 ^ Zpos n)).
    { transitivity (2 ^ Z.succ (Zpos n + Zpos n)); [f_equal; lia|].
      rewrite Z.pow_succ_r by lia.
      now rewrite (Z.pow_add_r 2 (Zpos n) (Zpos n)) by lia. }
    assert (H1 : 0 <= shr_m (shr_1 mrs))
      by (rewrite shr_1_m by exact Hm; apply Z.div_pos; lia).
    assert (H2 : 0 <= shr_m (iter_pos shr_1 n (shr_1 mrs)))
      by (rewrite IH by exact H1; apply Z.div_pos; lia).
    rewrite IH by exact H2. rewrite IH by exact H1. rewrite shr_1_m by exact Hm.
    rewrite !Z.div_div by lia. now rewrite Hpow, Z.mul_assoc.
  - assert (Hpow : 2 ^ Zpos n~0 = 2 ^ Zpos n * 2 ^ Zpos n).
    { transitivity (2 ^ (Zpos n + Zpos n)); [f_equal; lia|].
      now rewrite (Z.pow_add_r 2 (Zpos n) (Zpos n)) by lia. }
    assert (H1 : 0 <= shr_m (iter_pos shr_1 n mrs))
      by (rewrite IH by exact Hm; apply Z.div_pos; lia).
    rewrite IH by exact H1. rewrite IH by exact Hm.
    rewrite Z.div_div by lia. now rewrite Hpow.
  - rewrite shr_1_m by exact Hm. reflexivity.
Qed.

Lemma fexp64 (e : Z) : fexp prec emax e = Z.max (e - 53) emin64.
Proof. reflexivity. Qed.

(** Rounding a positive integer at an exponent that is not below the
    least one gives a positive integer, at such an exponent. *)
Lemma shr_fexp_positive (m : positive) (e : Z) (l : location) :
  emin64 <= e ->
  exists m', shr_m (fst (shr_fexp prec emax (Zpos m) e l)) = Zpos m' /\
             emin64 <= snd (shr_fexp prec emax (Zpos m) e l).
Proof.
  intros He. unfold shr_fexp, shr. rewrite fexp64. cbn [Zdigits2].
  pose proof (digits2_pos_bounds m) as Hd.
  set (d := Zpos (digits2_pos m)) in *.
  assert (Hrec : shr_m (shr_record_of_loc (Zpos m) l) = Zpos m)
    by (destruct l as [|[| |]]; reflexivity).
  destruct (Z.max (d + e - 53) emin64 - e) as [|n|n] eqn:En.
  - cbn [fst snd]. rewrite Hrec. now exists m.
  - cbn [fst snd]. rewrite iter_shr_1_m by (rewrite Hrec; lia). rewrite Hrec.
    assert (Hn : Zpos n = d - 53) by lia.
    assert (Hpow : 2 ^ Zpos n <= Zpos m).
    { apply Z.le_trans with (m := 2 ^ (d - 1)); [|lia].
      apply Z.pow_le_mono_r; lia. }
    assert (Hq : 0 < Zpos m / 2 ^ Zpos n).
    { apply Z.div_str_pos. split; [apply Z.pow_pos_nonneg; lia|exact Hpow]. }
    destruct (Zpos m / 2 ^ Zpos n) as [|q|q]; try lia.
    exists q. split; [reflexivity|lia].
  - cbn [fst snd]. rewrite Hrec. now exists m.
Qed.

Lemma round_nearest_even_positive (m : positive) (l : location) :
  exists m', round_nearest_even (Zpos m) l = Zpos m'.
Proof.
  destruct l as [|[| |]]; cbn [round_nearest_even]; try (now exists m).
  - destruct (Z.even (Zpos m)); [now exists m|]. now exists (m + 1)%positive.
  - now exists (m + 1)%positive.
Qed.

Lemma binary_round_aux_positive (s : bool) (m : positive) (e : Z) (l : location) :
  emin64 <= e ->
  (exists m' e', binary_round_aux prec emax s (Zpos m) e l = S754_finite s m' e') \/
  binary_round_aux prec emax s (Zpos m) e l = S754_infinity s.
Proof.
  intros He. unfold binary_round_aux.
  destruct (@shr_fexp_positive m e l He) as [m1 [Hm1 He1]].
  destruct (shr_fexp prec emax (Zpos m) e l) as [mrs1 e1]. cbn [fst snd] in *.
  rewrite Hm1.
  destruct (@round_nearest_even_positive m1 (loc_of_shr_record mrs1)) as [m2 ->].
  destruct (@shr_fexp_positive m2 e1 loc_Exact He1) as [m3 [Hm3 He3]].
  destruct (shr_fexp prec emax (Zpos m2) e1 loc_Exact) as [mrs3 e3].
  cbn [fst snd] in *. rewrite Hm3.
  destruct (e3 <=? emax - prec); [left; now exists m3, e3|now right].
Qed.

Lemma shl_align_spec (m : positive) (e e' : Z) :
  snd (shl_align m e e') = Z.min e e' /\
  Zpos (fst (shl_align m e e')) = Zpos m * 2 ^ (e - Z.min e e').
Proof.
  unfold shl_align. destruct (e' - e) as [|d|d] eqn:Ed; cbn [fst snd].
  - replace (Z.min e e') with e by lia. rewrite Z.sub_diag. lia.
  - replace (Z.min e e') with e by lia. rewrite Z.sub_diag. lia.
  - replace (Z.min e e') with e' by lia. split; [reflexivity|].
    replace (e - e') with (Zpos d) by lia.
    change (Pos.iter xO m d) with (shift_pos d m).
    rewrite shift_pos_correct, Zpower_pos_nat, Zpower_nat_Z, positive_nat_Z. lia.
Qed.

Lemma binary_round_positive (s : bool) (m : positive) (e : Z) :
  emin64 <= e ->
  (exists m' e', binary_round prec emax s m e = S754_finite s m' e') \/
  binary_round prec emax s m e = S754_infinity s.
Proof.
  intros He. unfold binary_round.
  destruct (shl_align_spec m e (fexp prec emax (Zpos (digits2_pos m) + e)))
    as [Hsnd _].
  destruct (shl_align m e (fexp prec emax (Zpos (digits2_pos m) + e))) as [mz ez].
  cbn [snd] in Hsnd. apply binary_round_aux_positive.
  rewrite Hsnd, fexp64. lia.
Qed.

Lemma bounded_bounds (m : positive) (e : Z) :
  bounded prec emax m e = true ->
  emin64 <= e /\ Zpos m < 2 ^ 53 /\ (emin64 < e -> 2 ^ 52 <= Zpos m).
Proof.
  unfold bounded, canonical_mantissa. rewrite fexp64. intros H.
  apply andb_true_iff in H. destruct H as [H _]. apply Z.eqb_eq in H.
  pose proof (digits2_pos_bounds m) as Hd.
  set (d := Zpos (digits2_pos m)) in *.
  assert (Hd53 : d <= 53) by lia.
  split; [lia|]. split.
  - apply Z.lt_le_trans with (m := 2 ^ d); [lia|].
    apply Z.pow_le_mono_r; lia.
  - intros He. assert (d = 53) by lia. subst d.
    replace 52 with (Zpos (digits2_pos m) - 1) by lia. lia.
Qed.

(** On the mantissas of two numbers of binary64, the order by exponent and
    then by mantissa is the order of the values. *)
Lemma aligned_compare (m1 m2 : positive) (e1 e2 : Z) :
  bounded prec emax m1 e1 = true -> bounded prec emax m2 e2 = true ->
  match (e1 ?= e2) with
  | Lt => Lt
  | Gt => Gt
  | Eq => Pos.compare_cont Eq m1 m2
  end
  = (Zpos m1 * 2 ^ (e1 - Z.min e1 e2) ?= Zpos m2 * 2 ^ (e2 - Z.min e1 e2)).
Proof.
  intros H1 H2.
  destruct (@bounded_bounds _ _ H1) as [Hmin1 [Hup1 Hlow1]].
  destruct (@bounded_bounds _ _ H2) as [Hmin2 [Hup2 Hlow2]].
  destruct (Z.compare_spec e1 e2) as [He|He|He]; symmetry.
  - subst e2. rewrite Z.min_id, Z.sub_diag, !Z.mul_1_r. reflexivity.
  - replace (Z.min e1 e2) with e1 by lia. rewrite Z.sub_diag, Z.mul_1_r.
    apply Z.compare_lt_iff.
    assert (Hpow : 2 <= 2 ^ (e2 - e1)).
    { change 2 with (2 ^ 1) at 1. apply Z.pow_le_mono_r; lia. }
    specialize (Hlow2 ltac:(lia)). nia.
  - replace (Z.min e1 e2) with e2 by lia. rewrite Z.sub_diag, Z.mul_1_r.
    apply Z.compare_gt_iff.
    assert (Hpow : 2 <= 2 ^ (e1 - e2)).
    { change 2 with (2 ^ 1) at 1. apply Z.pow_le_mono_r; lia. }
    specialize (Hlow1 ltac:(lia)). nia.
Qed.

Lemma binary_normalize_sign (d e : Z) :
  emin64 <= e ->
  SFltb (S754_zero false) (binary_normalize prec emax d e false) = (0 <? d).
Proof.
  intros He. destruct d as [|p|p]; cbn [binary_normalize].
  - reflexivity.
  - destruct (@binary_round_positive false p e He) as [[m' [e' ->]]| ->]; reflexivity.
  - destruct (@binary_round_positive true p e He) as [[m' [e' ->]]| ->]; reflexivity.
Qed.

(** The difference [y - x] of two finite numbers is positive exactly when
    [x] is below [y]. *)
Lemma SFsub_positive (x y : spec_float) :
  valid_binary x = true -> valid_binary y = true ->
  SFfinite x = true -> SFfinite y = true ->
  SFltb (S754_zero false) (SF64sub y x) = SFltb x y.
Proof.
  intros Hvx Hvy Hfx Hfy.
  destruct x as [sx|sx| |sx mx ex]; try discriminate Hfx;
    destruct y as [sy|sy| |sy my ey]; try discriminate Hfy.
  - destruct sx, sy; reflexivity.
  - destruct sy; reflexivity.
  - destruct sx; reflexivity.
  - cbn [valid_binary] in Hvx, Hvy.
    destruct (@bounded_bounds _ _ Hvx) as [Hminx _].
    destruct (@bounded_bounds _ _ Hvy) as [Hminy _].
    unfold SF64sub, SFsub. cbv zeta.
    rewrite binary_normalize_sign by lia.
    destruct (shl_align_spec my ey (Z.min ey ex)) as [_ Hy].
    destruct (shl_align_spec mx ex (Z.min ey ex)) as [_ Hx].
    rewrite Hy, Hx.
    replace (Z.min ey (Z.min ey ex)) with (Z.min ex ey) by lia.
    replace (Z.min ex (Z.min ey ex)) with (Z.min ex ey) by lia.
    pose proof (@aligned_compare mx my ex ey Hvx Hvy) as Hcmp.
    assert (Hpx : 0 < Zpos mx * 2 ^ (ex - Z.min ex ey))
      by (apply Z.mul_pos_pos; [lia|apply Z.pow_pos_nonneg; lia]).
    assert (Hpy : 0 < Zpos my * 2 ^ (ey - Z.min ex ey))
      by (apply Z.mul_pos_pos; [lia|apply Z.pow_pos_nonneg; lia]).
    unfold SFltb, SFcompare. revert Hcmp.
    destruct sx, sy; cbn [cond_Zopp];
      (destruct (ex ?= ey); [destruct (Pos.compare_cont Eq mx my)| |]);
      intros Hcmp; symmetry in Hcmp;
      first [ rewrite Z.compare_eq_iff in Hcmp
            | rewrite Z.compare_lt_iff in Hcmp
            | rewrite Z.compare_gt_iff in Hcmp ];
      cbn [CompOpp]; first [apply Z.ltb_lt; lia | apply Z.ltb_ge; lia].
Qed.

End Difference.

Lemma is_infinity_spec (x : float) :
  is_infinity x = false -> forall s, Prim2SF x <> S754_infinity s.
Proof.
  unfold is_infinity. rewrite eqb_spec, abs_spec. intros H s Hx.
  rewrite Hx in H. discriminate H.
Qed.

Lemma is_finite_spec (x : float) :
  is_finite x = true -> SFfinite (Prim2SF x) = true.
Proof.
  unfold is_finite. intros H. apply negb_true_iff, orb_false_iff in H.
  destruct H as [Hnan Hinf].
  pose proof (@is_nan_spec x Hnan) as H1. pose proof (@is_infinity_spec x Hinf) as H2.
  destruct (Prim2SF x) as [s|s| |s m e]; try reflexivity.
  - now elim (H2 s).
  - now elim H1.
Qed.

(** The comparison function of the sort is positive exactly when its
    first argument has the lower score, for finite scores. *)
Lemma sub_positive (a b : float) :
  is_finite a = true -> is_finite b = true ->
  (0 <? b - a)%float = (a <? b)%float.
Proof.
  intros Ha Hb. rewrite !ltb_spec, sub_spec.
  change (Prim2SF 0) with (S754_zero false).
  apply SFsub_positive; try apply Prim2SF_valid; now apply is_finite_spec.
Qed.

Lemma SFltb_between (x y z : spec_float) :
  y <> S754_nan -> SFltb x z = true -> SFltb x y = true \/ SFltb y z = true.
Proof.
  intros Hy. unfold SFltb, SFcompare.
  destruct x as [sx|sx| |sx mx ex], y as [sy|sy| |sy my ey], z as [sz|sz| |sz mz ez];
    try (now elim Hy); try destruct sx; try destruct sy; try destruct sz;
    try discriminate; try (intros _; left; reflexivity);
    try (intros _; right; reflexivity);
    intros Hxz; orderCases; simpl in *; try discriminate;
    try (left; reflexivity); try (right; reflexivity); try lia.
Qed.

Lemma ltb_between (x y z : float) :
  is_nan y = false -> (x <? z)%float = true ->
  (x <? y)%float = true \/ (y <? z)%float = true.
Proof.
  intros Hy. rewrite !ltb_spec. apply SFltb_between. now apply is_nan_spec.
Qed.

Lemma is_finite_not_nan (x : float) : is_finite x = true -> is_nan x = false.
Proof.
  unfold is_finite. intros H. apply negb_true_iff, orb_false_iff in H. tauto.
Qed.

(** *** Sorting *)

Lemma insertByScore64_sorted (r : Result.t float) (sorted : list (Result.t float)) :
  is_finite (Result.score r) = true ->
  Forall (fun x => is_finite (Result.score x) = true) sorted ->
  StronglySorted Binary64.notBelow sorted ->
  StronglySorted Binary64.notBelow (Binary64.insertByScore r sorted).
Proof.
  intros Hr Hfin Hsorted.
  induction Hsorted as [|r' rest Hrest IH Hall]; simpl.
  - constructor; constructor.
  - inversion Hfin as [|? ? Hr' Hfin']; subst.
    unfold Binary64.compareFn. rewrite (@sub_positive _ _ Hr Hr').
    destruct (Result.score r <? Result.score r')%float eqn:Hlt.
    + constructor; [now apply IH|].
      apply Forall_forall. intros x Hx.
      apply (Permutation_in _ (insertByScore64_perm r rest)) in Hx.
      destruct Hx as [<-|Hx].
      * unfold Binary64.notBelow. now apply ltb_asym.
      * rewrite Forall_forall in Hall. now apply Hall.
    + constructor; [now constructor|].
      constructor; [exact Hlt|].
      apply Forall_forall. intros x Hx. rewrite Forall_forall in Hall.
      unfold Binary64.notBelow in *.
      destruct (Result.score r <? Result.score x)%float eqn:Hx'; [|reflexivity].
      destruct (@ltb_between _ (Result.score r') _ (@is_finite_not_nan _ Hr') Hx')
        as [H|H]; [congruence|].
      rewrite (Hall x Hx) in H. discriminate H.
Qed.

Lemma sortByScore64_sorted (results : list (Result.t float)) :
  Forall (fun x => is_finite (Result.score x) = true) results ->
  StronglySorted Binary64.notBelow (Binary64.sortByScore results).
Proof.
  induction 1 as [|r results Hr Hfin IH]; simpl; [constructor|].
  apply insertByScore64_sorted; [exact Hr| |exact IH].
  apply Forall_forall. intros x Hx.
  apply (Permutation_in _ (sortByScore64_perm results)) in Hx.
  rewrite Forall_forall in Hfin. now apply Hfin.
Qed.

Lemma rankedResults64_nonempty (intents : list string) (hits : list Binary64.Hit.t)
  (limit : Z) (hit : Binary64.Hit.t) :
  In hit hits -> (1 <= limit)%Z ->
  exists first rest,
    Binary64.rankedResults intents hits limit = first :: rest /\
    (Z.of_nat (List.length (first :: rest)) <= limit)%Z.
Proof.
  intros Hhit Hlimit. unfold Binary64.rankedResults. cbv zeta.
  destruct (scored64_all intents hits) as [_ _ Hseen].
  apply Hseen in Hhit. apply in_map_iff in Hhit. destruct Hhit as [[k r] [_ Hkr]].
  apply (in_map snd) in Hkr. fold (StringMap.values
    (fold_left (Binary64.rerankStep intents) hits [])) in Hkr.
  apply (Permutation_in _ (Permutation_sym (sortByScore64_perm _))) in Hkr.
  pose proof (sliceTo_length limit
                (Binary64.sortByScore
                   (StringMap.values
                      (fold_left (Binary64.rerankStep intents) hits []))))
    as [_ Hbound].
  specialize (Hbound ltac:(lia)). revert Hbound.
  destruct (Binary64.sortByScore
              (StringMap.values (fold_left (Binary64.rerankStep intents) hits [])))
    as [|top rest]; [destruct Hkr|].
  unfold sliceTo. destruct (limit <? 0)%Z eqn:E; [apply Z.ltb_lt in E; lia|].
  destruct (Z.to_nat (Z.min limit (Z.of_nat (List.length (top :: rest)))))
    as [|n] eqn:En; [simpl List.length in En; lia|].
  intros Hbound. exists top, (firstn n rest). split; [reflexivity|exact Hbound].
Qed.

Lemma StronglySorted_of_map {A B : Type} (R : A -> A -> Prop) (R' : B -> B -> Prop)
  (f : A -> B) (xs : list A) :
  (forall a b, R' (f a) (f b) -> R a b) ->
  StronglySorted R' (map f xs) -> StronglySorted R xs.
Proof.
  intros Hf. induction xs as [|x xs IH]; simpl; intros Hs; [constructor|].
  inversion Hs as [|? ? Hs' Hall]; subst. constructor; [now apply IH|].
  rewrite Forall_forall in *. intros y Hy. apply Hf, Hall. now apply in_map.
Qed.

(** Every hit has, in the map of the loop, an entry of its segment that is
    made of a hit it does not exceed. *)
Lemma scored64_covers (intents : list string) (hits : list Binary64.Hit.t)
  (hit : Binary64.Hit.t) :
  In hit hits ->
  exists best,
    In (Binary64.resultOf (Binary64.Hit.document best)
          (Binary64.finalScoreOf intents best))
       (StringMap.values (fold_left (Binary64.rerankStep intents) hits [])) /\
    In best hits /\
    (Binary64.finalScoreOf intents best <? Binary64.finalScoreOf intents hit)%float
    = false.
Proof.
  intros Hin. destruct (scored64_all intents hits) as [_ Hentries Hseen].
  apply Hseen in Hin as Hkey. apply in_map_iff in Hkey.
  destruct Hkey as [[k r] [Hk Hkr]]. simpl in Hk. subst k.
  destruct (Hentries _ _ Hkr) as [best [[Hbest Hmax] [Hseg ->]]].
  exists best. split; [|split; [exact Hbest|]].
  - unfold StringMap.values. now apply (in_map snd) in Hkr.
  - apply Hmax; [exact Hin|exact Hseg].
Qed.

(** X10: when the models are there, the index engine returns at least one
    hit, every boosted score (hit score plus boost, as binary64 numbers) is
    finite and the limit is at least one, the search posts at least one
    result and at most [limit] of them, made of hits in the order of their
    boosted scores: no result is made of a hit with a higher boosted score
    than that of a result before it, and the first result is made of a hit
    that no hit of the engine exceeds.  A result carries the segment id, the
    full segment text and the times of the document of its hit, and the
    boosted score of its hit divided by 1.1 times that of the first hit,
    capped at 0.99. *)
Theorem finite_hits_are_ranked (Orama : Type)
  (search : Orama -> Query.t -> outcome (list Binary64.Hit.t)) (st : State Orama)
  (query : string) (limit : Z) embedder db queryVector hits hit :
  embedderPipeline st = Some embedder ->
  oramaDb st = Some db ->
  embedder query = Returns queryVector ->
  search db (hybridQuery query queryVector) = Returns hits ->
  In hit hits ->
  (1 <= limit)%Z ->
  let boosted (h : Binary64.Hit.t) : float :=
    (Binary64.Hit.score h
     + Binary64.calculateHeuristicBoost (Doc.text (Binary64.Hit.document h))
         (detectQuestionIntent query))%float in
  (forall h, In h hits -> is_finite (boosted h) = true) ->
  exists top rest,
    Binary64.semanticSearch search st query limit
    = [ Binary64.Embed query; Binary64.Search (hybridQuery query queryVector);
        Binary64.PostMessage
          (Binary64.SearchResults
             (map (fun h =>
                     {| Result.segment :=
                          {| Segment.id := Doc.segmentId (Binary64.Hit.document h);
                             Segment.text :=
                               Doc.fullSegmentText (Binary64.Hit.document h);
                             Segment.start := Doc.start (Binary64.Hit.document h);
                             Segment.end_ := Doc.end_ (Binary64.Hit.document h) |};
                        Result.score :=
                          Binary64.min (boosted h / (boosted top * 1.1))%float
                            0.99%float |})
                (top :: rest))
             query) ] /\
    (Z.of_nat (List.length (top :: rest)) <= limit)%Z /\
    (forall h, In h (top :: rest) -> In h hits) /\
    StronglySorted (fun h1 h2 => (boosted h1 <? boosted h2)%float = false)
      (top :: rest) /\
    (forall h, In h hits -> (boosted top <? boosted h)%float = false) /\
    (forall h, In h (top :: rest) ->
       (0.99 <? Binary64.min (boosted h / (boosted top * 1.1)) 0.99)%float = false).
Proof.
  intros Hemb Hdb Hv Hhits Hhit Hlimit boosted Hfinite.
  set (intents := detectQuestionIntent query).
  set (values := StringMap.values (fold_left (Binary64.rerankStep intents) hits [])).
  assert (Hvalues : forall r, In r values ->
            exists h, In h hits /\
                      r = Binary64.resultOf (Binary64.Hit.document h) (boosted h)).
  { intros r Hr. unfold values, StringMap.values in Hr. apply in_map_iff in Hr.
    destruct Hr as [[k r'] [<- Hin]].
    destruct (scored64_all intents hits) as [_ Hentries _].
    destruct (Hentries _ _ Hin) as [h [[Hh _] [_ ->]]]. now exists h. }
  assert (Hsorted : StronglySorted Binary64.notBelow (Binary64.sortByScore values)).
  { apply sortByScore64_sorted. apply Forall_forall. intros r Hr.
    destruct (Hvalues r Hr) as [h [Hh ->]]. now apply Hfinite. }
  destruct (rankedResults64_nonempty intents hits hit Hhit Hlimit)
    as [first [others [Hranked Hbound]]].
  destruct (rankedResults64_spec intents hits limit) as [_ Hraw].
  destruct (Forall2_of_exists
              (fun r h =>
                 Binary64.bestOfSegment intents hits h /\
                 r = Binary64.resultOf (Binary64.Hit.document h)
                       (Binary64.finalScoreOf intents h))
              (Binary64.rankedResults intents hits limit) Hraw) as [kept Hkept].
  assert (Hmap : Binary64.rankedResults intents hits limit
                 = map (fun h => Binary64.resultOf (Binary64.Hit.document h) (boosted h))
                     kept).
  { apply Forall2_map_eq. clear - Hkept.
    induction Hkept as [|r h raw kept [_ Hr] _ IH]; constructor; assumption. }
  assert (Hin : forall h, In h kept -> In h hits).
  { clear - Hkept. intros h Hh.
    induction Hkept as [|r h' raw kept [[Hb _] _] _ IH]; [destruct Hh|].
    destruct Hh as [<-|Hh]; [exact Hb|now apply IH]. }
  destruct kept as [|top rest]; [rewrite Hranked in Hmap; discriminate Hmap|].
  exists top, rest.
  assert (Hfirst : Binary64.sortByScore values
                   = Binary64.resultOf (Binary64.Hit.document top) (boosted top)
                     :: tl (Binary64.sortByScore values)).
  { pose proof Hmap as Hhead. unfold Binary64.rankedResults in Hhead.
    cbv zeta in Hhead. fold intents values in Hhead.
    destruct (sliceTo_firstn limit (Binary64.sortByScore values)) as [n Hn].
    rewrite Hn in Hhead. destruct (Binary64.sortByScore values) as [|s0 ss];
      [rewrite firstn_nil in Hhead; discriminate Hhead|].
    destruct n; [discriminate Hhead|]. cbn [firstn map tl] in *.
    now inversion Hhead. }
  split; [|split; [|split; [exact Hin|split; [|split]]]].
  - unfold Binary64.semanticSearch. rewrite Hemb, Hdb, Hv, Hhits. cbv zeta.
    fold intents. rewrite Hmap. cbn [Binary64.normalizeScores map].
    rewrite map_map. reflexivity.
  - rewrite Hranked in Hmap. apply (f_equal (@List.length _)) in Hmap.
    rewrite length_map in Hmap. now rewrite <- Hmap.
  - apply (@StronglySorted_of_map _ _ _ Binary64.notBelow
             (fun h => Binary64.resultOf (Binary64.Hit.document h) (boosted h)));
      [intros a b H; exact H|].
    rewrite <- Hmap. unfold Binary64.rankedResults. cbv zeta. fold intents values.
    destruct (sliceTo_firstn limit (Binary64.sortByScore values)) as [n ->].
    now apply firstn_StronglySorted.
  - intros h Hh.
    destruct (scored64_covers intents hits h Hh) as [best [Hbest [Hbest' Hmax]]].
    fold values in Hbest.
    apply (Permutation_in _ (Permutation_sym (sortByScore64_perm values))) in Hbest.
    assert (Htop : (boosted top <? boosted best)%float = false).
    { rewrite Hfirst in Hbest, Hsorted. destruct Hbest as [Heq|Hbest].
      - apply (f_equal (@Result.score float)) in Heq. cbn [Binary64.resultOf Result.score] in Heq.
        change (Binary64.finalScoreOf intents best) with (boosted best) in Heq.
        rewrite <- Heq. apply ltb_irrefl.
      - inversion Hsorted as [|? ? _ Hall]; subst. rewrite Forall_forall in Hall.
        exact (Hall _ Hbest). }
    destruct (boosted top <? boosted h)%float eqn:Hlt; [|reflexivity].
    destruct (@ltb_between _ (boosted best) _
                (@is_finite_not_nan _ (Hfinite best Hbest')) Hlt) as [H|H].
    + rewrite Htop in H. discriminate H.
    + change (Binary64.finalScoreOf intents best) with (boosted best) in Hmax.
      change (Binary64.finalScoreOf intents h) with (boosted h) in Hmax.
      rewrite Hmax in H. discriminate H.
  - intros h _. apply min_below. reflexivity.
Qed.

Lemma finite_hits_are_ranked_witness :
  let boosted (h : Binary64.Hit.t) : float :=
    (Binary64.Hit.score h
     + Binary64.calculateHeuristicBoost (Doc.text (Binary64.Hit.document h))
         (detectQuestionIntent "How can I improve my intuition?"))%float in
  map boosted Sample64.hits
  = [0.5; 0.29999999999999999; 0.69999999999999996; 0.10000000000000001]%float /\
  exists top rest,
    Binary64.semanticSearch Sample64.engine (Sample64.ready Sample64.hits)
      "How can I improve my intuition?" 5
    = [ Binary64.Embed "How can I improve my intuition?";
        Binary64.Search (hybridQuery "How can I improve my intuition?" [1]);
        Binary64.PostMessage
          (Binary64.SearchResults
             (map (fun h =>
                     {| Result.segment :=
                          {| Segment.id := Doc.segmentId (Binary64.Hit.document h);
                             Segment.text :=
                               Doc.fullSegmentText (Binary64.Hit.document h);
                             Segment.start := Doc.start (Binary64.Hit.document h);
                             Segment.end_ := Doc.end_ (Binary64.Hit.document h) |};
                        Result.score :=
                          Binary64.min (boosted h / (boosted top * 1.1))%float
                            0.99%float |})
                (top :: rest))
             "How can I improve my intuition?") ] /\
    (Z.of_nat (List.length (top :: rest)) <= 5)%Z /\
    (forall h, In h (top :: rest) -> In h Sample64.hits) /\
    StronglySorted (fun h1 h2 => (boosted h1 <? boosted h2)%float = false)
      (top :: rest) /\
    (forall h, In h Sample64.hits -> (boosted top <? boosted h)%float = false) /\
    (forall h, In h (top :: rest) ->
       (0.99 <? Binary64.min (boosted h / (boosted top * 1.1)) 0.99)%float = false).
Proof.
  intros boosted. split; [vm_compute; reflexivity|].
  refine (@finite_hits_are_ranked _ Sample64.engine (Sample64.ready Sample64.hits)
            "How can I improve my intuition?" 5 (fun _ => Returns [1]) Sample64.hits
            [1] Sample64.hits
            (Binary64.Hit.make 0.5
               (Sample64.passage "s1_0" "s1" "Intuition needs no proof. Nothing here."
                  Sample64.intuition 0 (15 # 2)))
            eq_refl eq_refl eq_refl eq_refl _ _ _).
  - left. reflexivity.
  - lia.
  - intros h [<-|[<-|[<-|[<-|[]]]]]; vm_compute; reflexivity.
Defined.

(** ** The candidates the search asks for *)

(** Whatever the result limit, the hybrid query that the search issues asks
    for 20 candidates, with a similarity floor of 0.4. *)
Lemma search_query_is_fixed (Orama : Type)
  (search : Orama -> Query.t -> outcome (list Binary64.Hit.t)) (st : State Orama)
  (query : string) (limit : Z) (params : Query.t) :
  In (Binary64.Search params) (Binary64.semanticSearch search st query limit) ->
  params = hybridQuery query (Query.vectorValue params) /\
  Query.mode params = "hybrid" /\
  Query.limit params = 20%Z /\
  Query.similarity params = 4 # 10.
Proof.
  unfold Binary64.semanticSearch, Binary64.searchError.
  destruct (embedderPipeline st) as [embedder|];
    [|destruct (oramaDb st); simpl; intros [H|[]]; discriminate H].
  destruct (oramaDb st) as [db|]; [|simpl; intros [H|[]]; discriminate H].
  destruct (embedder query) as [queryVector|e];
    [|simpl; intros [H|[H|[]]]; discriminate H].
  destruct (search db (hybridQuery query queryVector)) as [hits|e]; simpl;
    intros [H|[H|[H|[]]]]; try discriminate H;
    inversion H; subst; repeat split.
Qed.

(** C6: the code does not ask for twice the limit.  The comment on the limit
    of the hybrid query reads [Fetch more to allow for re-ranking], yet the
    search with limit 20 that the user interface runs issues one query to
    the index engine, which asks for 20 candidates: as many as the limit,
    not 40.  A search with limit 5 asks for 20 candidates as well, not 10.
    A search without limit asks for 20, twice the default limit of 10, and
    the similarity floor is 0.4, as claimed. *)
Theorem search_asks_for_twenty_candidates :
  let query := "Does intuition require proof?" in
  let issued (limit : option Z) (params : Query.t) : Prop :=
    In (Binary64.Search params)
       (Binary64.onSearchMessage Sample64.engine (Sample64.ready Sample64.hits)
          query limit) in
  (forall limit, issued limit (hybridQuery query [1])) /\
  (forall params, issued (Some 20%Z) params ->
     params = hybridQuery query [1] /\
     Query.limit params = 20%Z /\
     ~ (20 < Query.limit params)%Z /\
     Query.limit params <> (2 * 20)%Z /\
     Query.similarity params = 4 # 10) /\
  (forall params, issued (Some 5%Z) params ->
     Query.limit params = 20%Z /\ Query.limit params <> (2 * 5)%Z) /\
  (forall params, issued None params ->
     Query.limit params = (2 * 10)%Z /\ Query.similarity params = 4 # 10).
Proof.
  intros query issued. unfold issued, Binary64.onSearchMessage.
  split; [intros limit; right; left; reflexivity|].
  split; [|split].
  - intros params [H|[H|[H|[]]]]; try discriminate H.
    inversion H; subst params. repeat split; try reflexivity;
      [vm_compute; discriminate | discriminate].
  - intros params Hin. apply search_query_is_fixed in Hin.
    destruct Hin as [_ [_ [-> _]]]. split; [reflexivity|discriminate].
  - intros params Hin. apply search_query_is_fixed in Hin.
    destruct Hin as [_ [_ [-> ->]]]. split; reflexivity.
Qed.

(** ** The chunker on the texts it is given *)

(** *** Texts of white space *)

Lemma trim_white_space (s : string) :
  allChars Str.isWhiteSpace s = true -> Str.trim s = "".
Proof.
  unfold Str.trim. induction s as [|c s IH]; simpl; [reflexivity|].
  intros H. apply andb_true_iff in H. destruct H as [Hc Hs].
  rewrite Hc. now apply IH.
Qed.

(** The matches of a pattern in a string are made of characters of the
    string. *)
Lemma matchAllFrom_allChars (ignoreCase : bool) (r : RegExp.pattern)
  (q : ascii -> bool) (prev : option ascii) (s : string) :
  allChars q s = true ->
  Forall (fun m => allChars q m = true) (RegExp.matchAllFrom ignoreCase r prev s).
Proof.
  funelim (RegExp.matchAllFrom ignoreCase r prev s); intros Hs.
  - match goal with
    | e : RegExp.matchHere _ _ _ _ = Some _ |- _ =>
        destruct (@matchHere_suffix _ _ _ _ _ _ e) as [pre Hpre]
    end.
    assert (Hsub : substring 0 (String.length s - String.length rest) s = pre).
    { rewrite Hpre, string_length_append, Nat.add_sub. apply substring_prefix. }
    rewrite Hsub. rewrite Hpre, allChars_append in Hs.
    apply andb_true_iff in Hs. destruct Hs as [Hp Hr].
    constructor; [exact Hp|]. now apply H.
  - constructor; [reflexivity|constructor].
  - simpl in Hs. apply andb_true_iff in Hs. destruct Hs as [_ Hs].
    constructor; [reflexivity|]. now apply H.
  - constructor.
  - simpl in Hs. apply andb_true_iff in Hs. destruct Hs as [_ Hs]. now apply H.
Qed.

(** A string that starts with a character that is no sentence punctuation
    has a match at its start. *)
Lemma matchAllFrom_starts (prev : option ascii) (c : ascii) (s : string) :
  isSentenceEnd c = false ->
  RegExp.matchAllFrom false sentenceRegex prev (String c s) <> [].
Proof.
  intros Hc.
  assert (Hgen : forall t, t = String c s ->
            RegExp.matchAllFrom false sentenceRegex prev t <> []).
  { intros t. funelim (RegExp.matchAllFrom false sentenceRegex prev t);
      intros Ht; try discriminate.
    match goal with
    | e : RegExp.matchHere _ _ _ _ = None |- _ =>
        pose proof (@sentence_match_starts _ _ _ e) as Hnone
    end.
    inversion Ht; subst. rewrite Hc in Hnone. discriminate Hnone. }
  now apply Hgen.
Qed.

Lemma white_space_is_no_punctuation (c : ascii) :
  Str.isWhiteSpace c = true -> isSentenceEnd c = false.
Proof. destruct c as [[] [] [] [] [] [] [] []]; intros H; try discriminate H; reflexivity. Qed.

(** A text of white space that is not empty has no sentence, and the
    chunker makes no chunk of it. *)
Lemma white_space_no_sentence (text : string) :
  text <> "" -> allChars Str.isWhiteSpace text = true ->
  sentencesOf text = [] /\ chunkTextWithWindow text = [].
Proof.
  intros Htext Hws.
  assert (Hsentences : sentencesOf text = []).
  { unfold sentencesOf, RegExp.matchAll.
    pose proof (matchAllFrom_allChars false sentenceRegex Str.isWhiteSpace None
                  text Hws) as Hall.
    destruct text as [|c s]; [now elim Htext|].
    simpl in Hws. apply andb_true_iff in Hws. destruct Hws as [Hc _].
    pose proof (@matchAllFrom_starts None c s (white_space_is_no_punctuation c Hc))
      as Hstart.
    destruct (RegExp.matchAllFrom false sentenceRegex None (String c s))
      as [|m ms]; [now elim Hstart|].
    clear Hstart. induction Hall as [|m' ms' Hm _ IH]; [reflexivity|].
    cbn [map filter]. rewrite (trim_white_space _ Hm). exact IH. }
  split; [exact Hsentences|].
  unfold chunkTextWithWindow. now rewrite Hsentences, windowsFrom_none.
Qed.



(** C4, amended: a text that is not empty and splits into fewer than
    [WINDOW_SIZE] sentences gives exactly one chunk when it has a sentence:
    the text of the chunk is the sentences joined by single spaces and its
    ratios are ordered within the unit interval; they are 0 and 1 when the
    text is that joined text.  It gives no chunk when it has no sentence,
    which is the case of every text of white space only. *)
Theorem short_text_single_chunk (text : string) :
  text <> "" ->
  (List.length (sentencesOf text) < WINDOW_SIZE)%nat ->
  ((0 < List.length (sentencesOf text))%nat ->
   exists c,
     chunkTextWithWindow text = [c] /\
     Chunk.text c = Str.join " " (sentencesOf text) /\
     JS.le (JS.Fin 0) (Chunk.startRatio c) /\
     JS.le (Chunk.startRatio c) (Chunk.endRatio c) /\
     JS.le (Chunk.endRatio c) (JS.Fin 1) /\
     (text = Str.join " " (sentencesOf text) ->
      JS.eq (Chunk.startRatio c) (JS.Fin 0) /\
      JS.eq (Chunk.endRatio c) (JS.Fin 1))) /\
  (sentencesOf text = [] -> chunkTextWithWindow text = []) /\
  (allChars Str.isWhiteSpace text = true ->
   sentencesOf text = [] /\ chunkTextWithWindow text = []).
Proof.
  intros Htext Hshort. split; [|split].
  - intros Hpos.
    exists (chunkOf text (sentencesOf text)).
    assert (Hchunks : chunkTextWithWindow text = [chunkOf text (sentencesOf text)]).
    { unfold chunkTextWithWindow. rewrite windowsFrom_short; [reflexivity|].
      split; assumption. }
    split; [exact Hchunks|]. split; [reflexivity|].
    destruct (chunkTextWithWindow_sound Htext) as [_ [_ Hratios]].
    destruct (Hratios (chunkOf text (sentencesOf text))) as [H0 [H1 H2]].
    { rewrite Hchunks. now left. }
    repeat (split; [assumption|]).
    intros Hjoin. unfold chunkOf. cbv zeta. cbn [Chunk.startRatio Chunk.endRatio].
    fold (textLength text). pose proof (textLength_pos Htext) as Hlen.
    rewrite !div_finite by exact Hlen. cbn [JS.max JS.min JS.eq].
    destruct (join_prefix_hd " " (sentencesOf text)) as [rest Hrest].
    assert (Hoff : Str.indexOf text (hd "" (sentencesOf text)) = 0%Z).
    { rewrite Hjoin at 1. rewrite Hrest. apply indexOf_prefix.
      rewrite <- Hrest, <- Hjoin. exact Htext. }
    rewrite Hoff, <- Hjoin. cbn [Z.add]. fold (textLength text).
    split.
    + apply Q.max_l. change (inject_Z 0) with 0. unfold Qdiv.
      rewrite Qmult_0_l. apply Qle_refl.
    + apply Q.min_l. apply Qle_shift_div_l; [exact Hlen|].
      rewrite Qmult_1_l. apply Qle_refl.
  - intros Hnone. unfold chunkTextWithWindow. now rewrite Hnone, windowsFrom_none.
  - intros Hws. now apply white_space_no_sentence.
Qed.

Lemma short_text_single_chunk_witness :
  (exists c,
      chunkTextWithWindow "Hello. World" = [c] /\
      Chunk.text c = "Hello. World" /\
      JS.eq (Chunk.startRatio c) (JS.Fin 0) /\
      JS.eq (Chunk.endRatio c) (JS.Fin 1)) /\
  (sentencesOf "   " = [] /\ chunkTextWithWindow "   " = []).
Proof.
  split.
  - assert (Htext : "Hello. World" <> "") by discriminate.
    assert (Hshort : (List.length (sentencesOf "Hello. World") < WINDOW_SIZE)%nat)
      by (vm_compute; lia).
    assert (Hpos : (0 < List.length (sentencesOf "Hello. World"))%nat)
      by (vm_compute; lia).
    destruct (proj1 (short_text_single_chunk Htext Hshort) Hpos)
      as [c [Hc [Ht [_ [_ [_ Hr]]]]]].
    exists c. split; [exact Hc|]. split; [exact Ht|]. apply Hr. reflexivity.
  - assert (Htext : "   " <> "") by discriminate.
    assert (Hshort : (List.length (sentencesOf "   ") < WINDOW_SIZE)%nat)
      by (vm_compute; lia).
    apply (proj2 (proj2 (short_text_single_chunk Htext Hshort))). reflexivity.
Defined.

(** C5, amended: for every text that is not empty, as are the texts that
    the chunker is given, the windows cover every sentence of the text,
    no window is empty, and the ratios of every chunk, which is made of
    one window, are ordered: the start ratio is at most the end ratio,
    between 0 and 1. *)
Theorem chunks_cover_text (text : string) :
  text <> "" ->
  let windows := windowsFrom (sentencesOf text) 0 in
  chunkTextWithWindow text = map (chunkOf text) windows /\
  (forall s, In s (sentencesOf text) -> exists w, In w windows /\ In s w) /\
  (forall w, In w windows -> w <> []) /\
  (forall c, In c (chunkTextWithWindow text) ->
     JS.le (JS.Fin 0) (Chunk.startRatio c) /\
     JS.le (Chunk.startRatio c) (Chunk.endRatio c) /\
     JS.le (Chunk.endRatio c) (JS.Fin 1)).
Proof.
  intros Htext windows. split; [reflexivity|].
  exact (chunkTextWithWindow_sound Htext).
Qed.

Lemma chunks_cover_text_witness :
  sentencesOf "A. B. C. D. E." = ["A."; "B."; "C."; "D."; "E."] /\
  let windows := windowsFrom (sentencesOf "A. B. C. D. E.") 0 in
  chunkTextWithWindow "A. B. C. D. E." = map (chunkOf "A. B. C. D. E.") windows /\
  (forall s, In s (sentencesOf "A. B. C. D. E.") ->
     exists w, In w windows /\ In s w) /\
  (forall w, In w windows -> w <> []) /\
  (forall c, In c (chunkTextWithWindow "A. B. C. D. E.") ->
     JS.le (JS.Fin 0) (Chunk.startRatio c) /\
     JS.le (Chunk.startRatio c) (Chunk.endRatio c) /\
     JS.le (Chunk.endRatio c) (JS.Fin 1)).
Proof.
  split; [vm_compute; reflexivity|].
  apply (@chunks_cover_text "A. B. C. D. E."). discriminate.
Defined.
